(** * The LINE chatbot: message routing, queueing and lookup

    A shallow embedding of the decision logic of the chatbot service
    (ChatbotService, GoogleSheetsService, GoogleDocsService, GeminiService)
    together with the properties its specification states about it.

    JavaScript strings are sequences of UTF-16 code units; they are
    modelled as [list N].  Timestamps ([Date.now()]) are integers ([Z]),
    scores are rationals ([Q]).  Calls to the outside world (the LLM, the
    document API) are modelled by their outcome, given as an argument. *)

From Stdlib Require Import ZArith NArith QArith List Bool Lia String Ascii.
From Stdlib Require Import Sorted Permutation.
From stdpp Require Import gmap.
Import ListNotations.
Close Scope Q_scope.
Open Scope nat_scope.

(** ** JavaScript strings *)

Module JS.

Abbreviation jsstring := (list N).

(** An ASCII literal as a JavaScript string. *)
Definition lit (s : string) : jsstring :=
  List.map N_of_ascii (list_ascii_of_string s).

Fixpoint eqb (a b : jsstring) : bool :=
  match a, b with
  | [], [] => true
  | x :: a', y :: b' => N.eqb x y && eqb a' b'
  | _, _ => false
  end.

(** [!s] for a string: only the empty string is falsy. *)
Definition falsy (s : jsstring) : bool :=
  match s with [] => true | _ => false end.

(** ECMAScript WhiteSpace and LineTerminator code units: what
    [String.prototype.trim] strips and what [\s] matches. *)
Definition isWhiteSpace (c : N) : bool :=
  ((9 <=? c) && (c <=? 13) || (c =? 32) || (c =? 160) || (c =? 5760)
   || (8192 <=? c) && (c <=? 8202) || (c =? 8232) || (c =? 8233)
   || (c =? 8239) || (c =? 8287) || (c =? 12288) || (c =? 65279))%N.

Fixpoint trimStart (s : jsstring) : jsstring :=
  match s with
  | c :: s' => if isWhiteSpace c then trimStart s' else s
  | [] => []
  end.

Definition trimEnd (s : jsstring) : jsstring := rev (trimStart (rev s)).

Definition trim (s : jsstring) : jsstring := trimEnd (trimStart s).

Fixpoint startsWith (s p : jsstring) : bool :=
  match p, s with
  | [], _ => true
  | x :: p', y :: s' => N.eqb x y && startsWith s' p'
  | _ :: _, [] => false
  end.

(** [s.includes(needle)]: [needle] occurs in [s] at some index. *)
Fixpoint includes (s needle : jsstring) : bool :=
  startsWith s needle ||
  match s with
  | [] => false
  | _ :: s' => includes s' needle
  end.

(** [s.split(/\s+/)]: the pieces between maximal runs of white space.
    [cur] is the piece being read, [inSep] tells that the last code unit
    belonged to a separator. *)
Fixpoint splitFrom (s cur : jsstring) (inSep : bool) : list jsstring :=
  match s with
  | [] => [cur]
  | c :: s' =>
      if isWhiteSpace c
      then if inSep then splitFrom s' cur true
           else cur :: splitFrom s' [] true
      else splitFrom s' (cur ++ [c]) false
  end.

Definition splitWhitespace (s : jsstring) : list jsstring :=
  splitFrom s [] false.

(** [a < b] on rationals, as a test. *)
Definition Qlt_bool (a b : Q) : bool := negb (Qle_bool b a).

(** [toLowerCase] restricted to Basic Latin.  The development is
    parametric in the case mapping; this instance is the one used on
    concrete inputs, which are ASCII or Thai (Thai has no case). *)
Definition lowerUnit (c : N) : N :=
  if ((65 <=? c) && (c <=? 90))%N then (c + 32)%N else c.

Definition asciiLower (s : jsstring) : jsstring := List.map lowerUnit s.

(** A thrown value; [message] is [None] when it has no message. *)
Record JsError := { message : option jsstring }.

(** How a call ends: it returns a value or throws (for an [async]
    function: its promise is fulfilled or rejected). *)
Inductive Result (A : Type) :=
| Returned (a : A)
| Thrown (e : JsError).
Arguments Returned {A} a.
Arguments Thrown {A} e.

Definition err (s : string) : JsError := {| message := Some (lit s) |}.

Lemma eqb_refl (a : jsstring) : eqb a a = true.
Proof.
  induction a as [|x a IH]; simpl; [reflexivity|].
  rewrite N.eqb_refl. exact IH.
Qed.

Lemma eqb_eq (a b : jsstring) : eqb a b = true <-> a = b.
Proof.
  split.
  - revert b. induction a as [|x a IH]; intros [|y b] H; simpl in H;
      try discriminate; [reflexivity|].
    apply andb_true_iff in H as [Hx Hr].
    apply N.eqb_eq in Hx. apply IH in Hr. congruence.
  - intros ->. apply eqb_refl.
Qed.

Lemma startsWith_refl (s : jsstring) : startsWith s s = true.
Proof.
  induction s as [|x s IH]; simpl; [reflexivity|].
  rewrite N.eqb_refl. exact IH.
Qed.

Lemma startsWith_nil (s : jsstring) : startsWith s [] = true.
Proof. destruct s; reflexivity. Qed.

Lemma includes_refl (s : jsstring) : includes s s = true.
Proof. destruct s; simpl; [reflexivity|]. rewrite N.eqb_refl, startsWith_refl. reflexivity. Qed.

(** Every string contains the empty string. *)
Lemma includes_nil (s : jsstring) : includes s [] = true.
Proof. destruct s; reflexivity. Qed.

Lemma startsWith_app (p s : jsstring) : startsWith (p ++ s) p = true.
Proof.
  induction p as [|x p IH]; simpl; [apply startsWith_nil|].
  rewrite N.eqb_refl. exact IH.
Qed.

Lemma includes_startsWith (s p : jsstring) :
  startsWith s p = true -> includes s p = true.
Proof. intros H. destruct s; simpl in *; rewrite H; reflexivity. Qed.

Lemma includes_app (pre p post : jsstring) : includes (pre ++ p ++ post) p = true.
Proof.
  induction pre as [|x pre IH].
  - apply includes_startsWith. exact (startsWith_app p post).
  - change (includes (x :: (pre ++ p ++ post)) p = true). simpl.
    rewrite IH. apply orb_true_r.
Qed.

End JS.

(** ** KeywordTable: GoogleSheetsService.findMatchingKeyword *)

Module KeywordTable.
Import JS.

(** One row of [keywordsData], as [loadKeywordsData] builds it. *)
Record KeywordItem := {
  id : nat;
  keyword : jsstring;
  answer : jsstring;
  originalKeyword : jsstring;
  sheet : jsstring
}.

Inductive MatchType :=
| exact | partial | word_match | fuzzy
| email_specific | phone_specific | contact_term.

(** The object [findMatchingKeyword] returns. *)
Record Match := {
  mKeyword : jsstring;
  mAnswer : jsstring;
  score : Q;
  matchType : MatchType
}.

Definition hit (item : KeywordItem) (sc : Q) (ty : MatchType) : Match :=
  {| mKeyword := originalKeyword item; mAnswer := answer item;
     score := sc; matchType := ty |}.

(** *** levenshteinDistance and calculateSimilarity *)

(** One row of the matrix: [prev] is row [i-1] from column [j-1] on,
    [left] is [matrix[i][j-1]]. *)
Fixpoint levRow (c2 : N) (str1 : jsstring) (prev : list nat) (left : nat)
  : list nat :=
  match str1, prev with
  | c1 :: r1, diag :: ((up :: _) as prev') =>
      let v := if N.eqb c2 c1 then diag
               else Nat.min (diag + 1) (Nat.min (left + 1) (up + 1)) in
      v :: levRow c2 r1 prev' v
  | _, _ => []
  end.

Definition levStep (str1 : jsstring) (acc : nat * list nat) (c2 : N)
  : nat * list nat :=
  let i := S (fst acc) in (i, i :: levRow c2 str1 (snd acc) i).

Definition levenshteinDistance (str1 str2 : jsstring) : nat :=
  let row0 := seq 0 (S (length str1)) in
  List.last (snd (fold_left (levStep str1) str2 (0, row0))) 0.

Definition calculateSimilarity (str1 str2 : jsstring) : Q :=
  if falsy str1 || falsy str2 then 0%Q
  else
    let longer := if length str2 <? length str1 then str1 else str2 in
    let shorter := if length str2 <? length str1 then str2 else str1 in
    if length longer =? 0 then 1%Q
    else
      let editDistance := levenshteinDistance longer shorter in
      ((Z.of_nat (length longer) - Z.of_nat editDistance)
         # Pos.of_nat (length longer))%Q.

(** *** The contact term lists of the fourth pass *)

Definition th_email : jsstring := [3629; 3637; 3648; 3617; 3621]%N.
Definition th_mail : jsstring := [3648; 3617; 3621]%N.
Definition th_number : jsstring := [3648; 3610; 3629; 3619; 3660]%N.
Definition th_call : jsstring := [3650; 3607; 3619]%N.
Definition th_contact : jsstring := [3605; 3636; 3604; 3605; 3656; 3629]%N.
Definition th_info : jsstring := [3586; 3657; 3629; 3617; 3641; 3621]%N.

Definition emailTerms : list jsstring :=
  [th_email; lit "email"; lit "e-mail"; th_mail].
Definition phoneTerms : list jsstring :=
  [th_number; th_call; th_number ++ th_call; lit "phone"; lit "tel"].
Definition contactTerms : list jsstring :=
  [th_contact; th_info; lit "contact"].

Definition hasTerm (terms : list jsstring) (s : jsstring) : bool :=
  existsb (fun term => includes s term) terms.

Section Matching.

(** [String.prototype.toLowerCase], left abstract. *)
Variable toLowerCase : jsstring -> jsstring.

Definition normalize (s : jsstring) : jsstring := trim (toLowerCase s).

(** First pass: one loop over the rows, returning at the first row whose
    keyword equals the message or is in a substring relation with it. *)
Fixpoint firstPass (message : jsstring) (items : list KeywordItem)
  : option Match :=
  match items with
  | [] => None
  | item :: rest =>
      if falsy (keyword item) then firstPass message rest
      else
        let kw := normalize (keyword item) in
        if eqb message kw then Some (hit item 1%Q exact)
        else if includes message kw || includes kw message
             then Some (hit item (9 # 10)%Q partial)
             else firstPass message rest
  end.

(** Second pass: word overlap. *)
Definition wordMatches (messageWord keywordWord : jsstring) : bool :=
  eqb messageWord keywordWord
  || includes messageWord keywordWord
  || includes keywordWord messageWord.

Definition matchCount (messageWords keywordWords : list jsstring) : nat :=
  length (List.filter (fun mw => existsb (wordMatches mw) keywordWords)
            messageWords).

(** [matchCount / totalWords], as an exact rational. *)
Definition wordScore (messageWords keywordWords : list jsstring) : Q :=
  (Z.of_nat (matchCount messageWords keywordWords)
     # Pos.of_nat (Nat.max (length messageWords) (length keywordWords)))%Q.

(** [bestMatch] and [bestScore]. *)
Definition Best : Type := option Match * Q.

Definition secondPassStep (threshold : Q) (messageWords : list jsstring)
  (best : Best) (item : KeywordItem) : Best :=
  if falsy (keyword item) then best
  else
    let keywordWords := splitWhitespace (normalize (keyword item)) in
    let sc := wordScore messageWords keywordWords in
    if Qle_bool threshold sc && Qlt_bool (snd best) sc
    then (Some (hit item sc word_match), sc)
    else best.

(** Third pass: fuzzy word similarity, fixed score 0.4. *)
Definition fuzzyStep (item : KeywordItem) (messageWord : jsstring)
  (best : Best) (keywordWord : jsstring) : Best :=
  if Qle_bool (6 # 10) (calculateSimilarity messageWord keywordWord)
  then if Qlt_bool (snd best) (4 # 10)
       then (Some (hit item (4 # 10)%Q fuzzy), (4 # 10)%Q)
       else best
  else best.

Definition thirdPassStep (messageWords : list jsstring)
  (best : Best) (item : KeywordItem) : Best :=
  if falsy (keyword item) then best
  else
    let keywordWords := splitWhitespace (normalize (keyword item)) in
    fold_left (fun b mw => fold_left (fuzzyStep item mw) keywordWords b)
      messageWords best.

(** Fourth pass: the first row whose normalized keyword satisfies [p]. *)
Fixpoint firstWith (p : jsstring -> bool) (sc : Q) (ty : MatchType)
  (items : list KeywordItem) : option Match :=
  match items with
  | [] => None
  | item :: rest =>
      if falsy (keyword item) then firstWith p sc ty rest
      else if p (normalize (keyword item)) then Some (hit item sc ty)
           else firstWith p sc ty rest
  end.

Definition orElse {A} (a : option A) (b : option A) : option A :=
  match a with Some _ => a | None => b end.

Definition fourthPass (message : jsstring) (items : list KeywordItem)
  : option Match :=
  orElse
    (if hasTerm emailTerms message
     then firstWith (fun kw => includes kw th_email || includes kw (lit "email"))
            (4 # 10)%Q email_specific items
     else None)
  (orElse
    (if hasTerm phoneTerms message
     then firstWith (fun kw => includes kw th_number || includes kw th_call)
            (4 # 10)%Q phone_specific items
     else None)
    (if hasTerm contactTerms message
     then firstWith (hasTerm contactTerms) (3 # 10)%Q contact_term items
     else None)).

Definition findMatchingKeyword (keywordsData : list KeywordItem)
  (userMessage : jsstring) (threshold : Q) : option Match :=
  if length keywordsData =? 0 then None
  else
    let message := normalize userMessage in
    match firstPass message keywordsData with
    | Some m => Some m
    | None =>
        let messageWords := splitWhitespace message in
        let best2 :=
          fold_left (secondPassStep threshold messageWords) keywordsData
            (None, 0%Q) in
        let best3 :=
          match fst best2 with
          | None => fold_left (thirdPassStep messageWords) keywordsData best2
          | Some _ => best2
          end in
        match fst best3 with
        | None => orElse (fourthPass message keywordsData) (fst best3)
        | Some m => Some m
        end
    end.

End Matching.

(** The default threshold of [findMatchingKeyword]. *)
Definition defaultThreshold : Q := (6 # 10)%Q.

Definition row (k a : string) : KeywordItem :=
  {| id := 0; keyword := lit k; answer := lit a;
     originalKeyword := lit k; sheet := lit "Sheet1" |}.

Example lev_kitten :
  levenshteinDistance (lit "sitting") (lit "kitten") = 3.
Proof. reflexivity. Qed.

Example split_words :
  splitWhitespace (lit "how  much") = [lit "how"; lit "much"]
  /\ splitWhitespace [] = [[]].
Proof. split; reflexivity. Qed.

Example find_exact :
  findMatchingKeyword asciiLower [row "price" "1000"] (lit " Price ")
    defaultThreshold
  = Some (hit (row "price" "1000") 1%Q exact).
Proof. reflexivity. Qed.

Example find_fuzzy :
  findMatchingKeyword asciiLower [row "insurance" "yes"] (lit "insurence")
    defaultThreshold
  = Some (hit (row "insurance" "yes") (4 # 10)%Q fuzzy).
Proof. vm_compute. reflexivity. Qed.

Example find_word :
  findMatchingKeyword asciiLower [row "opening hours today" "9-5"]
    (lit "hours today please") defaultThreshold
  = Some (hit (row "opening hours today" "9-5") (2 # 3)%Q word_match).
Proof. vm_compute. reflexivity. Qed.

Section MatchingFacts.

Variable toLowerCase : jsstring -> jsstring.

(** A row that the first pass steps over: its keyword is empty, or it is
    in no substring relation with the message. *)
Definition skipped (message : jsstring) (item : KeywordItem) : Prop :=
  keyword item = []
  \/ (includes message (normalize toLowerCase (keyword item)) = false
      /\ includes (normalize toLowerCase (keyword item)) message = false).

Lemma firstPass_skip (message : jsstring) (pre rest : list KeywordItem) :
  Forall (skipped message) pre ->
  firstPass toLowerCase message (pre ++ rest)
  = firstPass toLowerCase message rest.
Proof.
  induction 1 as [|it pre Hit _ IH]; [reflexivity|].
  change (firstPass toLowerCase message (it :: (pre ++ rest))
          = firstPass toLowerCase message rest).
  simpl. destruct Hit as [Hk | [H1 H2]].
  - rewrite Hk. simpl. exact IH.
  - destruct (falsy (keyword it)); [exact IH|].
    destruct (eqb message (normalize toLowerCase (keyword it))) eqn:E.
    + apply eqb_eq in E. rewrite <- E, includes_refl in H1. discriminate.
    + rewrite H1, H2. simpl. exact IH.
Qed.

Lemma falsy_false (s : jsstring) : s <> [] -> falsy s = false.
Proof. destruct s; [congruence | reflexivity]. Qed.

Lemma length_app_cons_eqb {A} (pre post : list A) (x : A) :
  (length (pre ++ x :: post) =? 0) = false.
Proof. rewrite length_app. simpl. apply Nat.eqb_neq. lia. Qed.

(** The first row that the first pass does not step over, when its
    normalized keyword equals the normalized message, is returned as an
    exact match. *)
Lemma exact_match_when_first (pre post : list KeywordItem) (item : KeywordItem)
  (userMessage : jsstring) (threshold : Q) :
  keyword item <> [] ->
  normalize toLowerCase userMessage = normalize toLowerCase (keyword item) ->
  Forall (skipped (normalize toLowerCase userMessage)) pre ->
  findMatchingKeyword toLowerCase (pre ++ item :: post) userMessage threshold
  = Some (hit item 1%Q exact).
Proof.
  intros Hk Heq Hpre. unfold findMatchingKeyword.
  rewrite length_app_cons_eqb, (firstPass_skip _ _ _ Hpre). simpl.
  rewrite (falsy_false _ Hk), <- Heq, eqb_refl. reflexivity.
Qed.

(** C5, at the failing input: the sheet holds the keywords "price" and
    "price list", in this order, and the message is "Price List".  The
    message equals the second keyword after normalization, yet the loop
    returns the first row, as a partial match with score 0.9: it tests
    substring containment on a row before it has looked for an exact
    match on the rows after it. *)
Theorem C5_exact_match_preempted :
  let table := [row "price" "1000"; row "price list" "see the catalogue"] in
  normalize asciiLower (lit "Price List")
    = normalize asciiLower (keyword (row "price list" "see the catalogue"))
  /\ findMatchingKeyword asciiLower table (lit "Price List") defaultThreshold
     = Some (hit (row "price" "1000") (9 # 10)%Q partial).
Proof. split; reflexivity. Qed.

(** With an empty normalized message every row with a non-empty keyword
    is hit by the first pass. *)
Lemma firstPass_empty_message (item : KeywordItem) (rest : list KeywordItem) :
  keyword item <> [] ->
  firstPass toLowerCase [] (item :: rest)
  = Some (match normalize toLowerCase (keyword item) with
          | [] => hit item 1%Q exact
          | _ :: _ => hit item (9 # 10)%Q partial
          end).
Proof.
  intros Hk. simpl. rewrite (falsy_false _ Hk).
  destruct (normalize toLowerCase (keyword item)) as [|c kw]; [reflexivity|].
  simpl. reflexivity.
Qed.

Lemma skipped_empty_keyword (message : jsstring) (pre : list KeywordItem) :
  Forall (fun it => keyword it = []) pre -> Forall (skipped message) pre.
Proof. induction 1; constructor; [left; assumption | assumption]. Qed.

(** C9, amended.  When the normalized message is empty and the table has
    a row with a non-empty keyword, the first such row is returned: as a
    partial match with score 0.9 when its normalized keyword is not
    empty, and as an exact match with score 1.0 when the keyword is made
    of white space only. *)
Theorem C9_empty_message_first_keyword
  (pre post : list KeywordItem) (item : KeywordItem)
  (userMessage : jsstring) (threshold : Q) :
  normalize toLowerCase userMessage = [] ->
  Forall (fun it => keyword it = []) pre ->
  keyword item <> [] ->
  (normalize toLowerCase (keyword item) <> [] ->
   findMatchingKeyword toLowerCase (pre ++ item :: post) userMessage threshold
   = Some (hit item (9 # 10)%Q partial))
  /\ (normalize toLowerCase (keyword item) = [] ->
      findMatchingKeyword toLowerCase (pre ++ item :: post) userMessage threshold
      = Some (hit item 1%Q exact)).
Proof.
  intros Hm Hpre Hk.
  assert (E : findMatchingKeyword toLowerCase (pre ++ item :: post)
                userMessage threshold
              = Some (match normalize toLowerCase (keyword item) with
                      | [] => hit item 1%Q exact
                      | _ :: _ => hit item (9 # 10)%Q partial
                      end)).
  { unfold findMatchingKeyword.
    rewrite length_app_cons_eqb, Hm.
    rewrite (firstPass_skip _ _ _ (skipped_empty_keyword [] pre Hpre)).
    rewrite (firstPass_empty_message _ _ Hk). reflexivity. }
  rewrite E. split; intros H.
  - destruct (normalize toLowerCase (keyword item)); [congruence | reflexivity].
  - rewrite H. reflexivity.
Qed.

End MatchingFacts.

(** C9 as stated fails on two inputs with a white-space message: a
    non-empty table whose only keyword is empty gives no match at all,
    and a keyword made of one space gives an exact match, not a partial
    one. *)
Lemma C9_counterexample :
  normalize asciiLower (lit " ") = []
  /\ [row "" "hello"] <> []
  /\ findMatchingKeyword asciiLower [row "" "hello"] (lit " ") defaultThreshold
     = None
  /\ findMatchingKeyword asciiLower [row " " "hello"] (lit " ") defaultThreshold
     = Some (hit (row " " "hello") 1%Q exact).
Proof. repeat split; try reflexivity. discriminate. Qed.

Lemma C9_witness :
  findMatchingKeyword asciiLower ([row "" "n/a"] ++ row "price" "1000" :: [])
    (lit "  ") defaultThreshold
  = Some (hit (row "price" "1000") (9 # 10)%Q partial).
Proof.
  refine (proj1 (C9_empty_message_first_keyword asciiLower
                   [row "" "n/a"] [] (row "price" "1000") (lit "  ")
                   defaultThreshold _ _ _) _).
  - reflexivity.
  - repeat constructor.
  - discriminate.
  - discriminate.
Defined.

End KeywordTable.

(** ** RequestSequencer: ChatbotService.addToQueue / processMessageQueue

    The code runs on one JavaScript thread: between two [await]s a
    function runs to the end without interruption.  The state below is
    the state of the service at such points.  A drain loop that is
    suspended at [await this.processMessageDirect(...)] is recorded in
    [awaiting] with the request it is processing, so the length of
    [awaiting] is the number of [processMessageDirect] calls in flight.
    Nothing in the state type bounds that number. *)

Module Sequencer.
Import JS.

Definition maxQueueSize : nat := 100.

(** The fixed reply of a full queue. *)
Definition queueFullApology : jsstring :=
  [3586; 3629; 3629; 3616; 3633; 3618; 3588; 3656; 3632; 32; 3619; 3632;
   3610; 3610; 3618; 3640; 3656; 3591; 3629; 3618; 3641; 3656; 32; 3585;
   3619; 3640; 3603; 3634; 3621; 3629; 3591; 3651; 3627; 3617; 3656; 3629;
   3637; 3585; 3588; 3619; 3633; 3657; 3591; 3651; 3609; 3629; 3637; 3585;
   3626; 3633; 3585; 3588; 3619; 3641; 3656]%N.

(** An element of [messageQueue]; [promise] stands for the
    [resolve]/[reject] pair of the promise [addToQueue] returned. *)
Record QueuedRequest := {
  userId : jsstring;
  message : jsstring;
  timestamp : Z;
  promise : nat
}.

Inductive Outcome :=
| Resolved (response : jsstring)
| Rejected (error : jsstring).

(** What the service does, in the order it does it. *)
Inductive Event :=
| Pushed (r : QueuedRequest)
| Invoked (r : QueuedRequest)
| Settled (p : nat) (o : Outcome).

Record State := {
  messageQueue : list QueuedRequest;
  isProcessing : bool;
  awaiting : list QueuedRequest;
  events : list Event
}.

(** The state the constructor leaves. *)
Definition init : State :=
  {| messageQueue := []; isProcessing := false; awaiting := []; events := [] |}.

Definition emit (e : Event) (st : State) : State :=
  {| messageQueue := messageQueue st; isProcessing := isProcessing st;
     awaiting := awaiting st; events := events st ++ [e] |}.

Definition setProcessing (b : bool) (st : State) : State :=
  {| messageQueue := messageQueue st; isProcessing := b;
     awaiting := awaiting st; events := events st |}.

(** The [while] loop of [processMessageQueue] from its test up to the
    next [await]: with an empty queue the loop ends and the flag is
    cleared, otherwise the head is shifted off and
    [processMessageDirect] is called on it. *)
Definition drainLoop (st : State) : State :=
  match messageQueue st with
  | [] => setProcessing false st
  | r :: q =>
      {| messageQueue := q; isProcessing := isProcessing st;
         awaiting := awaiting st ++ [r];
         events := events st ++ [Invoked r] |}
  end.

Definition processMessageQueue (st : State) : State :=
  if isProcessing st then st
  else drainLoop (setProcessing true st).

Definition push (r : QueuedRequest) (st : State) : State :=
  {| messageQueue := messageQueue st ++ [r]; isProcessing := isProcessing st;
     awaiting := awaiting st; events := events st ++ [Pushed r] |}.

Definition addToQueue (uid msg : jsstring) (now : Z) (p : nat) (st : State)
  : State :=
  if maxQueueSize <=? length (messageQueue st)
  then emit (Settled p (Resolved queueFullApology)) st
  else
    let st1 :=
      push {| userId := uid; message := msg; timestamp := now; promise := p |}
        st in
    if negb (isProcessing st1) then processMessageQueue st1 else st1.

Fixpoint removeAt {A} (i : nat) (l : list A) : list A :=
  match l, i with
  | [], _ => []
  | _ :: l', 0 => l'
  | x :: l', S i' => x :: removeAt i' l'
  end.

(** The [i]-th pending [processMessageDirect] call ends with [o]: its
    drain loop calls [resolve] or [reject] and goes round the loop. *)
Definition resume (i : nat) (o : Outcome) (st : State) : State :=
  match nth_error (awaiting st) i with
  | None => st
  | Some r =>
      drainLoop
        {| messageQueue := messageQueue st; isProcessing := isProcessing st;
           awaiting := removeAt i (awaiting st);
           events := events st ++ [Settled (promise r) o] |}
  end.

(** What can happen between two states. *)
Inductive Action :=
| Enqueue (uid msg : jsstring) (now : Z) (p : nat)
| Drain
| Complete (i : nat) (o : Outcome).

Definition step (st : State) (a : Action) : State :=
  match a with
  | Enqueue uid msg now p => addToQueue uid msg now p st
  | Drain => processMessageQueue st
  | Complete i o => resume i o st
  end.

Definition run (actions : list Action) (st : State) : State :=
  fold_left step actions st.

Fixpoint pushed (es : list Event) : list QueuedRequest :=
  match es with
  | [] => []
  | Pushed r :: es' => r :: pushed es'
  | _ :: es' => pushed es'
  end.

Fixpoint invoked (es : list Event) : list QueuedRequest :=
  match es with
  | [] => []
  | Invoked r :: es' => r :: invoked es'
  | _ :: es' => invoked es'
  end.

(** Let the pending call end [n] times, the [k]-th time with
    [outcome k]. *)
Fixpoint settle (outcome : nat -> Outcome) (n : nat) (st : State) : State :=
  match n with
  | 0 => st
  | S n' => settle outcome n' (resume 0 (outcome n') st)
  end.

Definition req (u m : string) (p : nat) : QueuedRequest :=
  {| userId := lit u; message := lit m; timestamp := 0; promise := p |}.

Example three_requests :
  let st := run [Enqueue (lit "A") (lit "a") 0 1;
                 Enqueue (lit "B") (lit "b") 0 2;
                 Enqueue (lit "C") (lit "c") 0 3;
                 Complete 0 (Rejected (lit "boom"))] init in
  awaiting st = [req "B" "b" 2] /\ messageQueue st = [req "C" "c" 3]
  /\ invoked (events st) = [req "A" "a" 1; req "B" "b" 2].
Proof. repeat split. Qed.

(** *** Invariants *)

(** Either one drain loop is running and exactly one call is in flight,
    or none is running, nothing is in flight and nothing is queued. *)
Definition inv (st : State) : Prop :=
  (isProcessing st = true /\ length (awaiting st) = 1
   \/ isProcessing st = false /\ awaiting st = [] /\ messageQueue st = [])
  /\ length (messageQueue st) <= maxQueueSize
  /\ invoked (events st) ++ messageQueue st = pushed (events st).

Lemma invoked_app (a b : list Event) : invoked (a ++ b) = invoked a ++ invoked b.
Proof.
  induction a as [|[]]; simpl; rewrite ?IHa; reflexivity.
Qed.

Lemma pushed_app (a b : list Event) : pushed (a ++ b) = pushed a ++ pushed b.
Proof.
  induction a as [|[]]; simpl; rewrite ?IHa; reflexivity.
Qed.

Lemma inv_init : inv init.
Proof. unfold inv, init, maxQueueSize. simpl. split; [right; auto | split; [lia | reflexivity]]. Qed.

Lemma inv_processMessageQueue (st : State) : inv st -> inv (processMessageQueue st).
Proof.
  intros H. unfold processMessageQueue.
  destruct (isProcessing st) eqn:E; [exact H|].
  destruct H as (Hm & Hq & Hf).
  destruct Hm as [[Hp _] | (_ & Ha & Hmq)]; [congruence|].
  unfold drainLoop, setProcessing. simpl. rewrite Hmq. simpl.
  unfold inv. simpl. rewrite Ha, Hmq in *. simpl in *.
  split; [right; auto | split; [lia | assumption]].
Qed.

Lemma inv_addToQueue (uid msg : jsstring) (now : Z) (p : nat) (st : State) :
  inv st -> inv (addToQueue uid msg now p st).
Proof.
  intros H. pose proof H as (Hm & Hq & Hf). unfold addToQueue.
  destruct (maxQueueSize <=? length (messageQueue st)) eqn:Efull.
  - unfold inv, emit. simpl. rewrite invoked_app, pushed_app. simpl.
    rewrite !app_nil_r. exact H.
  - apply Nat.leb_gt in Efull. simpl.
    destruct Hm as [[Hp Ha] | (Hp & Ha & Hmq)].
    + rewrite Hp. simpl. unfold inv, push. simpl.
      rewrite invoked_app, pushed_app, length_app. simpl.
      rewrite app_nil_r, app_assoc, Hf.
      split; [left; auto | split; [lia | reflexivity]].
    + rewrite Hp. simpl. unfold processMessageQueue, push. simpl.
      rewrite Hp. unfold drainLoop, setProcessing. simpl.
      rewrite Hmq, Ha in *. simpl in *. unfold inv. simpl.
      rewrite !invoked_app, !pushed_app. simpl.
      rewrite !app_nil_r in *. rewrite <- Hf.
      split; [left; auto | split; [lia | reflexivity]].
Qed.

Lemma inv_resume (i : nat) (o : Outcome) (st : State) :
  inv st -> inv (resume i o st).
Proof.
  intros H. pose proof H as (Hm & Hq & Hf). unfold resume.
  destruct (nth_error (awaiting st) i) as [r|] eqn:En; [|exact H].
  clear H.
  destruct Hm as [[Hp Ha] | (Hp & Ha & Hmq)];
    [|rewrite Ha in En; destruct i; discriminate].
  destruct (awaiting st) as [|r0 [|r1 aw]] eqn:Eaw; try discriminate.
  destruct i as [|i]; [|destruct i; discriminate].
  unfold drainLoop. simpl.
  destruct (messageQueue st) as [|r' q] eqn:Eq; unfold inv; simpl.
  - rewrite invoked_app, pushed_app. simpl. rewrite !app_nil_r in *.
    split; [right; auto | split; [lia | assumption]].
  - rewrite !invoked_app, !pushed_app. simpl. rewrite !app_nil_r.
    rewrite <- app_assoc. simpl in *.
    split; [left; auto | split; [lia | assumption]].
Qed.

Lemma inv_step (st : State) (a : Action) : inv st -> inv (step st a).
Proof.
  destruct a; simpl;
    [apply inv_addToQueue | apply inv_processMessageQueue | apply inv_resume].
Qed.

Lemma inv_run (actions : list Action) (st : State) :
  inv st -> inv (run actions st).
Proof.
  revert st. induction actions as [|a actions IH]; intros st H; simpl;
    [assumption | apply IH, inv_step, H].
Qed.

Lemma inv_reachable (actions : list Action) : inv (run actions init).
Proof. apply inv_run, inv_init. Qed.

(** C1.  Whatever requests are enqueued and in whatever order the
    pending calls end, at most one [processMessageDirect] call is in
    flight; and while one is in flight, calling [processMessageQueue]
    again changes nothing, so that no second drain loop starts. *)
Theorem C1_single_call_in_flight (actions : list Action) :
  length (awaiting (run actions init)) <= 1
  /\ (awaiting (run actions init) <> [] ->
      processMessageQueue (run actions init) = run actions init).
Proof.
  destruct (inv_reachable actions) as ([[Hp Ha] | (Hp & Ha & _)] & _ & _).
  - split; [lia|]. intros _. unfold processMessageQueue. rewrite Hp. reflexivity.
  - rewrite Ha. split; [simpl; lia | congruence].
Qed.

Lemma C1_witness :
  let actions := [Enqueue (lit "A") (lit "hello") 0 1;
                  Enqueue (lit "B") (lit "hi") 5 2] in
  processMessageQueue (run actions init) = run actions init.
Proof.
  intros actions. apply (C1_single_call_in_flight actions).
  vm_compute. discriminate.
Defined.

(** C2.  The queue never holds more than [maxQueueSize] = 100 requests;
    and when [addToQueue] finds it full, it leaves the queue (and the
    rest of the state) as it is and resolves the caller's promise with
    the fixed apology. *)
Theorem C2_queue_bounded (actions : list Action) :
  maxQueueSize = 100
  /\ length (messageQueue (run actions init)) <= maxQueueSize
  /\ (forall (st : State) (uid msg : jsstring) (now : Z) (p : nat),
       maxQueueSize <= length (messageQueue st) ->
       let st' := addToQueue uid msg now p st in
       messageQueue st' = messageQueue st
       /\ isProcessing st' = isProcessing st
       /\ awaiting st' = awaiting st
       /\ events st' = events st ++ [Settled p (Resolved queueFullApology)]).
Proof.
  split; [reflexivity|]. split; [apply (inv_reachable actions)|].
  intros st uid msg now p Hfull. unfold addToQueue.
  apply Nat.leb_le in Hfull. rewrite Hfull. repeat split.
Qed.

(** A burst of 101 requests: the first one is being processed, the
    other hundred fill the queue. *)
Definition burst : list Action :=
  List.map (fun k => Enqueue (lit "U") (lit "m") 0 k) (seq 0 101).

Lemma C2_witness :
  let st := run burst init in
  let st' := addToQueue (lit "V") (lit "one more") 7 101 st in
  messageQueue st' = messageQueue st
  /\ isProcessing st' = isProcessing st
  /\ awaiting st' = awaiting st
  /\ events st' = events st ++ [Settled 101 (Resolved queueFullApology)].
Proof.
  intros st.
  apply (proj2 (proj2 (C2_queue_bounded [])) st (lit "V") (lit "one more") 7%Z 101).
  apply Nat.leb_le. vm_compute. reflexivity.
Defined.

Lemma resume_pushed (o : Outcome) (st : State) :
  pushed (events (resume 0 o st)) = pushed (events st).
Proof.
  unfold resume. destruct (nth_error (awaiting st) 0); [|reflexivity].
  unfold drainLoop. simpl. destruct (messageQueue st); simpl;
    rewrite !pushed_app; simpl; rewrite ?app_nil_r; reflexivity.
Qed.

Lemma resume_pending (o : Outcome) (st : State) (n : nat) :
  inv st ->
  length (awaiting st) + length (messageQueue st) = S n ->
  length (awaiting (resume 0 o st)) + length (messageQueue (resume 0 o st)) = n.
Proof.
  intros ([[Hp Ha] | (Hp & Ha & Hmq)] & _ & _) Hn.
  - unfold resume. destruct (awaiting st) as [|r [|r1 aw]] eqn:E; try discriminate.
    simpl. unfold drainLoop. simpl.
    destruct (messageQueue st); simpl in *; lia.
  - rewrite Ha, Hmq in Hn. discriminate.
Qed.

Lemma settle_drains (outcome : nat -> Outcome) (n : nat) (st : State) :
  inv st ->
  length (awaiting st) + length (messageQueue st) = n ->
  inv (settle outcome n st)
  /\ messageQueue (settle outcome n st) = []
  /\ awaiting (settle outcome n st) = []
  /\ pushed (events (settle outcome n st)) = pushed (events st).
Proof.
  revert st. induction n as [|n IH]; intros st Hinv Hn; simpl.
  - split; [assumption|].
    destruct (awaiting st), (messageQueue st); try discriminate. auto.
  - destruct (IH (resume 0 (outcome n) st)) as (H1 & H2 & H3 & H4).
    + apply inv_resume, Hinv.
    + apply resume_pending; assumption.
    + rewrite resume_pushed in H4. auto.
Qed.

(** C3.  The calls of [processMessageDirect] are made in the order in
    which the requests were pushed: at any time the requests invoked so
    far, followed by those still queued, are the requests pushed so far.
    And however the pending calls end, by [resolve] or by [reject], the
    loop goes on: once as many calls have ended as there are requests in
    flight or queued, every pushed request has been invoked, in the order
    of the pushes, and the queue is empty. *)
Theorem C3_fifo_service (actions : list Action) (outcome : nat -> Outcome) :
  let st := run actions init in
  let st' := settle outcome (length (awaiting st) + length (messageQueue st)) st in
  invoked (events st) ++ messageQueue st = pushed (events st)
  /\ invoked (events st') = pushed (events st)
  /\ messageQueue st' = []
  /\ awaiting st' = [].
Proof.
  intros st st'. pose proof (inv_reachable actions) as Hinv. fold st in Hinv.
  destruct (settle_drains outcome _ st Hinv eq_refl) as (Hi & Hq & Ha & Hp).
  fold st' in Hi, Hq, Ha, Hp.
  split; [apply Hinv|]. repeat split; try assumption.
  destruct Hi as (_ & _ & Hf). rewrite Hq, app_nil_r in Hf. congruence.
Qed.

Example rejections_do_not_stop_the_loop :
  let st := run [Enqueue (lit "A") (lit "a") 0 1;
                 Enqueue (lit "B") (lit "b") 0 2;
                 Enqueue (lit "C") (lit "c") 0 3] init in
  events (settle (fun _ => Rejected (lit "boom")) 3 st)
  = [Pushed (req "A" "a" 1); Invoked (req "A" "a" 1);
     Pushed (req "B" "b" 2); Pushed (req "C" "c" 3);
     Settled 1 (Rejected (lit "boom")); Invoked (req "B" "b" 2);
     Settled 2 (Rejected (lit "boom")); Invoked (req "C" "c" 3);
     Settled 3 (Rejected (lit "boom"))].
Proof. reflexivity. Qed.

End Sequencer.

(** ** ResponseOrchestrator: ChatbotService.processMessageDirect

    The source-attempt steps (steps 2 to 4 of the method).  What the
    method awaits is given by its outcome: the primary source chosen by
    the analysis, the answer of [findBestAnswerWithAI] for each source,
    and the reply of the steps after the source attempts. *)

Module Orchestrator.
Import JS.

Inductive DataSource := docs | sheets.

(** A value as [JSON.parse] builds it. *)
#[warnings="-register-all"]
Inductive Json :=
| JNull
| JBool (b : bool)
| JNumber (n : Q)
| JString (s : jsstring)
| JArray (items : list Json)
| JObject (fields : list (jsstring * Json)).

(** The object [findBestAnswerWithAI] returns: the parsed reply of the
    model as it is, tested only for a truthy [keyword] and a truthy
    [answer], or a match of the keyword-matching fallback.  [keyword]
    and [answer] are therefore any JSON value.  [confidence] is the
    number that the comparison [aiMatch.confidence > t] sees; it is
    [None] when the object has no such field, as for the objects of the
    fallback, or when the field does not convert to a number. *)
Record AiMatch := {
  keyword : Json;
  answer : Json;
  confidence : option Q
}.

(** The source label passed to [showMessageProcessing], or the branch
    that returned without one. *)
Inductive Path :=
| NotInitialized
| DocsAI
| SheetsAI
| GeminiWithDocs
| Failed.

Record Reply := {
  text : Json;
  path : Path;
  searched : list DataSource
}.

Definition notReadyMessage : jsstring :=
  [3586; 3629; 3629; 3616; 3633; 3618; 3588; 3656; 3632; 32; 3619; 3632;
   3610; 3610; 3585; 3635; 3621; 3633; 3591; 3648; 3619; 3636; 3656; 3617;
   3605; 3657; 3609; 32; 3585; 3619; 3640; 3603; 3634; 3621; 3629; 3591;
   3651; 3627; 3617; 3656; 3629; 3637; 3585; 3588; 3619; 3633; 3657; 3591]%N.

Definition errorMessage : jsstring :=
  [3586; 3629; 3629; 3616; 3633; 3618; 3588; 3656; 3632; 32; 3648; 3585;
   3636; 3604; 3586; 3657; 3629; 3612; 3636; 3604; 3614; 3621; 3634; 3604;
   32; 3585; 3619; 3640; 3603; 3634; 3621; 3629; 3591; 3651; 3627; 3617;
   3656; 3629; 3637; 3585; 3588; 3619; 3633; 3657; 3591]%N.

(** [env || fallback] for the environment variable DEFAULT_RESPONSE. *)
Definition envOr (env : option jsstring) (fallback : jsstring) : jsstring :=
  match env with
  | Some s => if falsy s then fallback else s
  | None => fallback
  end.

(** [aiMatch && aiMatch.confidence > t]. *)
Definition confident (aiMatch : option AiMatch) (t : Q) : bool :=
  match aiMatch with
  | Some m =>
      match confidence m with
      | Some c => Qlt_bool t c
      | None => false
      end
  | None => false
  end.

(** [s.replace(/\s*\[tag\]\s*$/i, '')]: a trailing tag goes, with the
    white space around it.  [tag] is given in lower case with its
    brackets; the [i] flag only folds Basic Latin letters here. *)
Definition endsWithTag (s tag : jsstring) : bool :=
  (length tag <=? length s)
  && eqb (asciiLower (skipn (length s - length tag) s)) tag.

Definition stripTrailingTag (tag s : jsstring) : jsstring :=
  let body := trimEnd s in
  if endsWithTag body tag
  then trimEnd (firstn (length body - length tag) body)
  else s.

Definition cleanSheetsAnswer (a : jsstring) : jsstring :=
  stripTrailingTag (lit "[ai]") (stripTrailingTag (lit "[keyword]") (trim a)).

Section Pipeline.

(** [formatDocsAnswer] on a string. *)
Variable formatDocsAnswer : jsstring -> jsstring.
Variable DEFAULT_RESPONSE : option jsstring.
(** [terminalDisplay.isProduction]: NODE_ENV is [production]. *)
Variable isProduction : bool.
Variable isInitialized : bool.
Variable primarySource : DataSource.
Variable findBestAnswerWithAI : DataSource -> option AiMatch.
(** The reply of the steps after the source attempts, [None] when they
    throw. *)
Variable laterSteps : option jsstring.

Definition isDocs (s : DataSource) : bool :=
  match s with docs => true | sheets => false end.

(** [aiMatch.answer], read after the test [aiMatch && ...] has passed. *)
Definition answerOf (aiMatch : option AiMatch) : Json :=
  match aiMatch with Some m => answer m | None => JNull end.

(** [formatDocsAnswer(answer)]: its first line hands back, as it is,
    an argument that is not a string. *)
Definition formatDocsJson (answer : Json) : Json :=
  match answer with
  | JString s => JString (formatDocsAnswer s)
  | other => other
  end.

(** The [catch] of the method: whatever is thrown inside the [try]
    block ends in the error reply. *)
Definition failed (tried : list DataSource) : Reply :=
  {| text := JString (envOr DEFAULT_RESPONSE errorMessage);
     path := Failed; searched := tried |}.

(** [terminalDisplay.showMessageProcessing(.., response, ..)] returns at
    once in production; otherwise it prints [response.substring(0, 100)],
    which throws when [response] is not a string.  [true]: it returns. *)
Definition showMessageProcessing (response : Json) : bool :=
  match response with
  | JString _ => true
  | _ => isProduction
  end.

(** [showMessageProcessing(.., response, label); return response]. *)
Definition respond (response : Json) (label : Path)
  (tried : list DataSource) : Reply :=
  if showMessageProcessing response
  then {| text := response; path := label; searched := tried |}
  else failed tried.

(** The steps after the source attempts; [tried] lists the sources
    searched so far. *)
Definition laterReply (tried : list DataSource) : Reply :=
  match laterSteps with
  | Some response =>
      {| text := JString response; path := GeminiWithDocs; searched := tried |}
  | None => failed tried
  end.

(** Step 4: Google Docs, if it was not the primary source. *)
Definition step4 (tried : list DataSource) : Reply :=
  if negb (isDocs primarySource)
  then
    let aiMatch := findBestAnswerWithAI docs in
    if confident aiMatch 60
    then respond (formatDocsJson (answerOf aiMatch)) DocsAI (tried ++ [docs])
    else laterReply (tried ++ [docs])
  else laterReply tried.

(** Step 3: Google Sheets.  [aiMatch.answer.trim()] is a call of
    [undefined] unless the answer is a string: the TypeError goes to the
    [catch] of the method. *)
Definition step3 (tried : list DataSource) : Reply :=
  let aiMatch := findBestAnswerWithAI sheets in
  if confident aiMatch 70
  then
    match answerOf aiMatch with
    | JString a =>
        respond (JString (cleanSheetsAnswer a)) SheetsAI (tried ++ [sheets])
    | _ => failed (tried ++ [sheets])
    end
  else step4 (tried ++ [sheets]).

Definition processMessageDirect : Reply :=
  if negb isInitialized
  then {| text := JString (envOr DEFAULT_RESPONSE notReadyMessage);
          path := NotInitialized; searched := [] |}
  else
    (* Step 2: Google Docs, if it is the primary source. *)
    if isDocs primarySource
    then
      let aiMatch := findBestAnswerWithAI docs in
      if confident aiMatch 60
      then respond (formatDocsJson (answerOf aiMatch)) DocsAI [docs]
      else step3 [docs]
    else step3 [].

End Pipeline.

Example strip_tags :
  cleanSheetsAnswer (lit " 1000 baht [Keyword] ") = lit "1000 baht"
  /\ cleanSheetsAnswer (lit "see [ai] above") = lit "see [ai] above".
Proof. split; reflexivity. Qed.

(** A candidate whose confidence is strictly above [t]. *)
Definition exceeds (m : AiMatch) (t : Q) : Prop :=
  exists c, confidence m = Some c /\ (t < c)%Q.

Lemma Qlt_bool_iff (a b : Q) : Qlt_bool a b = true <-> (a < b)%Q.
Proof.
  unfold Qlt_bool. rewrite negb_true_iff. split; intros H.
  - apply Qnot_le_lt. intros Hle. apply Qle_bool_iff in Hle. congruence.
  - destruct (Qle_bool b a) eqn:E; [|reflexivity].
    apply Qle_bool_iff in E. exfalso. exact (Qlt_not_le _ _ H E).
Qed.

Lemma confident_iff (m : AiMatch) (t : Q) :
  confident (Some m) t = true <-> exceeds m t.
Proof.
  unfold confident, exceeds. destruct (confidence m) as [c|].
  - rewrite Qlt_bool_iff. split; [eauto|]. intros (c' & [= <-] & H). exact H.
  - split; [discriminate|]. intros (c & [=] & _).
Qed.

#[local] Arguments confident : simpl never.

Section Acceptance.

Variable formatDocsAnswer : jsstring -> jsstring.
Variable DEFAULT_RESPONSE : option jsstring.
Variable isProduction : bool.
Variable primarySource : DataSource.
Variable findBestAnswerWithAI : DataSource -> option AiMatch.
Variable laterSteps : option jsstring.

Let reply : Reply :=
  processMessageDirect formatDocsAnswer DEFAULT_RESPONSE isProduction true
    primarySource findBestAnswerWithAI laterSteps.

Lemma laterReply_path (tried : list DataSource) :
  path (laterReply DEFAULT_RESPONSE laterSteps tried) <> DocsAI
  /\ path (laterReply DEFAULT_RESPONSE laterSteps tried) <> SheetsAI
  /\ searched (laterReply DEFAULT_RESPONSE laterSteps tried) = tried.
Proof. unfold laterReply. destruct laterSteps; simpl; repeat split; discriminate. Qed.

Lemma respond_searched (response : Json) (label : Path)
  (tried : list DataSource) :
  searched (respond DEFAULT_RESPONSE isProduction response label tried) = tried.
Proof. unfold respond. destruct (showMessageProcessing _ _); reflexivity. Qed.

Lemma respond_path (response : Json) (label other : Path)
  (tried : list DataSource) :
  other <> label -> other <> Failed ->
  path (respond DEFAULT_RESPONSE isProduction response label tried) <> other.
Proof.
  intros Hl Hf. unfold respond.
  destruct (showMessageProcessing _ _); simpl; congruence.
Qed.

Lemma step4_not_sheets (tried : list DataSource) :
  path (step4 formatDocsAnswer DEFAULT_RESPONSE isProduction primarySource
          findBestAnswerWithAI laterSteps tried) <> SheetsAI.
Proof.
  unfold step4.
  destruct (negb (isDocs primarySource));
    [destruct (confident (findBestAnswerWithAI docs) 60)|];
    try apply laterReply_path.
  apply respond_path; discriminate.
Qed.

Lemma step3_not_sheets (m : AiMatch) (tried : list DataSource) :
  findBestAnswerWithAI sheets = Some m ->
  confident (Some m) 70 = false ->
  path (step3 formatDocsAnswer DEFAULT_RESPONSE isProduction primarySource
          findBestAnswerWithAI laterSteps tried) <> SheetsAI.
Proof.
  intros Hf Hc. unfold step3. rewrite Hf, Hc. apply step4_not_sheets.
Qed.

Lemma step3_searched (tried : list DataSource) :
  firstn (S (length tried))
    (searched (step3 formatDocsAnswer DEFAULT_RESPONSE isProduction
                 primarySource findBestAnswerWithAI laterSteps tried))
  = tried ++ [sheets].
Proof.
  assert (Hall : forall more : list DataSource,
            firstn (S (length tried)) ((tried ++ [sheets]) ++ more)
            = tried ++ [sheets]).
  { intros more. rewrite firstn_app.
    replace (S (length tried) - length (tried ++ [sheets])) with 0
      by (rewrite length_app; simpl; lia).
    rewrite firstn_all2 by (rewrite length_app; simpl; lia).
    apply app_nil_r. }
  assert (Hall0 : firstn (S (length tried)) (tried ++ [sheets])
                  = tried ++ [sheets]).
  { rewrite <- (app_nil_r (tried ++ [sheets])) at 1. apply Hall. }
  unfold step3, step4.
  destruct (confident (findBestAnswerWithAI sheets) 70).
  - destruct (answerOf (findBestAnswerWithAI sheets));
      try rewrite respond_searched; simpl searched; exact Hall0.
  - destruct (negb (isDocs primarySource));
      [destruct (confident (findBestAnswerWithAI docs) 60)|].
    + rewrite respond_searched. apply Hall.
    + destruct (laterReply_path ((tried ++ [sheets]) ++ [docs]))
        as (_ & _ & ->). apply Hall.
    + destruct (laterReply_path (tried ++ [sheets])) as (_ & _ & ->).
      exact Hall0.
Qed.

Lemma docs_primary (m : AiMatch) (a : jsstring) :
  primarySource = docs -> findBestAnswerWithAI docs = Some m ->
  answer m = JString a ->
  (exceeds m 60 <->
     reply = {| text := JString (formatDocsAnswer a); path := DocsAI;
                searched := [docs] |})
  /\ (~ exceeds m 60 -> firstn 2 (searched reply) = [docs; sheets]).
Proof.
  intros Hp Hf Ha. unfold reply, processMessageDirect.
  assert (Hd : isDocs primarySource = true) by (rewrite Hp; reflexivity).
  rewrite Hd, Hf. simpl.
  rewrite <- confident_iff. rewrite Ha. simpl.
  destruct (confident (Some m) 60) eqn:Ec.
  - split; [split; reflexivity | intros Hn; exfalso; apply Hn; reflexivity].
  - split.
    + split; [discriminate|]. intros E. exfalso.
      pose proof (step3_searched [docs]) as Hs. simpl in Hs.
      rewrite E in Hs. discriminate Hs.
    + intros _. exact (step3_searched [docs]).
Qed.

Lemma sheets_step (m : AiMatch) (a : jsstring) :
  findBestAnswerWithAI sheets = Some m ->
  answer m = JString a ->
  (primarySource = docs -> confident (findBestAnswerWithAI docs) 60 = false) ->
  (exceeds m 70 <->
     path reply = SheetsAI /\ text reply = JString (cleanSheetsAnswer a))
  /\ (~ exceeds m 70 -> primarySource = sheets ->
      searched reply = [sheets; docs]).
Proof.
  intros Hf Ha Hd. rewrite <- confident_iff.
  assert (E : reply =
    step3 formatDocsAnswer DEFAULT_RESPONSE isProduction primarySource
      findBestAnswerWithAI laterSteps (if isDocs primarySource then [docs] else [])).
  { unfold reply, processMessageDirect. simpl.
    destruct primarySource; simpl; [rewrite (Hd eq_refl)|]; reflexivity. }
  rewrite E. destruct (confident (Some m) 70) eqn:Ec.
  - split; [|intros Hn; exfalso; apply Hn; reflexivity].
    split; [intros _|reflexivity]. unfold step3. rewrite Hf, Ec. simpl.
    rewrite Ha. split; reflexivity.
  - split.
    + split; [discriminate|]. intros (Hp & _). exfalso.
      exact (step3_not_sheets m _ Hf Ec Hp).
    + intros _ Hp. rewrite Hp. simpl. unfold step3, step4. rewrite Hf, Ec. simpl.
      destruct (confident (findBestAnswerWithAI docs) 60);
        [apply respond_searched|].
      apply laterReply_path.
Qed.

Lemma docs_secondary (m : AiMatch) (a : jsstring) :
  primarySource = sheets -> findBestAnswerWithAI docs = Some m ->
  answer m = JString a ->
  confident (findBestAnswerWithAI sheets) 70 = false ->
  (exceeds m 60 <->
     reply = {| text := JString (formatDocsAnswer a); path := DocsAI;
                searched := [sheets; docs] |})
  /\ (~ exceeds m 60 ->
      reply = laterReply DEFAULT_RESPONSE laterSteps [sheets; docs]).
Proof.
  intros Hp Hf Ha Hs. unfold reply, processMessageDirect, step3, step4.
  rewrite Hp. simpl. rewrite Hs, Hf. rewrite <- confident_iff. simpl.
  rewrite Ha. simpl.
  destruct (confident (Some m) 60) eqn:Ec.
  - split; [split; reflexivity | intros Hn; exfalso; apply Hn; reflexivity].
  - split; [|reflexivity]. split; [discriminate|]. intros E. exfalso.
    pose proof (laterReply_path [sheets; docs]) as (Hd & _).
    simpl in E. rewrite E in Hd. apply Hd. reflexivity.
Qed.

(** On an initialized service, a candidate whose answer is a string is
    accepted exactly when its confidence is strictly above the threshold
    of its source, 60 for Google Docs and 70 for Google Sheets; it is
    then formatted and returned, and a candidate at or below its
    threshold sends the method on to the next source.  Docs are searched
    at step 2 when they are the primary source and at step 4
    otherwise. *)
Lemma thresholds_for_text_answers :
  (forall m a, primarySource = docs -> findBestAnswerWithAI docs = Some m ->
     answer m = JString a ->
     (exceeds m 60 <->
        reply = {| text := JString (formatDocsAnswer a); path := DocsAI;
                   searched := [docs] |})
     /\ (~ exceeds m 60 -> firstn 2 (searched reply) = [docs; sheets]))
  /\ (forall m a, findBestAnswerWithAI sheets = Some m ->
       answer m = JString a ->
       (primarySource = docs -> confident (findBestAnswerWithAI docs) 60 = false) ->
       (exceeds m 70 <->
          path reply = SheetsAI /\ text reply = JString (cleanSheetsAnswer a))
       /\ (~ exceeds m 70 -> primarySource = sheets ->
           searched reply = [sheets; docs]))
  /\ (forall m a, primarySource = sheets -> findBestAnswerWithAI docs = Some m ->
       answer m = JString a ->
       confident (findBestAnswerWithAI sheets) 70 = false ->
       (exceeds m 60 <->
          reply = {| text := JString (formatDocsAnswer a); path := DocsAI;
                     searched := [sheets; docs] |})
       /\ (~ exceeds m 60 ->
           reply = laterReply DEFAULT_RESPONSE laterSteps [sheets; docs])).
Proof.
  split; [exact docs_primary | split; [exact sheets_step | exact docs_secondary]].
Qed.

End Acceptance.

Definition candidate (c : Q) : AiMatch :=
  {| keyword := JString (lit "price"); answer := JString (lit "1000 baht");
     confidence := Some c |}.

Example thresholds_are_strict :
  path (processMessageDirect (fun a => a) None false true docs
          (fun _ => Some (candidate 61)) None) = DocsAI
  /\ path (processMessageDirect (fun a => a) None false true sheets
             (fun _ => Some (candidate 70)) None) = DocsAI
  /\ path (processMessageDirect (fun a => a) None false true sheets
             (fun _ => Some (candidate (701 # 10))) None) = SheetsAI
  /\ path (processMessageDirect (fun a => a) None false true docs
             (fun _ => Some (candidate 60)) (Some (lit "later"))) = GeminiWithDocs.
Proof. repeat split. Qed.

(** A Docs candidate with confidence exactly 60 is not accepted: the
    method goes on to Google Sheets. *)
Example threshold_60_not_accepted :
  firstn 2 (searched (processMessageDirect (fun a => a) None false true docs
                        (fun _ => Some (candidate 60)) None))
  = [docs; sheets].
Proof.
  refine (proj2 (proj1 (thresholds_for_text_answers (fun a => a) None false docs
                          (fun _ => Some (candidate 60)) None)
                   (candidate 60) (lit "1000 baht") eq_refl eq_refl eq_refl) _).
  intros (c & Hc & H). injection Hc as <-. vm_compute in H. discriminate.
Qed.

(** The reply of the model [{"keyword": "price", "answer": 1500,
    "confidence": 90}], parsed: the answer is a number. *)
Definition numberAnswer : AiMatch :=
  {| keyword := JString (lit "price"); answer := JNumber 1500;
     confidence := Some 90%Q |}.

(** The same candidate with its answer as text. *)
Definition textAnswer : AiMatch :=
  {| keyword := JString (lit "price"); answer := JString (lit "1500");
     confidence := Some 90%Q |}.

(** C4.  The claim accepts every candidate whose confidence is above
    the threshold of its source.  The code does not: a Google Sheets
    candidate with confidence 90 whose answer is the number 1500 passes
    the test [confidence > 70], and then [aiMatch.answer.trim()] throws;
    the method ends in its [catch] and replies with the error text,
    whatever the environment and the later steps.  The same candidate
    with the answer ["1500"] is accepted and returned.  A Google Docs
    candidate with the number as its answer is handed back as it is by
    the guard of [formatDocsAnswer]: it is returned in production, and
    ends in the [catch] as well where [showMessageProcessing] prints
    the reply. *)
Theorem C4_number_answer_ends_in_catch
  (formatDocsAnswer : jsstring -> jsstring) (DEFAULT_RESPONSE : option jsstring)
  (isProduction : bool) (laterSteps : option jsstring) :
  exceeds numberAnswer 70
  /\ processMessageDirect formatDocsAnswer DEFAULT_RESPONSE isProduction true
       sheets (fun _ => Some numberAnswer) laterSteps
     = {| text := JString (envOr DEFAULT_RESPONSE errorMessage);
          path := Failed; searched := [sheets] |}
  /\ processMessageDirect formatDocsAnswer DEFAULT_RESPONSE isProduction true
       sheets (fun _ => Some textAnswer) laterSteps
     = {| text := JString (lit "1500"); path := SheetsAI;
          searched := [sheets] |}
  /\ processMessageDirect formatDocsAnswer DEFAULT_RESPONSE true true
       docs (fun _ => Some numberAnswer) laterSteps
     = {| text := JNumber 1500; path := DocsAI; searched := [docs] |}
  /\ processMessageDirect formatDocsAnswer DEFAULT_RESPONSE false true
       docs (fun _ => Some numberAnswer) laterSteps
     = {| text := JString (envOr DEFAULT_RESPONSE errorMessage);
          path := Failed; searched := [docs] |}.
Proof.
  split; [exists 90%Q; split; [reflexivity | reflexivity]|].
  repeat split.
Qed.

End Orchestrator.

(** ** GenerativeResponder: GeminiService.generateResponse

    The body of the [try] block (build the prompt, call the model, read
    the text) is given by its outcome on each attempt. *)

Module Gemini.
Import JS.

(** What the method does to the outside: model calls and timer waits. *)
Inductive Effect :=
| CallModel (attempt : nat)
| Wait (ms : nat).

Definition maxRetries : nat := 3.
Definition retryDelay : nat := 2000.

(** [error.message && error.message.includes('429')]. *)
Definition isQuotaError (e : JsError) : bool :=
  match message e with
  | Some m => negb (falsy m) && includes m (lit "429")
  | None => false
  end.

Definition quotaExceeded : JsError :=
  {| message := Some (lit "Gemini API quota exceeded. Please try again later.") |}.

Section Retry.

(** The outcome of the [try] block on the attempt of a given number. *)
Variable tryModel : nat -> Result jsstring.

(** The [for] loop from [attempt] on, with [remaining] iterations left.
    The result is [Returned None] if the loop runs out, which makes the
    method return [undefined]. *)
Fixpoint retryLoop (remaining attempt : nat)
  : Result (option jsstring) * list Effect :=
  match remaining with
  | 0 => (Returned None, [])
  | S remaining' =>
      match tryModel attempt with
      | Returned text => (Returned (Some (trim text)), [CallModel attempt])
      | Thrown error =>
          if isQuotaError error
          then
            if attempt <? maxRetries
            then
              let '(r, effects) := retryLoop remaining' (S attempt) in
              (r, CallModel attempt :: Wait (retryDelay * attempt) :: effects)
            else (Thrown quotaExceeded, [CallModel attempt])
          else (Thrown error, [CallModel attempt])
      end
  end.

Definition generateResponse : Result (option jsstring) * list Effect :=
  retryLoop maxRetries 1.

End Retry.

Definition isCall (e : Effect) : bool :=
  match e with CallModel _ => true | Wait _ => false end.

Definition calls (effects : list Effect) : nat :=
  length (List.filter isCall effects).

(** The effects of [k] attempts of which the first [k - 1] met a quota
    error: a wait of [retryDelay * j] after the failed attempt [j]. *)
Fixpoint attemptsFrom (j n : nat) : list Effect :=
  match n with
  | 0 => []
  | 1 => [CallModel j]
  | S n' => CallModel j :: Wait (retryDelay * j) :: attemptsFrom (S j) n'
  end.

Definition attempts (k : nat) : list Effect := attemptsFrom 1 k.

(** Attempts [1] to [k - 1] all threw a quota error. *)
Definition quotaUntil (tryModel : nat -> Result jsstring) (k : nat) : Prop :=
  forall j, 1 <= j < k ->
    exists e, tryModel j = Thrown e /\ isQuotaError e = true.

Example waits_grow_linearly :
  attempts 3 = [CallModel 1; Wait 2000; CallModel 2; Wait 4000; CallModel 3].
Proof. reflexivity. Qed.

Example recovers_on_third_attempt :
  generateResponse
    (fun k => if k <? 3 then Thrown (err "[429 Too Many Requests]")
              else Returned (lit " ok "))
  = (Returned (Some (lit "ok")), attempts 3).
Proof. reflexivity. Qed.

Lemma quotaUntil_at (tryModel : nat -> Result jsstring) (k j : nat) :
  quotaUntil tryModel k -> 1 <= j < k ->
  exists e, tryModel j = Thrown e /\ isQuotaError e = true.
Proof. intros H Hj. exact (H j Hj). Qed.

(** C6.  [generateResponse] calls the model at most three times.  It
    tries again only after a quota error (a message containing 429),
    after waiting [2000 * attempt] milliseconds.  With quota errors on
    the attempts before [k <= 3]: a success on attempt [k] is returned
    trimmed; an error of another kind on attempt [k] is thrown as it is,
    with no wait and no further call; and a quota error on attempt 3
    makes the method throw the quota-exceeded error. *)
Theorem C6_quota_retry (tryModel : nat -> Result jsstring) :
  maxRetries = 3
  /\ calls (snd (generateResponse tryModel)) <= maxRetries
  /\ (forall k, 1 <= k <= maxRetries -> quotaUntil tryModel k ->
      (forall text, tryModel k = Returned text ->
         generateResponse tryModel = (Returned (Some (trim text)), attempts k))
      /\ (forall e, tryModel k = Thrown e -> isQuotaError e = false ->
            generateResponse tryModel = (Thrown e, attempts k))
      /\ (forall e, tryModel k = Thrown e -> isQuotaError e = true ->
            k = maxRetries ->
            generateResponse tryModel
            = (Thrown quotaExceeded, attempts maxRetries))).
Proof.
  split; [reflexivity|]. split.
  - unfold generateResponse, maxRetries. simpl. unfold calls.
    destruct (tryModel 1) as [|e1]; [simpl; lia|].
    destruct (isQuotaError e1); [|simpl; lia].
    destruct (tryModel 2) as [|e2]; [simpl; lia|].
    destruct (isQuotaError e2); [|simpl; lia].
    destruct (tryModel 3) as [|e3]; [simpl; lia|].
    destruct (isQuotaError e3); simpl; lia.
  - intros k Hk Hq. unfold maxRetries in Hk.
    assert (Hcases : k = 1 \/ k = 2 \/ k = 3) by lia.
    unfold generateResponse, maxRetries.
    destruct Hcases as [-> | [-> | ->]].
    + repeat split; intros; simpl; rewrite H; try rewrite H0;
        try reflexivity; discriminate.
    + destruct (quotaUntil_at _ 2 1 Hq ltac:(lia)) as (e1 & E1 & Q1).
      repeat split; intros; simpl; rewrite E1, Q1, H; try rewrite H0;
        try reflexivity; discriminate.
    + destruct (quotaUntil_at _ 3 1 Hq ltac:(lia)) as (e1 & E1 & Q1).
      destruct (quotaUntil_at _ 3 2 Hq ltac:(lia)) as (e2 & E2 & Q2).
      repeat split; intros; simpl; rewrite E1, Q1, E2, Q2, H; try rewrite H0;
        reflexivity.
Qed.

(** A network error on the second attempt, after one quota error. *)
Lemma C6_witness :
  let tryModel := fun k =>
    if k =? 1 then Thrown (err "429 quota") else Thrown (err "fetch failed") in
  generateResponse tryModel
  = (Thrown (err "fetch failed"), [CallModel 1; Wait 2000; CallModel 2]).
Proof.
  intros tryModel.
  assert (Hk : 1 <= 2 <= maxRetries) by (unfold maxRetries; lia).
  assert (Hq : quotaUntil tryModel 2).
  { intros j Hj. assert (j = 1) as -> by lia.
    exists (err "429 quota"). split; reflexivity. }
  exact (proj1 (proj2 (proj2 (proj2 (C6_quota_retry tryModel)) 2 Hk Hq))
           (err "fetch failed") eq_refl eq_refl).
Defined.

Example three_quota_errors :
  generateResponse (fun _ => Thrown (err "Error: 429"))
  = (Thrown quotaExceeded,
     [CallModel 1; Wait 2000; CallModel 2; Wait 4000; CallModel 3]).
Proof. reflexivity. Qed.

End Gemini.

(** ** SessionRegistry: ChatbotService.userSessions

    The [Map] from user ids to sessions is a finite map; the order of
    its entries plays no role in what follows. *)

Module Sessions.
Import JS.

Record Session := {
  lastMessage : jsstring;
  messageCount : nat;
  timestamp : Z
}.

(** 30 minutes, in milliseconds. *)
Definition sessionTimeout : Z := 30 * 60 * 1000.

Definition getUserSession (now : Z) (userId : jsstring)
  (userSessions : gmap jsstring Session)
  : option Session * gmap jsstring Session :=
  match userSessions !! userId with
  | Some session =>
      if bool_decide (now - timestamp session < sessionTimeout)%Z
      then (Some session, userSessions)
      else (None, delete userId userSessions)
  | None => (None, userSessions)
  end.

Definition setUserSession (now : Z) (userId : jsstring)
  (lastMsg : jsstring) (count : nat) (userSessions : gmap jsstring Session)
  : gmap jsstring Session :=
  <[userId := {| lastMessage := lastMsg; messageCount := count;
                 timestamp := now |}]> userSessions.

(** The test of the sweep. *)
Definition sweepable (now : Z) (session : Session) : bool :=
  bool_decide (now - timestamp session > sessionTimeout)%Z.

Definition sweepEntry (now : Z) (entry : jsstring * Session)
  (userSessions : gmap jsstring Session) : gmap jsstring Session :=
  if sweepable now entry.2 then delete entry.1 userSessions else userSessions.

(** The loop over [userSessions.entries()]. *)
Definition cleanupExpiredSessions (now : Z)
  (userSessions : gmap jsstring Session) : gmap jsstring Session :=
  foldr (sweepEntry now) userSessions (map_to_list userSessions).

Lemma sweep_keeps_absent (now : Z) (l : list (jsstring * Session))
  (acc : gmap jsstring Session) (k : jsstring) :
  acc !! k = None -> foldr (sweepEntry now) acc l !! k = None.
Proof.
  intros Hk. induction l as [|[k' s'] l IH]; simpl; [assumption|].
  unfold sweepEntry. simpl. destruct (sweepable now s'); [|assumption].
  apply lookup_delete_None. right. assumption.
Qed.

Lemma sweep_keeps_fresh (now : Z) (l : list (jsstring * Session))
  (acc : gmap jsstring Session) (k : jsstring) (s : Session) :
  acc !! k = Some s ->
  (forall s', (k, s') ∈ l -> sweepable now s' = false) ->
  foldr (sweepEntry now) acc l !! k = Some s.
Proof.
  intros Hk. induction l as [|[k' s'] l IH]; intros Hl; simpl; [assumption|].
  assert (IH' : foldr (sweepEntry now) acc l !! k = Some s).
  { apply IH. intros s0 H0. apply Hl. right. assumption. }
  unfold sweepEntry. simpl. destruct (sweepable now s') eqn:E; [|assumption].
  destruct (decide (k' = k)) as [->|Hne].
  - rewrite (Hl s') in E; [discriminate | left].
  - rewrite lookup_delete_ne; assumption.
Qed.

Lemma sweep_drops_stale (now : Z) (l : list (jsstring * Session))
  (acc : gmap jsstring Session) (k : jsstring) (s : Session) :
  (k, s) ∈ l -> sweepable now s = true ->
  foldr (sweepEntry now) acc l !! k = None.
Proof.
  intros Hin Hs. induction l as [|[k' s'] l IH]; [inversion Hin|].
  simpl. unfold sweepEntry at 1. simpl.
  apply elem_of_cons in Hin as [[= <- <-] | Hin].
  - rewrite Hs. apply lookup_delete_eq.
  - specialize (IH Hin). destruct (sweepable now s'); [|assumption].
    apply lookup_delete_None. right. assumption.
Qed.

(** What the sweep does: it deletes exactly the sessions whose age is
    strictly greater than the timeout. *)
Lemma cleanup_lookup (now : Z) (userSessions : gmap jsstring Session)
  (k : jsstring) :
  cleanupExpiredSessions now userSessions !! k
  = match userSessions !! k with
    | Some s => if sweepable now s then None else Some s
    | None => None
    end.
Proof.
  unfold cleanupExpiredSessions. destruct (userSessions !! k) as [s|] eqn:E.
  - destruct (sweepable now s) eqn:Es.
    + apply (sweep_drops_stale now _ _ k s); [|assumption].
      apply elem_of_map_to_list. assumption.
    + apply sweep_keeps_fresh; [assumption|].
      intros s' Hs'. apply elem_of_map_to_list in Hs'. congruence.
  - apply sweep_keeps_absent. assumption.
Qed.

Definition visitor : Session :=
  {| lastMessage := lit "hello"; messageCount := 1; timestamp := 1000 |}.

(** C7, at the failing input: one session, last touched at time 1000,
    and a sweep at time [1000 + sessionTimeout].  The age of the session
    equals the timeout: the specification has it deleted, and [getUserSession]
    at the same instant treats it as expired; the sweep keeps it, since
    it tests [>] where the lookup tests [<]. *)
Theorem C7_sweep_keeps_session_at_timeout :
  let userSessions : gmap jsstring Session := {[ lit "U1" := visitor ]} in
  let now := (1000 + sessionTimeout)%Z in
  (now - timestamp visitor >= sessionTimeout)%Z
  /\ cleanupExpiredSessions now userSessions !! lit "U1" = Some visitor
  /\ (getUserSession now (lit "U1") userSessions).1 = None.
Proof.
  intros userSessions now. split; [vm_compute; discriminate|]. split.
  - rewrite cleanup_lookup. unfold userSessions.
    rewrite lookup_singleton_eq. reflexivity.
  - unfold getUserSession, userSessions. rewrite lookup_singleton_eq.
    reflexivity.
Qed.

End Sessions.

(** ** DocumentStore: GoogleDocsService.getDocumentContent

    [getDocumentContent] runs in two parts: from the call up to the
    [await] of the document request ([enter]), and from the end of that
    request to the return ([finish]).  Other code may run in between.
    The document request is given by its outcome. *)

Module Docs.
Import JS.

(** The part of a Google Docs document the service reads:
    [body.content] is a list of structural elements, of which some have
    a [paragraph]; a paragraph has [elements], of which some have a
    [textRun] with its [content]. *)
Definition Paragraph : Type := list (option jsstring).
Definition Document : Type := list (option Paragraph).

Definition extractTextFromParagraph (paragraph : Paragraph) : jsstring :=
  fold_left (fun text element =>
               match element with
               | Some content => text ++ content
               | None => text
               end) paragraph [].

Definition extractTextFromDocument (document : Document) : jsstring :=
  trim (fold_left (fun text element =>
                     match element with
                     | Some paragraph =>
                         text ++ extractTextFromParagraph paragraph ++ [10%N]
                     | None => text
                     end) document []).

Record State := {
  ready : bool;                     (* [this.docs && this.docsId] *)
  contentCache : option jsstring;
  cacheTimestamp : option Z;
  isLoading : bool;
  loadingPromise : option nat;
  requests : nat                    (* document requests sent so far *)
}.

(** 1 minute, in milliseconds. *)
Definition cacheExpiry : Z := 1 * 60 * 1000.

Definition notInitialized : JsError := err "Google Docs service not initialized".

(** [this.contentCache && this.cacheTimestamp &&
     (now - this.cacheTimestamp) < this.cacheExpiry]: the cached content
    when the test succeeds. *)
Definition validCache (now : Z) (st : State) : option jsstring :=
  match contentCache st, cacheTimestamp st with
  | Some content, Some t =>
      if negb (falsy content) && negb (t =? 0)%Z && (now - t <? cacheExpiry)%Z
      then Some content else None
  | _, _ => None
  end.

(** How the first part of the call ends. *)
Inductive Entry :=
| Throws (e : JsError)
| Cached (content : jsstring)
| Joins (p : nat)       (* awaits the load already in progress *)
| Loads (p : nat).      (* has sent a request of its own and awaits it *)

Definition lock (p : nat) (st : State) : State :=
  {| ready := ready st; contentCache := contentCache st;
     cacheTimestamp := cacheTimestamp st;
     isLoading := true; loadingPromise := Some p;
     requests := S (requests st) |}.

Definition enter (forceRefresh : bool) (now : Z) (st : State) : Entry * State :=
  if negb (ready st) then (Throws notInitialized, st)
  else
    match (if forceRefresh then None else validCache now st) with
    | Some content => (Cached content, st)
    | None =>
        match isLoading st, loadingPromise st with
        | true, Some p => (Joins p, st)
        | _, _ => (Loads (requests st), lock (requests st) st)
        end
    end.

(** [_loadDocumentContent] from the end of its [await] on. *)
Definition loadDocumentContent (request : Result Document) (now : Z) (st : State)
  : Result jsstring * State :=
  match request with
  | Returned document =>
      let content := extractTextFromDocument document in
      (Returned content,
       {| ready := ready st; contentCache := Some content;
          cacheTimestamp := Some now;
          isLoading := isLoading st; loadingPromise := loadingPromise st;
          requests := requests st |})
  | Thrown error => (Thrown error, st)
  end.

(** The [finally] block. *)
Definition unlock (st : State) : State :=
  {| ready := ready st; contentCache := contentCache st;
     cacheTimestamp := cacheTimestamp st;
     isLoading := false; loadingPromise := None;
     requests := requests st |}.

Definition finish (request : Result Document) (now : Z) (st : State)
  : Result jsstring * State :=
  let '(r, st') := loadDocumentContent request now st in (r, unlock st').

(** The whole call when nothing else runs in between.  [now] is the time
    of the call and [now'] the time at which the request ends;
    [pending p] is how the load [p] that the call joins ends. *)
Definition getDocumentContent (forceRefresh : bool) (now now' : Z)
  (request : Result Document) (pending : nat -> Result jsstring) (st : State)
  : Result jsstring * State :=
  match enter forceRefresh now st with
  | (Throws e, st') => (Thrown e, st')
  | (Cached content, st') => (Returned content, st')
  | (Joins p, st') => (pending p, st')
  | (Loads _, st') => finish request now' st'
  end.

(** The state the constructor and [initialize] leave. *)
Definition fresh : State :=
  {| ready := true; contentCache := None; cacheTimestamp := None;
     isLoading := false; loadingPromise := None; requests := 0 |}.

Definition page : Document :=
  [Some [Some (lit "Opening hours"); Some (lit ": 9-17")]; None;
   Some [Some (lit "Closed on Sunday ")]].

Example load_then_cached :
  let '(r1, st1) := getDocumentContent false 1000 1200 (Returned page)
                      (fun _ => Thrown notInitialized) fresh in
  let '(r2, st2) := getDocumentContent false 50000 50100 (Thrown (err "unused"))
                      (fun _ => Thrown notInitialized) st1 in
  r1 = Returned (lit "Opening hours: 9-17" ++ [10%N] ++ lit "Closed on Sunday")
  /\ r2 = r1 /\ requests st2 = 1 /\ cacheTimestamp st2 = Some 1200%Z.
Proof. repeat split. Qed.

Lemma enter_cache (forceRefresh : bool) (now : Z) (st : State) :
  contentCache (enter forceRefresh now st).2 = contentCache st
  /\ cacheTimestamp (enter forceRefresh now st).2 = cacheTimestamp st.
Proof.
  unfold enter. destruct (negb (ready st)); [split; reflexivity|].
  destruct (if forceRefresh then None else validCache now st);
    [split; reflexivity|].
  destruct (isLoading st), (loadingPromise st); split; reflexivity.
Qed.

(** C10.  When the document request of a call fails: the second part of
    the call, run in any state, throws the error of the request, leaves
    [contentCache] and [cacheTimestamp] as they are and resets
    [isLoading] and [loadingPromise]; the first part does not touch the
    cache either; so the whole call throws that error with the cache as
    it was before the call and the lock reset. *)
Theorem C10_failed_load_keeps_cache
  (forceRefresh : bool) (now now' : Z) (error : JsError)
  (pending : nat -> Result jsstring) (st : State) (p : nat) :
  (enter forceRefresh now st).1 = Loads p ->
  (forall st0 : State,
     (finish (Thrown error) now' st0).1 = Thrown error
     /\ contentCache (finish (Thrown error) now' st0).2 = contentCache st0
     /\ cacheTimestamp (finish (Thrown error) now' st0).2 = cacheTimestamp st0
     /\ isLoading (finish (Thrown error) now' st0).2 = false
     /\ loadingPromise (finish (Thrown error) now' st0).2 = None)
  /\ (let '(r, st') :=
        getDocumentContent forceRefresh now now' (Thrown error) pending st in
      r = Thrown error
      /\ contentCache st' = contentCache st
      /\ cacheTimestamp st' = cacheTimestamp st
      /\ isLoading st' = false
      /\ loadingPromise st' = None).
Proof.
  intros Hload. split; [intros st0; repeat split|].
  unfold getDocumentContent.
  destruct (enter_cache forceRefresh now st) as [Hc Ht].
  destruct (enter forceRefresh now st) as [e st1]. simpl in *.
  subst e. simpl. rewrite Hc, Ht. repeat split.
Qed.

Definition stale : State :=
  {| ready := true; contentCache := Some (lit "Opening hours: 9-17");
     cacheTimestamp := Some 1000%Z; isLoading := false;
     loadingPromise := None; requests := 1 |}.

Lemma C10_witness :
  let '(r, st') :=
    getDocumentContent false 70000 70200 (Thrown (err "socket hang up"))
      (fun _ => Thrown notInitialized) stale in
  r = Thrown (err "socket hang up")
  /\ contentCache st' = Some (lit "Opening hours: 9-17")
  /\ cacheTimestamp st' = Some 1000%Z
  /\ isLoading st' = false
  /\ loadingPromise st' = None.
Proof.
  exact (proj2 (C10_failed_load_keeps_cache false 70000 70200
                  (err "socket hang up") (fun _ => Thrown notInitialized)
                  stale 1 eq_refl)).
Defined.

End Docs.

(** ** Link formatting: ChatbotService.formatClickableLinks

    The four regular expressions of the method are sequences of
    character classes, each repeated greedily between a least and a
    greatest number of times.  They are matched as JavaScript matches
    them: the longest repetition first, shorter ones on backtracking,
    and the leftmost match wins. *)

Module Links.
Import JS.

Record Item := {
  cls : N -> bool;
  least : nat;
  most : option nat     (* [None]: no upper bound *)
}.

Definition Pattern : Type := list Item.

(** The number of leading code units of [s] in class [c], up to
    [limit]. *)
Fixpoint run (c : N -> bool) (limit : option nat) (s : jsstring) : nat :=
  match s, limit with
  | _, Some 0 => 0
  | x :: s', _ =>
      if c x then S (run c (option_map Nat.pred limit) s') else 0
  | [], _ => 0
  end.

(** The length of the match of [pat] at the start of [s], if any. *)
Fixpoint matchHere (pat : Pattern) (s : jsstring) : option nat :=
  match pat with
  | [] => Some 0
  | item :: pat' =>
      (fix try (k : nat) : option nat :=
         if k <? least item then None
         else
           match matchHere pat' (skipn k s) with
           | Some n => Some (k + n)
           | None =>
               match k with
               | 0 => None
               | S k' => try k'
               end
           end) (run (cls item) (most item) s)
  end.

(** [s.replace(/pat/g, wrap)] for a pattern that matches no empty
    string: [skip] counts the code units of [s] that belong to a match
    already replaced. *)
Fixpoint replaceFrom (pat : Pattern) (wrap : jsstring -> jsstring)
  (skip : nat) (s : jsstring) : jsstring :=
  match s with
  | [] => []
  | c :: s' =>
      match skip with
      | S k => replaceFrom pat wrap k s'
      | 0 =>
          match matchHere pat s with
          | Some (S n) => wrap (firstn (S n) s) ++ replaceFrom pat wrap n s'
          | _ => c :: replaceFrom pat wrap 0 s'
          end
      end
  end.

Definition replaceAll (pat : Pattern) (wrap : jsstring -> jsstring)
  (s : jsstring) : jsstring :=
  replaceFrom pat wrap 0 s.

(** *** Character classes and the four patterns *)

Definition between (lo hi c : N) : bool := ((lo <=? c) && (c <=? hi))%N.
Definition digit (c : N) : bool := between 48 57 c.
Definition alpha (c : N) : bool := between 65 90 c || between 97 122 c.
Definition alnum (c : N) : bool := alpha c || digit c.
Definition oneOf (s : string) (c : N) : bool := existsb (N.eqb c) (lit s).

Definition once (c : N -> bool) : Item :=
  {| cls := c; least := 1; most := Some 1 |}.
Definition times (c : N -> bool) (lo hi : nat) : Item :=
  {| cls := c; least := lo; most := Some hi |}.
Definition atLeast (c : N -> bool) (lo : nat) : Item :=
  {| cls := c; least := lo; most := None |}.
Definition literal (s : string) : Pattern :=
  List.map (fun c => once (N.eqb c)) (lit s).

(** [\d{2,3}-\d{3,4}-\d{4}] *)
Definition phonePattern : Pattern :=
  [times digit 2 3] ++ literal "-" ++ [times digit 3 4] ++ literal "-"
  ++ [times digit 4 4].

Definition domainUnit (c : N) : bool := alnum c || oneOf ".-" c.

(** [[a-zA-Z0-9._%+-]+@[a-zA-Z0-9.-]+\.[a-zA-Z]{2,}] *)
Definition emailPattern : Pattern :=
  [atLeast (fun c => alnum c || oneOf "._%+-" c) 1] ++ literal "@"
  ++ [atLeast domainUnit 1] ++ literal "." ++ [atLeast alpha 2].

(** [www\.[a-zA-Z0-9.-]+\.[a-zA-Z]{2,}] *)
Definition wwwPattern : Pattern :=
  literal "www." ++ [atLeast domainUnit 1] ++ literal "." ++ [atLeast alpha 2].

(** [www\.facebook\.com\/[a-zA-Z0-9._-]+] *)
Definition facebookPattern : Pattern :=
  literal "www.facebook.com/" ++ [atLeast (fun c => alnum c || oneOf "._-" c) 1].

(** The replacement: [`[${match}](${scheme}${match})`]. *)
Definition wrapLink (scheme : string) (m : jsstring) : jsstring :=
  lit "[" ++ m ++ lit "](" ++ lit scheme ++ m ++ lit ")".

(** One block of the method: replace, unless [guard] occurs already. *)
Definition guardedReplace (guard : jsstring) (pat : Pattern) (scheme : string)
  (formatted : jsstring) : jsstring :=
  if negb (includes formatted guard)
  then replaceAll pat (wrapLink scheme) formatted
  else formatted.

Definition formatClickableLinks (text : jsstring) : jsstring :=
  if falsy text then text
  else
    let formatted := text in
    let formatted :=
      guardedReplace (lit "](tel:") phonePattern "tel:" formatted in
    let formatted :=
      guardedReplace (lit "](mailto:") emailPattern "mailto:" formatted in
    let formatted :=
      guardedReplace (lit "](https://") wwwPattern "https://" formatted in
    let formatted :=
      guardedReplace (lit "](https://www.facebook.com") facebookPattern
        "https://" formatted in
    formatted.

Example phone_backtracks :
  matchHere phonePattern (lit "1234-5678-9012") = None
  /\ matchHere phonePattern (lit "234-5678-9012") = Some 13
  /\ matchHere phonePattern (lit "02-123-4567") = Some 11.
Proof. repeat split. Qed.

Example formats_contact_line :
  formatClickableLinks (lit "Call 02-123-4567 or mail contact@example.com, see www.example.co.th.")
  = lit "Call [02-123-4567](tel:02-123-4567) or mail [contact@example.com](mailto:contact@example.com), see [www.example.co.th](https://www.example.co.th).".
Proof. vm_compute. reflexivity. Qed.

(** The three kinds of link the specification names. *)
Inductive LinkKind := Phone | Email | Website.

Definition marker (k : LinkKind) : jsstring :=
  match k with
  | Phone => lit "](tel:"
  | Email => lit "](mailto:"
  | Website => lit "](https://"
  end.

Definition scheme (k : LinkKind) : string :=
  match k with
  | Phone => "tel:"
  | Email => "mailto:"
  | Website => "https://"
  end.

Definition pattern (k : LinkKind) : Pattern :=
  match k with
  | Phone => phonePattern
  | Email => emailPattern
  | Website => wwwPattern
  end.

(** The block of [formatClickableLinks] for one kind. *)
Definition linkStep (k : LinkKind) (formatted : jsstring) : jsstring :=
  guardedReplace (marker k) (pattern k) (scheme k) formatted.

(** [Rewritten pat wrap s out]: [out] is [s] with every match of [pat],
    found from left to right without overlap, replaced by its image
    under [wrap], once. *)
Inductive Rewritten (pat : Pattern) (wrap : jsstring -> jsstring)
  : jsstring -> jsstring -> Prop :=
| Rewritten_end : Rewritten pat wrap [] []
| Rewritten_copy c s out :
    (forall n, matchHere pat (c :: s) <> Some (S n)) ->
    Rewritten pat wrap s out ->
    Rewritten pat wrap (c :: s) (c :: out)
| Rewritten_link c s n out :
    matchHere pat (c :: s) = Some (S n) ->
    Rewritten pat wrap (skipn n s) out ->
    Rewritten pat wrap (c :: s) (wrap (firstn (S n) (c :: s)) ++ out).

Lemma replaceFrom_rewritten (pat : Pattern) (wrap : jsstring -> jsstring)
  (s : jsstring) :
  forall skip, Rewritten pat wrap (skipn skip s) (replaceFrom pat wrap skip s).
Proof.
  induction s as [|c s IH]; intros skip.
  - rewrite skipn_nil. constructor.
  - destruct skip as [|k]; [|exact (IH k)].
    change (skipn 0 (c :: s)) with (c :: s).
    cbn [replaceFrom].
    destruct (matchHere pat (c :: s)) as [[|n]|] eqn:E.
    + apply Rewritten_copy; [congruence | exact (IH 0)].
    + apply Rewritten_link; [assumption | exact (IH n)].
    + apply Rewritten_copy; [congruence | exact (IH 0)].
Qed.

Lemma includes_cons (c : N) (s p : jsstring) :
  includes s p = true -> includes (c :: s) p = true.
Proof. intros H. simpl. rewrite H. apply orb_true_r. Qed.

Lemma includes_app_r (pre s p : jsstring) :
  includes s p = true -> includes (pre ++ s) p = true.
Proof.
  intros H. induction pre as [|c pre IH]; [assumption|].
  apply (includes_cons c (pre ++ s) p IH).
Qed.

Lemma marker_scheme (k : LinkKind) : marker k = lit "](" ++ lit (scheme k).
Proof. destruct k; reflexivity. Qed.

Lemma wrapLink_marked (k : LinkKind) (m rest : jsstring) :
  includes (wrapLink (scheme k) m ++ rest) (marker k) = true.
Proof.
  rewrite marker_scheme. unfold wrapLink.
  replace ((lit "[" ++ m ++ lit "](" ++ lit (scheme k) ++ m ++ lit ")") ++ rest)
    with ((lit "[" ++ m) ++ (lit "](" ++ lit (scheme k)) ++ (m ++ lit ")" ++ rest))
    by (rewrite <- !app_assoc; reflexivity).
  apply includes_app.
Qed.

(** A rewriting either finds nothing to replace or leaves the marker of
    its kind in the text. *)
Lemma rewritten_same_or_marked (k : LinkKind) (s out : jsstring) :
  Rewritten (pattern k) (wrapLink (scheme k)) s out ->
  out = s \/ includes out (marker k) = true.
Proof.
  induction 1 as [|c s out _ _ [-> | IH]|c s n out _ _ _].
  - left. reflexivity.
  - left. reflexivity.
  - right. apply includes_cons, IH.
  - right. apply wrapLink_marked.
Qed.

Lemma linkStep_guarded (k : LinkKind) (text : jsstring) :
  includes text (marker k) = true -> linkStep k text = text.
Proof. intros H. unfold linkStep, guardedReplace. rewrite H. reflexivity. Qed.

Lemma linkStep_rewrites (k : LinkKind) (text : jsstring) :
  includes text (marker k) = false ->
  Rewritten (pattern k) (wrapLink (scheme k)) text (linkStep k text).
Proof.
  intros H. unfold linkStep, guardedReplace. rewrite H. simpl.
  exact (replaceFrom_rewritten _ _ text 0).
Qed.

Lemma linkStep_idempotent (k : LinkKind) (text : jsstring) :
  linkStep k (linkStep k text) = linkStep k text.
Proof.
  destruct (includes text (marker k)) eqn:E.
  - rewrite (linkStep_guarded k text E). apply linkStep_guarded, E.
  - destruct (rewritten_same_or_marked k _ _ (linkStep_rewrites k text E))
      as [Heq | Hm].
    + rewrite Heq. exact Heq.
    + apply linkStep_guarded, Hm.
Qed.

(** *** What a match is made of

    The backtracking loop of [matchHere], by name: [k] units of the
    first class are tried, then [k - 1], down to [least]. *)

Section Backtracking.

Variable next : jsstring -> option nat.
Variable least : nat.
Variable s : jsstring.




End Backtracking.

















(** *** Texts that hold no match *)

(** A match of [pat] begins at the start of [s]. *)
Definition found (pat : Pattern) (s : jsstring) : bool :=
  match matchHere pat s with
  | Some (S _) => true
  | _ => false
  end.

(** No match of [pat] begins anywhere in [s]. *)
Fixpoint free (pat : Pattern) (s : jsstring) : bool :=
  match s with
  | [] => true
  | _ :: s' => negb (found pat s) && free pat s'
  end.







(** *** The scan of [replace] *)








(** *** Link syntax

    The scheme of a kind is a word, a colon and, for www addresses, two
    slashes; the marker of a kind is [](] followed by the scheme. *)













(** *** The guards *)














(** *** Occurrences kept apart *)


(** The patterns that are not the pattern of kind [k]. *)
Definition others (k : LinkKind) : list Pattern :=
  match k with
  | Phone => [emailPattern; wwwPattern; facebookPattern]
  | Email => [phonePattern; wwwPattern; facebookPattern]
  | Website => [phonePattern; emailPattern; facebookPattern]
  end.

(** The piece [w] holds occurrences of kind [k] at most: no match of
    another pattern begins in it. *)
Definition onlyKind (k : LinkKind) (w : jsstring) : bool :=
  forallb (fun pat => free pat w) (others k).




















(** *** The formatter with one block left out *)











(** Two texts that the statement leaves out, with occurrences of two
    kinds in one piece: a www address inside an email address is wrapped
    inside the email link, and an email address that begins with a phone
    number stays plain. *)
Example kinds_in_one_piece :
  formatClickableLinks (lit "mail info@www.example.com now")
  = lit "mail [info@[www.example.com](https://www.example.com)](mailto:info@[www.example.com](https://www.example.com)) now"
  /\ formatClickableLinks (lit "02-123-4567@x.com")
     = lit "[02-123-4567](tel:02-123-4567)@x.com"
  /\ onlyKind Email (lit "info@www.example.com") = false
  /\ onlyKind Email (lit "02-123-4567@x.com") = false.
Proof. repeat split. Qed.

End Links.

(** ** RequestSequencer: what becomes of the promises

    Further facts about [addToQueue] and [processMessageQueue], over the
    same transition system. *)

Module SequencerFacts.
Import JS Sequencer.

(** The promises handed out by the [addToQueue] calls of a run. *)
Fixpoint enqueuedIds (actions : list Action) : list nat :=
  match actions with
  | [] => []
  | Enqueue _ _ _ p :: rest => p :: enqueuedIds rest
  | _ :: rest => enqueuedIds rest
  end.

(** The promises settled so far, by [resolve] or by [reject]. *)
Fixpoint settledIds (es : list Event) : list nat :=
  match es with
  | [] => []
  | Settled p _ :: es' => p :: settledIds es'
  | _ :: es' => settledIds es'
  end.

(** Where the promises of a state are: settled, awaited or queued. *)
Definition whereabouts (st : State) : list nat :=
  settledIds (events st)
  ++ List.map promise (awaiting st)
  ++ List.map promise (messageQueue st).

Lemma enqueuedIds_app (a b : list Action) :
  enqueuedIds (a ++ b) = enqueuedIds a ++ enqueuedIds b.
Proof. induction a as [|[] a IH]; simpl; rewrite ?IH; reflexivity. Qed.

Lemma settledIds_app (a b : list Event) :
  settledIds (a ++ b) = settledIds a ++ settledIds b.
Proof. induction a as [|[] a IH]; simpl; rewrite ?IH; reflexivity. Qed.

Lemma removeAt_perm {A} (i : nat) (l : list A) (x : A) :
  nth_error l i = Some x -> Permutation (x :: removeAt i l) l.
Proof.
  revert i. induction l as [|y l IH]; intros [|i] H; simpl in *;
    try discriminate.
  - injection H as ->. reflexivity.
  - rewrite perm_swap. constructor. apply IH, H.
Qed.

Lemma whereabouts_setProcessing (b : bool) (st : State) :
  whereabouts (setProcessing b st) = whereabouts st.
Proof. reflexivity. Qed.

Lemma whereabouts_drainLoop (st : State) :
  Permutation (whereabouts (drainLoop st)) (whereabouts st).
Proof.
  unfold drainLoop. destruct (messageQueue st) as [|r q] eqn:E.
  - rewrite whereabouts_setProcessing. reflexivity.
  - unfold whereabouts. simpl. rewrite E, settledIds_app, map_app. simpl.
    rewrite app_nil_r. apply Permutation_app_head.
    rewrite <- app_assoc. apply Permutation_app_head. reflexivity.
Qed.

Lemma whereabouts_processMessageQueue (st : State) :
  Permutation (whereabouts (processMessageQueue st)) (whereabouts st).
Proof.
  unfold processMessageQueue. destruct (isProcessing st); [reflexivity|].
  rewrite whereabouts_drainLoop, whereabouts_setProcessing. reflexivity.
Qed.

Lemma whereabouts_step (st : State) (a : Action) :
  Permutation (whereabouts (step st a)) (whereabouts st ++ enqueuedIds [a]).
Proof.
  destruct a as [uid msg now p | | i o]; simpl.
  - unfold addToQueue.
    destruct (maxQueueSize <=? length (messageQueue st)).
    + unfold whereabouts, emit. simpl. rewrite settledIds_app. simpl.
      rewrite <- !app_assoc. apply Permutation_app_head.
      etransitivity; [apply Permutation_app_comm|].
      rewrite <- app_assoc. reflexivity.
    + set (r := {| userId := uid; message := msg; timestamp := now;
                   promise := p |}).
      assert (Hpush : whereabouts (push r st) = whereabouts st ++ [p]).
      { unfold whereabouts, push. simpl.
        rewrite settledIds_app, map_app. simpl.
        rewrite app_nil_r, <- !app_assoc. reflexivity. }
      destruct (negb (isProcessing (push r st)));
        [rewrite whereabouts_processMessageQueue|]; rewrite Hpush; reflexivity.
  - rewrite app_nil_r. apply whereabouts_processMessageQueue.
  - rewrite app_nil_r. unfold resume.
    destruct (nth_error (awaiting st) i) as [r|] eqn:E; [|reflexivity].
    rewrite whereabouts_drainLoop. unfold whereabouts. simpl.
    rewrite settledIds_app. simpl. rewrite <- app_assoc. simpl.
    apply Permutation_app_head.
    change (Permutation
              (List.map promise (r :: removeAt i (awaiting st))
               ++ List.map promise (messageQueue st))
              (List.map promise (awaiting st)
               ++ List.map promise (messageQueue st))).
    apply Permutation_app_tail, Permutation_map, removeAt_perm, E.
Qed.

Lemma whereabouts_run (actions : list Action) (st : State) :
  Permutation (whereabouts (run actions st))
    (whereabouts st ++ enqueuedIds actions).
Proof.
  revert st. induction actions as [|a actions IH]; intros st.
  - simpl. rewrite app_nil_r. reflexivity.
  - change (enqueuedIds (a :: actions)) with (enqueuedIds ([a] ++ actions)).
    change (run (a :: actions) st) with (run actions (step st a)).
    rewrite enqueuedIds_app, IH, whereabouts_step, <- app_assoc. reflexivity.
Qed.

(** X1.  Every promise handed out by [addToQueue] is, at any time, in exactly
    one place: settled, awaited by the drain loop, or queued.  No promise
    is lost, none is settled twice, and none is made up. *)
Theorem promises_conserved (actions : list Action) :
  Permutation (whereabouts (run actions init)) (enqueuedIds actions).
Proof. exact (whereabouts_run actions init). Qed.

(** X2.  When no drain loop runs, nothing is queued and nothing is awaited;
    when one runs, it awaits exactly one call.  A request never sits in
    the queue with no loop to take it. *)
Theorem no_request_stranded (actions : list Action) :
  let st := run actions init in
  isProcessing st = true /\ length (awaiting st) = 1
  \/ isProcessing st = false /\ awaiting st = [] /\ messageQueue st = [].
Proof. exact (proj1 (inv_reachable actions)). Qed.

Lemma settle_as_run (outcome : nat -> Outcome) (n : nat) (st : State) :
  exists completions,
    settle outcome n st = run completions st /\ enqueuedIds completions = [].
Proof.
  revert st. induction n as [|n IH]; intros st; simpl.
  - exists []. split; reflexivity.
  - destruct (IH (resume 0 (outcome n) st)) as (cs & E & Hn).
    exists (Complete 0 (outcome n) :: cs). split; [exact E | exact Hn].
Qed.

(** X3.  Once the pending call and the calls for the queued requests have
    ended, whatever their outcomes, the promises settled are exactly the
    promises handed out: every caller of [addToQueue] has its answer. *)
Theorem every_promise_settled (actions : list Action) (outcome : nat -> Outcome) :
  let st := run actions init in
  let st' := settle outcome (length (awaiting st) + length (messageQueue st)) st in
  Permutation (settledIds (events st')) (enqueuedIds actions).
Proof.
  intros st st'.
  destruct (settle_drains outcome _ st (inv_reachable actions) eq_refl)
    as (_ & Hq & Ha & _). fold st' in Hq, Ha.
  destruct (settle_as_run outcome
              (length (awaiting st) + length (messageQueue st)) st)
    as (cs & E & Hn). fold st' in E.
  pose proof (whereabouts_run (actions ++ cs) init) as H.
  unfold run in H, E. rewrite fold_left_app in H.
  fold (run actions init) in H. fold st in H. fold (run cs st) in H.
  unfold run in H. rewrite <- E in H.
  unfold whereabouts in H. rewrite Ha, Hq in H. simpl in H.
  rewrite app_nil_r, enqueuedIds_app, Hn, app_nil_r in H. exact H.
Qed.

End SequencerFacts.

(** ** SessionRegistry: lookups, expiry and the message counter *)

Module SessionFacts.
Import JS Sessions.

(** The session update at the head of [processMessage]: an occasional
    sweep ([sweep] is the outcome of [Math.random() < 0.1]), then
    [setUserSession] with the message and the count
    [(getUserSession(userId)?.messageCount || 0) + 1].  The clock is
    read by the sweep, by the lookup and by the update, at [now1],
    [now2] and [now3]. *)
Definition touchSession (sweep : bool) (now1 now2 now3 : Z)
  (userId userMessage : jsstring) (userSessions : gmap jsstring Session)
  : gmap jsstring Session :=
  let swept :=
    if sweep then cleanupExpiredSessions now1 userSessions else userSessions in
  let '(session, looked) := getUserSession now2 userId swept in
  let count :=
    match session with
    | Some s => messageCount s
    | None => 0
    end + 1 in
  setUserSession now3 userId userMessage count looked.

(** X4.  A session that was just set is found again as long as less than
    [sessionTimeout] has passed, and the lookup changes nothing. *)
Theorem session_found_within_timeout (now now' : Z) (userId msg : jsstring)
  (count : nat) (userSessions : gmap jsstring Session) :
  (now' - now < sessionTimeout)%Z ->
  getUserSession now' userId (setUserSession now userId msg count userSessions)
  = (Some {| lastMessage := msg; messageCount := count; timestamp := now |},
     setUserSession now userId msg count userSessions).
Proof.
  intros H. unfold getUserSession, setUserSession.
  rewrite lookup_insert_eq. simpl.
  rewrite bool_decide_eq_true_2 by assumption. reflexivity.
Qed.

Lemma session_found_witness :
  getUserSession 1500 (lit "U1") (setUserSession 1000 (lit "U1") (lit "hi") 1 ∅)
  = (Some {| lastMessage := lit "hi"; messageCount := 1; timestamp := 1000 |},
     setUserSession 1000 (lit "U1") (lit "hi") 1 ∅).
Proof.
  apply session_found_within_timeout. vm_compute. reflexivity.
Defined.

(** X5.  A lookup at or after the timeout finds nothing and removes the
    session; the sessions of the other users stay as they are. *)
Theorem expired_session_removed_on_lookup (now : Z) (userId : jsstring)
  (session : Session) (userSessions : gmap jsstring Session) :
  userSessions !! userId = Some session ->
  (now - timestamp session >= sessionTimeout)%Z ->
  (getUserSession now userId userSessions).1 = None
  /\ (getUserSession now userId userSessions).2 !! userId = None
  /\ (forall other, other <> userId ->
        (getUserSession now userId userSessions).2 !! other
        = userSessions !! other).
Proof.
  intros Hs Hage. unfold getUserSession. rewrite Hs.
  rewrite bool_decide_eq_false_2 by lia. simpl.
  split; [reflexivity|]. split; [apply lookup_delete_eq|].
  intros other Hne. apply lookup_delete_ne. congruence.
Qed.

Lemma expired_session_witness :
  (getUserSession (1000 + sessionTimeout) (lit "U1")
     {[ lit "U1" := visitor ]}).1 = None.
Proof.
  refine (proj1 (expired_session_removed_on_lookup (1000 + sessionTimeout)
                   (lit "U1") visitor {[ lit "U1" := visitor ]} _ _)).
  - apply lookup_singleton_eq.
  - vm_compute. discriminate.
Defined.

(** X6.  After a sweep, the sessions held are exactly those of before whose
    age is at most [sessionTimeout]: the sweep removes no younger
    session, changes none, and adds none.  A second sweep at the same
    time removes nothing more. *)
Theorem sweep_keeps_exactly_the_young (now : Z)
  (userSessions : gmap jsstring Session) :
  (forall userId session,
     cleanupExpiredSessions now userSessions !! userId = Some session
     <-> userSessions !! userId = Some session
         /\ (now - timestamp session <= sessionTimeout)%Z)
  /\ cleanupExpiredSessions now (cleanupExpiredSessions now userSessions)
     = cleanupExpiredSessions now userSessions.
Proof.
  assert (Hl : forall userId session,
             cleanupExpiredSessions now userSessions !! userId = Some session
             <-> userSessions !! userId = Some session
                 /\ (now - timestamp session <= sessionTimeout)%Z).
  { intros k s. rewrite cleanup_lookup. unfold sweepable.
    destruct (userSessions !! k) as [s'|]; [|split; [discriminate | intros [[=] _]]].
    case_bool_decide as Hd.
    - split; [discriminate|]. intros [[= ->] Hle]. lia.
    - split; [intros [= ->]; split; [reflexivity | lia] | intros [[= ->] _]; reflexivity]. }
  split; [exact Hl|].
  apply map_eq. intros k. rewrite (cleanup_lookup now (cleanupExpiredSessions _ _)).
  destruct (cleanupExpiredSessions now userSessions !! k) as [s|] eqn:E;
    [|reflexivity].
  apply Hl in E as [_ Hle]. unfold sweepable.
  rewrite bool_decide_eq_false_2 by lia. reflexivity.
Qed.

(** X7.  The message counter of [processMessage]: a user whose session is
    still alive at the lookup gets its count raised by one; a user with
    no session, or with an expired one, starts again at 1.  In both
    cases the new session holds the message and the time of the update. *)
Theorem message_count_restarts_after_expiry (sweep : bool) (now1 now2 now3 : Z)
  (userId userMessage : jsstring) (userSessions : gmap jsstring Session) :
  (now1 <= now2)%Z ->
  touchSession sweep now1 now2 now3 userId userMessage userSessions !! userId
  = Some {| lastMessage := userMessage;
            messageCount :=
              match userSessions !! userId with
              | Some s =>
                  if bool_decide (now2 - timestamp s < sessionTimeout)%Z
                  then S (messageCount s) else 1
              | None => 1
              end;
            timestamp := now3 |}.
Proof.
  intros Hclock. unfold touchSession.
  set (swept := if sweep then cleanupExpiredSessions now1 userSessions
                else userSessions).
  assert (Hs : swept !! userId
               = match userSessions !! userId with
                 | Some s => if sweep && sweepable now1 s then None else Some s
                 | None => None
                 end).
  { unfold swept. destruct sweep; simpl; [apply cleanup_lookup|].
    destruct (userSessions !! userId); reflexivity. }
  unfold getUserSession. rewrite Hs.
  destruct (userSessions !! userId) as [s|]; simpl.
  - destruct (sweep && sweepable now1 s) eqn:Esw.
    + apply andb_true_iff in Esw as [_ Hw]. unfold sweepable in Hw.
      apply bool_decide_eq_true_1 in Hw.
      rewrite bool_decide_eq_false_2 by lia.
      unfold setUserSession. rewrite lookup_insert_eq. reflexivity.
    + case_bool_decide; unfold setUserSession; rewrite lookup_insert_eq;
        simpl; rewrite ?Nat.add_1_r; reflexivity.
  - unfold setUserSession. rewrite lookup_insert_eq. reflexivity.
Qed.

Lemma message_count_witness :
  touchSession true 5000 5001 5002 (lit "U1") (lit "again")
    {[ lit "U1" := visitor ]} !! lit "U1"
  = Some {| lastMessage := lit "again"; messageCount := 2; timestamp := 5002 |}.
Proof.
  rewrite (message_count_restarts_after_expiry true 5000 5001 5002
             (lit "U1") (lit "again") {[ lit "U1" := visitor ]});
    [|vm_compute; discriminate].
  rewrite lookup_singleton_eq. reflexivity.
Defined.

End SessionFacts.

(** ** White space at the ends of a string *)

Module TrimFacts.
Import JS.

(** [s] neither starts nor ends with white space. *)
Definition cleanHead (s : jsstring) : Prop :=
  forall c, head s = Some c -> isWhiteSpace c = false.

Definition cleanLast (s : jsstring) : Prop :=
  forall c, last s = Some c -> isWhiteSpace c = false.

Lemma trimStart_cleanHead (s : jsstring) : cleanHead (trimStart s).
Proof.
  induction s as [|x s IH]; intros c; simpl; [discriminate|].
  destruct (isWhiteSpace x) eqn:E; [apply IH|].
  simpl. intros [= <-]. exact E.
Qed.

Lemma trimStart_fixed (s : jsstring) : cleanHead s -> trimStart s = s.
Proof.
  destruct s as [|x s]; intros H; simpl; [reflexivity|].
  rewrite (H x eq_refl). reflexivity.
Qed.

Lemma trimStart_snoc (s : jsstring) (c : N) :
  isWhiteSpace c = false -> trimStart (s ++ [c]) = trimStart s ++ [c].
Proof.
  intros Hc. induction s as [|x s IH]; simpl; [rewrite Hc; reflexivity|].
  destruct (isWhiteSpace x); [exact IH | reflexivity].
Qed.

Lemma last_rev (s : jsstring) : last (rev s) = head s.
Proof. destruct s as [|x s]; simpl; [reflexivity | apply last_snoc]. Qed.

Lemma trimEnd_cleanLast (s : jsstring) : cleanLast (trimEnd s).
Proof.
  unfold trimEnd. intros c. rewrite last_rev. apply trimStart_cleanHead.
Qed.

Lemma trimEnd_cleanHead (s : jsstring) : cleanHead s -> cleanHead (trimEnd s).
Proof.
  destruct s as [|x s]; intros H; [intros c; discriminate|].
  unfold trimEnd. simpl. rewrite trimStart_snoc by exact (H x eq_refl).
  rewrite rev_app_distr. simpl. intros c [= <-]. exact (H x eq_refl).
Qed.

Lemma trimEnd_fixed (s : jsstring) : cleanLast s -> trimEnd s = s.
Proof.
  intros H. unfold trimEnd. rewrite trimStart_fixed; [apply rev_involutive|].
  intros c Hc. apply H. rewrite <- (rev_involutive s), last_rev. exact Hc.
Qed.

Lemma trim_clean (s : jsstring) : cleanHead (trim s) /\ cleanLast (trim s).
Proof.
  unfold trim. split; [|apply trimEnd_cleanLast].
  apply trimEnd_cleanHead, trimStart_cleanHead.
Qed.

Lemma trim_fixed (s : jsstring) : cleanHead s -> cleanLast s -> trim s = s.
Proof.
  intros Hh Hl. unfold trim. rewrite (trimStart_fixed s Hh). apply trimEnd_fixed, Hl.
Qed.

(** [trim] removes all the white space there is at both ends: what it
    returns neither starts nor ends with white space, so trimming again
    changes nothing. *)
Theorem trim_idempotent (s : jsstring) :
  cleanHead (trim s) /\ cleanLast (trim s) /\ trim (trim s) = trim s.
Proof.
  destruct (trim_clean s) as [Hh Hl].
  split; [exact Hh|]. split; [exact Hl|]. apply trim_fixed; assumption.
Qed.

End TrimFacts.

(** ** DocumentStore: the cache and the loading lock *)

Module DocsFacts.
Import JS Docs TrimFacts.

(** The text of a document never starts or ends with white space. *)
Theorem extracted_text_is_trimmed (document : Document) :
  cleanHead (extractTextFromDocument document)
  /\ cleanLast (extractTextFromDocument document).
Proof. unfold extractTextFromDocument. apply trim_clean. Qed.

(** The state after a request that was sent from [st] has ended with
    [request] at time [now]. *)
Definition afterLoad (request : Result Document) (now : Z) (st : State) : State :=
  (finish request now st).2.

(** X8.  After a load that brought a non-empty text at time [t], a call
    without [forceRefresh] made less than [cacheExpiry] later returns
    that text from the cache: it sends no request and leaves the state
    as it is. *)
Theorem cache_hit_within_expiry (document : Document) (t now now' : Z)
  (request : Result Document) (pending : nat -> Result jsstring) (st : State) :
  ready st = true ->
  extractTextFromDocument document <> [] ->
  t <> 0%Z ->
  (now - t < cacheExpiry)%Z ->
  getDocumentContent false now now' request pending
    (afterLoad (Returned document) t st)
  = (Returned (extractTextFromDocument document),
     afterLoad (Returned document) t st).
Proof.
  intros Hr Hne Ht Hage. unfold getDocumentContent, enter, afterLoad. simpl.
  rewrite Hr. simpl. unfold validCache. simpl.
  destruct (extractTextFromDocument document) as [|c text]; [congruence|].
  simpl. apply Z.eqb_neq in Ht. rewrite Ht. simpl.
  apply Z.ltb_lt in Hage. rewrite Hage. reflexivity.
Qed.

Lemma cache_hit_witness :
  getDocumentContent false 50000 50100 (Thrown (err "unused"))
    (fun _ => Thrown notInitialized) (afterLoad (Returned page) 1200 fresh)
  = (Returned (extractTextFromDocument page),
     afterLoad (Returned page) 1200 fresh).
Proof.
  apply cache_hit_within_expiry.
  - reflexivity.
  - vm_compute. discriminate.
  - discriminate.
  - vm_compute. reflexivity.
Defined.

(** X9.  A document whose text is empty is never served from the cache: the
    call after such a load sends a request again, however soon it
    comes. *)
Theorem empty_document_is_fetched_again (document : Document) (t now : Z)
  (st : State) :
  ready st = true ->
  extractTextFromDocument document = [] ->
  let st1 := afterLoad (Returned document) t st in
  (enter false now st1).1 = Loads (requests st1)
  /\ requests (enter false now st1).2 = S (requests st1).
Proof.
  intros Hr He. unfold enter, afterLoad. simpl. rewrite Hr. simpl.
  unfold validCache. simpl. rewrite He. simpl. split; reflexivity.
Qed.

Lemma empty_document_witness :
  (enter false 1001 (afterLoad (Returned [None; Some [Some (lit "  ")]]) 1000
                       fresh)).1
  = Loads 0.
Proof.
  refine (proj1 (empty_document_is_fetched_again
                   [None; Some [Some (lit "  ")]] 1000 1001 fresh _ _)).
  - reflexivity.
  - reflexivity.
Defined.

Lemma enter_loads (forceRefresh : bool) (now : Z) (st : State) (p : nat) :
  (enter forceRefresh now st).1 = Loads p ->
  ready (enter forceRefresh now st).2 = true
  /\ isLoading (enter forceRefresh now st).2 = true
  /\ loadingPromise (enter forceRefresh now st).2 = Some p.
Proof.
  unfold enter. destruct (ready st) eqn:Er; simpl; [|discriminate].
  destruct (if forceRefresh then None else validCache now st);
    [discriminate|].
  destruct (isLoading st), (loadingPromise st); simpl; try discriminate;
    intros [= <-]; auto.
Qed.

Lemma enter_locked (forceRefresh : bool) (now : Z) (st : State) (p : nat) :
  ready st = true -> isLoading st = true -> loadingPromise st = Some p ->
  (enter forceRefresh now st).2 = st
  /\ ((enter forceRefresh now st).1 = Joins p
      \/ forceRefresh = false
         /\ exists content,
              validCache now st = Some content
              /\ (enter forceRefresh now st).1 = Cached content).
Proof.
  intros Hr Hl Hp. unfold enter. rewrite Hr, Hl, Hp. simpl.
  destruct forceRefresh.
  - split; [reflexivity | left; reflexivity].
  - destruct (validCache now st) as [content|].
    + split; [reflexivity|]. right. split; [reflexivity|].
      exists content. split; reflexivity.
    + split; [reflexivity | left; reflexivity].
Qed.

(** X10.  From the moment a call has sent its request until that request
    ends, no other call sends one: a second call, forced or not, leaves
    the state as it is and either waits for the same load or, when it is
    not forced and the cache is still valid, returns the cached text. *)
Theorem one_request_at_a_time (forceRefresh forceRefresh' : bool)
  (now now' : Z) (st : State) (p : nat) :
  (enter forceRefresh now st).1 = Loads p ->
  let st1 := (enter forceRefresh now st).2 in
  (enter forceRefresh' now' st1).2 = st1
  /\ ((enter forceRefresh' now' st1).1 = Joins p
      \/ forceRefresh' = false
         /\ exists content,
              validCache now' st1 = Some content
              /\ (enter forceRefresh' now' st1).1 = Cached content).
Proof.
  intros H st1. destruct (enter_loads _ _ _ _ H) as (Hr & Hl & Hp).
  apply enter_locked; assumption.
Qed.

Lemma one_request_witness :
  (enter true 2000 (enter false 1000 fresh).2).1 = Joins 0.
Proof.
  destruct (one_request_at_a_time false true 1000 2000 fresh 0 eq_refl)
    as [_ [H | [H _]]]; [exact H | discriminate H].
Defined.

End DocsFacts.

(** ** DocumentStore: GoogleDocsService.searchContent

    The text of the document is the outcome of the call to
    [getDocumentContent]; [toLowerCase] is left abstract. *)

Module DocSearch.
Import JS.

(** The Thai terms of the method: course, training, exam, certificate,
    business, information, contact, email, number, business
    information, details, service, insurance. *)
Definition th_course : jsstring :=
  [3627; 3621; 3633; 3585; 3626; 3641; 3605; 3619]%N.
Definition th_training : jsstring := [3629; 3610; 3619; 3617]%N.
Definition th_exam : jsstring := [3626; 3629; 3610]%N.
Definition th_certificate : jsstring :=
  [3623; 3640; 3602; 3636; 3610; 3633; 3605; 3619]%N.
Definition th_business : jsstring := [3608; 3640; 3619; 3585; 3636; 3592]%N.
Definition th_info : jsstring := [3586; 3657; 3629; 3617; 3641; 3621]%N.
Definition th_contact : jsstring := [3605; 3636; 3604; 3605; 3656; 3629]%N.
Definition th_email : jsstring := [3629; 3637; 3648; 3617; 3621]%N.
Definition th_number : jsstring := [3648; 3610; 3629; 3619; 3660]%N.
Definition th_businessInfo : jsstring := th_info ++ th_business.
Definition th_details : jsstring :=
  [3619; 3634; 3618; 3621; 3632; 3648; 3629; 3637; 3618; 3604]%N.
Definition th_service : jsstring := [3610; 3619; 3636; 3585; 3634; 3619]%N.
Definition th_insurance : jsstring :=
  [3611; 3619; 3632; 3585; 3633; 3609; 3616; 3633; 3618]%N.

Definition courseTerms : list jsstring :=
  [th_course; lit "course"; th_training; lit "training"; th_exam; lit "exam";
   th_certificate; lit "certificate"].

Definition businessTerms : list jsstring :=
  [th_business; lit "business"; th_info; lit "information"; th_contact;
   lit "contact"; th_email; lit "email"; th_number; lit "phone"].

Definition broadTerms : list jsstring :=
  [th_info; th_details; th_service; th_course; th_training; th_exam;
   th_certificate; th_insurance].

Definition hasTerm (terms : list jsstring) (s : jsstring) : bool :=
  existsb (fun term => includes s term) terms.

(** [s.split(sep)] for a separator of one code unit. *)
Fixpoint splitOnFrom (sep : N) (s cur : jsstring) : list jsstring :=
  match s with
  | [] => [cur]
  | c :: s' =>
      if N.eqb c sep then cur :: splitOnFrom sep s' []
      else splitOnFrom sep s' (cur ++ [c])
  end.

Definition newline : N := 10%N.

(** [l.join('\n')]. *)
Fixpoint joinLines (l : list jsstring) : jsstring :=
  match l with
  | [] => []
  | [x] => x
  | x :: rest => x ++ [newline] ++ joinLines rest
  end.

(** [fullContent.split('\n').map(line => line.trim())
      .filter(line => line.length > 0)]. *)
Definition documentLines (fullContent : jsstring) : list jsstring :=
  List.filter (fun line => 0 <? length line)
    (List.map trim (splitOnFrom newline fullContent [])).

(** Insertion of a scored line in front of the first one whose score is
    not greater: with [sortByScore] this is
    [relevantLines.sort((a, b) => b.score - a.score)], a stable sort by
    decreasing score. *)
Fixpoint insertByScore (x : jsstring * Q) (sorted : list (jsstring * Q))
  : list (jsstring * Q) :=
  match sorted with
  | [] => [x]
  | y :: rest =>
      if Qle_bool (snd y) (snd x) then x :: sorted
      else y :: insertByScore x rest
  end.

Definition sortByScore (l : list (jsstring * Q)) : list (jsstring * Q) :=
  fold_right insertByScore [] l.

Section Search.

Variable toLowerCase : jsstring -> jsstring.

(** [for (const line of lines) if (p(line.toLowerCase())) return line]. *)
Fixpoint firstLine (p : jsstring -> bool) (lines : list jsstring)
  : option jsstring :=
  match lines with
  | [] => None
  | line :: rest =>
      if p (toLowerCase line) then Some line else firstLine p rest
  end.

(** [matchCount]: the query words that occur in the line. *)
Definition wordHits (queryWords : list jsstring) (line : jsstring) : nat :=
  length (List.filter (fun word => includes (toLowerCase line) word) queryWords).

Definition scored (queryWords : list jsstring) (line : jsstring)
  : jsstring * Q :=
  (line, (Z.of_nat (wordHits queryWords line)
            # Pos.of_nat (length queryWords))%Q).

Definition relevantLines (queryWords lines : list jsstring)
  : list (jsstring * Q) :=
  List.map (scored queryWords)
    (List.filter (fun line => 0 <? wordHits queryWords line) lines).

Definition aboutBusiness (lowerQuery : jsstring) : bool :=
  includes lowerQuery th_business || includes lowerQuery (lit "business").

Definition searchLines (lines : list jsstring) (lowerQuery : jsstring)
  : jsstring :=
  (* First pass: the whole query *)
  match firstLine (fun lineLower => includes lineLower lowerQuery) lines with
  | Some line => line
  | None =>
  (* Second pass: the words of the query *)
  match sortByScore (relevantLines (splitWhitespace lowerQuery) lines) with
  | best :: _ => fst best
  | [] =>
  (* Third pass: course terms *)
  match (if hasTerm courseTerms lowerQuery
         then firstLine (hasTerm courseTerms) lines else None) with
  | Some line => line
  | None =>
  (* Fourth pass: business terms *)
  match (if hasTerm businessTerms lowerQuery
         then firstLine (hasTerm businessTerms) lines else None) with
  | Some line => line
  | None =>
  (* Fifth pass: general business information *)
  match (if aboutBusiness lowerQuery
         then firstLine (hasTerm [th_businessInfo; th_details; th_service])
                lines
         else None) with
  | Some line => line
  | None =>
  (* Sixth pass: business-related lines, more broadly *)
  match (if aboutBusiness lowerQuery || includes lowerQuery th_info
         then List.filter (fun line => hasTerm broadTerms (toLowerCase line))
                lines
         else []) with
  | (_ :: _) as businessLines => joinLines (firstn 5 businessLines)
  | [] =>
  (* Seventh pass: general context *)
  joinLines (firstn 5 lines)
  end end end end end end.

Definition searchContent (fullContent : Result jsstring) (query : jsstring)
  : jsstring :=
  match fullContent with
  | Returned content =>
      searchLines (documentLines content) (toLowerCase query)
  | Thrown _ => []
  end.

End Search.

Definition brochure : jsstring :=
  lit "Welcome to the institute" ++ [newline] ++ lit "  " ++ [newline]
  ++ lit " Courses: risk training every Monday " ++ [newline]
  ++ lit "Contact: info@example.com".

Example brochure_lines :
  documentLines brochure
  = [lit "Welcome to the institute";
     lit "Courses: risk training every Monday";
     lit "Contact: info@example.com"].
Proof. reflexivity. Qed.

Example search_whole_query :
  searchContent asciiLower (Returned brochure) (lit "RISK training")
  = lit "Courses: risk training every Monday".
Proof. vm_compute. reflexivity. Qed.

Example search_by_words :
  searchContent asciiLower (Returned brochure) (lit "contact the institute")
  = lit "Welcome to the institute".
Proof. vm_compute. reflexivity. Qed.

Example search_general_context :
  searchContent asciiLower (Returned brochure) (lit "zzz")
  = joinLines (documentLines brochure).
Proof. vm_compute. reflexivity. Qed.

Section SearchFacts.

Variable toLowerCase : jsstring -> jsstring.

Lemma firstLine_some (p : jsstring -> bool) (lines : list jsstring)
  (line : jsstring) :
  firstLine toLowerCase p lines = Some line ->
  In line lines /\ p (toLowerCase line) = true.
Proof.
  induction lines as [|l lines IH]; simpl; [discriminate|].
  destruct (p (toLowerCase l)) eqn:E.
  - intros [= <-]. auto.
  - intros H. destruct (IH H). auto.
Qed.

Lemma firstLine_first (p : jsstring -> bool) (pre post : list jsstring)
  (line : jsstring) :
  Forall (fun l => p (toLowerCase l) = false) pre ->
  p (toLowerCase line) = true ->
  firstLine toLowerCase p (pre ++ line :: post) = Some line.
Proof.
  intros Hpre Hline. induction Hpre as [|l pre Hl _ IH]; simpl.
  - rewrite Hline. reflexivity.
  - rewrite Hl. exact IH.
Qed.

Lemma insertByScore_in (x y : jsstring * Q) (sorted : list (jsstring * Q)) :
  In y (insertByScore x sorted) <-> y = x \/ In y sorted.
Proof.
  induction sorted as [|z sorted IH]; simpl; [intuition|].
  destruct (Qle_bool (snd z) (snd x)); simpl; [intuition|].
  rewrite IH. intuition.
Qed.

Lemma sortByScore_in (y : jsstring * Q) (l : list (jsstring * Q)) :
  In y (sortByScore l) <-> In y l.
Proof.
  induction l as [|x l IH]; simpl; [reflexivity|].
  rewrite insertByScore_in, IH. intuition.
Qed.

(** The head of the sorted list has the greatest score. *)
Lemma sortByScore_head (l : list (jsstring * Q)) (best : jsstring * Q)
  (rest : list (jsstring * Q)) :
  sortByScore l = best :: rest ->
  In best l /\ forall y, In y l -> (snd y <= snd best)%Q.
Proof.
  revert best rest. induction l as [|x l IH]; intros best rest; simpl;
    [discriminate|].
  destruct (sortByScore l) as [|z sorted] eqn:E; simpl.
  - intros [= <- <-]. split; [left; reflexivity|].
    intros y [-> | Hy]; [apply Qle_refl|].
    apply sortByScore_in in Hy. rewrite E in Hy. destruct Hy.
  - destruct (IH z sorted eq_refl) as [Hz Hmax].
    destruct (Qle_bool (snd z) (snd x)) eqn:Ele.
    + intros [= <- <-]. split; [left; reflexivity|].
      apply Qle_bool_iff in Ele.
      intros y [-> | Hy]; [apply Qle_refl|].
      apply Qle_trans with (snd z); [apply Hmax, Hy | exact Ele].
    + intros [= <- <-]. split; [right; exact Hz|].
      intros y [-> | Hy]; [|apply Hmax, Hy].
      apply Qlt_le_weak, Qnot_le_lt. intros Hle.
      apply Qle_bool_iff in Hle. congruence.
Qed.

Lemma relevantLines_in (queryWords lines : list jsstring)
  (entry : jsstring * Q) :
  In entry (relevantLines toLowerCase queryWords lines)
  <-> exists line, In line lines
        /\ 0 < wordHits toLowerCase queryWords line
        /\ entry = scored toLowerCase queryWords line.
Proof.
  unfold relevantLines. rewrite in_map_iff. split.
  - intros (line & <- & Hin). apply filter_In in Hin as [Hin Hpos].
    exists line. apply Nat.ltb_lt in Hpos. auto.
  - intros (line & Hin & Hpos & ->). exists line. split; [reflexivity|].
    apply filter_In. split; [exact Hin | apply Nat.ltb_lt, Hpos].
Qed.

Lemma scored_le (queryWords : list jsstring) (a b : jsstring) :
  (snd (scored toLowerCase queryWords a)
   <= snd (scored toLowerCase queryWords b))%Q ->
  wordHits toLowerCase queryWords a <= wordHits toLowerCase queryWords b.
Proof.
  unfold scored, Qle. simpl. intros H.
  apply Z.mul_le_mono_pos_r in H; lia.
Qed.

(** X11.  When a line of the document contains the whole query (both in lower
    case), the search returns the first such line. *)
Theorem first_line_with_query_wins (content query : jsstring)
  (pre post : list jsstring) (line : jsstring) :
  documentLines content = pre ++ line :: post ->
  Forall (fun l => includes (toLowerCase l) (toLowerCase query) = false) pre ->
  includes (toLowerCase line) (toLowerCase query) = true ->
  searchContent toLowerCase (Returned content) query = line.
Proof.
  intros Hlines Hpre Hline. unfold searchContent, searchLines.
  rewrite Hlines.
  rewrite (firstLine_first (fun l => includes l (toLowerCase query))
             pre post line Hpre Hline).
  reflexivity.
Qed.

(** X12.  When no line contains the whole query but some line contains one of
    its words, the search returns a line of the document that contains
    at least as many of the words of the query as any other line. *)
Theorem best_line_has_most_words (content query : jsstring) (some : jsstring) :
  let lines := documentLines content in
  let words := splitWhitespace (toLowerCase query) in
  Forall (fun l => includes (toLowerCase l) (toLowerCase query) = false) lines ->
  In some lines ->
  0 < wordHits toLowerCase words some ->
  In (searchContent toLowerCase (Returned content) query) lines
  /\ forall other, In other lines ->
       wordHits toLowerCase words other
       <= wordHits toLowerCase words
            (searchContent toLowerCase (Returned content) query).
Proof.
  intros lines words Hnone Hin Hpos. unfold searchContent, searchLines.
  fold lines. fold words.
  destruct (firstLine toLowerCase
              (fun lineLower => includes lineLower (toLowerCase query)) lines)
    as [l|] eqn:E1.
  { apply firstLine_some in E1 as [Hl Hinc].
    rewrite Forall_forall in Hnone. apply list_elem_of_In in Hl.
    rewrite (Hnone l Hl) in Hinc. discriminate. }
  destruct (sortByScore (relevantLines toLowerCase words lines))
    as [|best rest] eqn:E2.
  { exfalso.
    assert (Hs : In (scored toLowerCase words some)
                   (sortByScore (relevantLines toLowerCase words lines))).
    { apply sortByScore_in, relevantLines_in. exists some. auto. }
    rewrite E2 in Hs. destruct Hs. }
  destruct (sortByScore_head _ _ _ E2) as [Hbest Hmax].
  apply relevantLines_in in Hbest as (bl & Hbl & Hbpos & ->). simpl.
  split; [exact Hbl|]. intros other Hother.
  destruct (Nat.eq_dec (wordHits toLowerCase words other) 0) as [-> | Hne];
    [lia|].
  apply scored_le. apply Hmax, relevantLines_in.
  exists other. split; [exact Hother|]. split; [lia | reflexivity].
Qed.

Lemma single_sublist (x : jsstring) (l : list jsstring) :
  In x l -> sublist [x] l.
Proof.
  induction l as [|y l IH]; simpl; intros H; [destruct H|].
  destruct H as [-> | H].
  - apply sublist_skip, sublist_nil_l.
  - apply sublist_cons, IH, H.
Qed.

Lemma filter_sublist_of (f : jsstring -> bool) (l : list jsstring) :
  sublist (List.filter f l) l.
Proof.
  induction l as [|y l IH]; simpl; [constructor|].
  destruct (f y); [apply sublist_skip | apply sublist_cons]; exact IH.
Qed.

Lemma firstLine_chosen (p : jsstring -> bool) (lines : list jsstring)
  (line : jsstring) :
  firstLine toLowerCase p lines = Some line ->
  exists chosen, line = joinLines chosen /\ sublist chosen lines
                 /\ length chosen <= 5.
Proof.
  intros H. apply firstLine_some in H as [Hin _].
  exists [line]. split; [reflexivity|]. split; [apply single_sublist, Hin|].
  simpl. lia.
Qed.

Lemma firstn_chosen (lines sub : list jsstring) :
  sublist sub lines ->
  exists chosen, joinLines (firstn 5 sub) = joinLines chosen
                 /\ sublist chosen lines /\ length chosen <= 5.
Proof.
  intros H. exists (firstn 5 sub). split; [reflexivity|]. split.
  - transitivity sub; [apply sublist_take | exact H].
  - rewrite length_firstn. lia.
Qed.

(** X13.  The search never makes text up: what it returns is a line of the
    document, or at most five lines of the document, in their order,
    joined by line breaks; and it is the empty string when the document
    cannot be read. *)
Theorem search_returns_document_lines (fullContent : Result jsstring)
  (query : jsstring) :
  exists chosen,
    searchContent toLowerCase fullContent query = joinLines chosen
    /\ length chosen <= 5
    /\ match fullContent with
       | Returned content => sublist chosen (documentLines content)
       | Thrown _ => chosen = []
       end.
Proof.
  destruct fullContent as [content | e];
    [|exists []; repeat split; simpl; lia].
  unfold searchContent, searchLines.
  set (lines := documentLines content). set (q := toLowerCase query).
  assert (Hswap : forall r,
            (exists chosen, r = joinLines chosen /\ sublist chosen lines
                            /\ length chosen <= 5) ->
            exists chosen, r = joinLines chosen /\ length chosen <= 5
                           /\ sublist chosen lines).
  { intros r (ch & H1 & H2 & H3). exists ch. auto. }
  apply Hswap.
  destruct (firstLine toLowerCase _ lines) as [l|] eqn:E1;
    [exact (firstLine_chosen _ _ _ E1)|].
  destruct (sortByScore _) as [|best rest] eqn:E2.
  2:{ destruct (sortByScore_head _ _ _ E2) as [Hbest _].
      apply relevantLines_in in Hbest as (bl & Hbl & _ & ->). simpl.
      exists [bl]. split; [reflexivity|].
      split; [apply single_sublist, Hbl | simpl; lia]. }
  destruct (if hasTerm courseTerms q then _ else None) as [l|] eqn:E3.
  { destruct (hasTerm courseTerms q); [|discriminate].
    exact (firstLine_chosen _ _ _ E3). }
  destruct (if hasTerm businessTerms q then _ else None) as [l|] eqn:E4.
  { destruct (hasTerm businessTerms q); [|discriminate].
    exact (firstLine_chosen _ _ _ E4). }
  destruct (if aboutBusiness q then _ else None) as [l|] eqn:E5.
  { destruct (aboutBusiness q); [|discriminate].
    exact (firstLine_chosen _ _ _ E5). }
  destruct (if aboutBusiness q || includes q th_info then _ else [])
    as [|b bs] eqn:E6.
  - apply firstn_chosen. reflexivity.
  - apply firstn_chosen. rewrite <- E6.
    destruct (aboutBusiness q || includes q th_info);
      [apply filter_sublist_of | apply sublist_nil_l].
Qed.

End SearchFacts.

Lemma first_line_witness :
  searchContent asciiLower (Returned brochure) (lit "INFO@") 
  = lit "Contact: info@example.com".
Proof.
  apply (first_line_with_query_wins asciiLower brochure (lit "INFO@")
           [lit "Welcome to the institute";
            lit "Courses: risk training every Monday"] []).
  - reflexivity.
  - repeat constructor.
  - reflexivity.
Defined.

Lemma best_line_witness :
  In (searchContent asciiLower (Returned brochure) (lit "contact the institute"))
    (documentLines brochure).
Proof.
  refine (proj1 (best_line_has_most_words asciiLower brochure
                   (lit "contact the institute")
                   (lit "Contact: info@example.com") _ _ _)).
  - repeat constructor.
  - vm_compute. auto.
  - vm_compute. lia.
Defined.

End DocSearch.

(** ** KeywordTable: what [findMatchingKeyword] can return *)

Module KeywordFacts.
Import JS KeywordTable.

(** [m] was built from a row of [items] whose keyword is not empty. *)
Definition fromRow (items : list KeywordItem) (m : Match) : Prop :=
  exists item,
    In item items /\ keyword item <> []
    /\ mKeyword m = originalKeyword item /\ mAnswer m = answer item.

(** The score that goes with each kind of match. *)
Definition scoredAsItsKind (threshold : Q) (m : Match) : Prop :=
  match matchType m with
  | exact => score m = 1%Q
  | partial => score m = (9 # 10)%Q
  | word_match => (threshold <= score m)%Q /\ (score m <= 1)%Q
  | fuzzy | email_specific | phone_specific => score m = (4 # 10)%Q
  | contact_term => score m = (3 # 10)%Q
  end.

Definition sound (items : list KeywordItem) (threshold : Q) (m : Match) : Prop :=
  fromRow items m /\ scoredAsItsKind threshold m.

Lemma falsy_iff (s : jsstring) : falsy s = false <-> s <> [].
Proof. destruct s; simpl; split; congruence. Qed.

Lemma hit_sound (items : list KeywordItem) (threshold : Q)
  (item : KeywordItem) (sc : Q) (ty : MatchType) :
  In item items -> falsy (keyword item) = false ->
  scoredAsItsKind threshold (hit item sc ty) ->
  sound items threshold (hit item sc ty).
Proof.
  intros Hin Hk Hs. split; [|exact Hs].
  exists item. apply falsy_iff in Hk. auto.
Qed.

Section Soundness.

Variable toLowerCase : jsstring -> jsstring.
Variable threshold : Q.

Lemma firstPass_sound (table items : list KeywordItem) (message : jsstring)
  (m : Match) :
  (forall item, In item items -> In item table) ->
  firstPass toLowerCase message items = Some m -> sound table threshold m.
Proof.
  induction items as [|item items IH]; intros Hsub; simpl; [discriminate|].
  assert (Hrest : forall it, In it items -> In it table)
    by (intros it H; apply Hsub; right; exact H).
  destruct (falsy (keyword item)) eqn:Ek; [exact (IH Hrest)|].
  destruct (eqb message _).
  - intros [= <-]. apply hit_sound; [apply Hsub; left| |]; reflexivity || assumption.
  - destruct (includes message _ || includes _ message).
    + intros [= <-].
      apply hit_sound; [apply Hsub; left| |]; reflexivity || assumption.
    + exact (IH Hrest).
Qed.

Lemma firstWith_sound (p : jsstring -> bool) (sc : Q) (ty : MatchType)
  (table items : list KeywordItem) (m : Match) :
  (forall item, In item items -> In item table) ->
  (forall item, scoredAsItsKind threshold (hit item sc ty)) ->
  firstWith toLowerCase p sc ty items = Some m -> sound table threshold m.
Proof.
  intros Hsub Hsc. induction items as [|item items IH]; simpl; [discriminate|].
  assert (Hrest : forall it, In it items -> In it table)
    by (intros it H; apply Hsub; right; exact H).
  destruct (falsy (keyword item)) eqn:Ek; [exact (IH Hrest)|].
  destruct (p _); [|exact (IH Hrest)].
  intros [= <-]. apply hit_sound; [apply Hsub; left; reflexivity | exact Ek | apply Hsc].
Qed.

(** The invariant of [bestMatch] during the second and third passes. *)
Definition bestSound (table : list KeywordItem) (best : Best) : Prop :=
  forall m, fst best = Some m -> sound table threshold m.

Lemma matchCount_le (messageWords keywordWords : list jsstring) :
  matchCount messageWords keywordWords <= length messageWords.
Proof. unfold matchCount. apply filter_length_le. Qed.

Lemma wordScore_le_1 (messageWords keywordWords : list jsstring) :
  (wordScore messageWords keywordWords <= 1)%Q.
Proof.
  unfold wordScore, Qle. simpl. rewrite Z.mul_1_r.
  pose proof (matchCount_le messageWords keywordWords) as H.
  destruct (Nat.max (length messageWords) (length keywordWords)) as [|mx] eqn:E.
  - simpl. lia.
  - rewrite <- E.
    assert (Hp : Z.pos (Pos.of_nat (Nat.max (length messageWords)
                                      (length keywordWords)))
                 = Z.of_nat (Nat.max (length messageWords)
                               (length keywordWords))).
    { rewrite E. lia. }
    rewrite Hp. lia.
Qed.

Lemma secondPass_sound (table items : list KeywordItem)
  (messageWords : list jsstring) (best : Best) :
  (forall item, In item items -> In item table) ->
  bestSound table best ->
  bestSound table (fold_left (secondPassStep toLowerCase threshold messageWords)
                     items best).
Proof.
  revert best. induction items as [|item items IH]; intros best Hsub Hb;
    simpl; [exact Hb|].
  apply IH; [intros it H; apply Hsub; right; exact H|].
  unfold secondPassStep. destruct (falsy (keyword item)) eqn:Ek; [exact Hb|].
  destruct (Qle_bool threshold _ && Qlt_bool (snd best) _) eqn:E; [|exact Hb].
  apply andb_true_iff in E as [Hth _]. apply Qle_bool_iff in Hth.
  intros m [= <-]. apply hit_sound; [apply Hsub; left; reflexivity | exact Ek|].
  split; [exact Hth | apply wordScore_le_1].
Qed.

Lemma fuzzy_sound (table : list KeywordItem) (item : KeywordItem)
  (mw : jsstring) (keywordWords : list jsstring) (best : Best) :
  In item table -> falsy (keyword item) = false ->
  bestSound table best ->
  bestSound table (fold_left (fuzzyStep item mw) keywordWords best).
Proof.
  intros Hin Hk. revert best.
  induction keywordWords as [|kw kws IH]; intros best Hb; simpl; [exact Hb|].
  apply IH. unfold fuzzyStep.
  destruct (Qle_bool _ _); [|exact Hb].
  destruct (Qlt_bool _ _); [|exact Hb].
  intros m [= <-]. apply hit_sound; [exact Hin | exact Hk | reflexivity].
Qed.

Lemma thirdPass_sound (table items : list KeywordItem)
  (messageWords : list jsstring) (best : Best) :
  (forall item, In item items -> In item table) ->
  bestSound table best ->
  bestSound table (fold_left (thirdPassStep toLowerCase messageWords)
                     items best).
Proof.
  revert best. induction items as [|item items IH]; intros best Hsub Hb;
    simpl; [exact Hb|].
  apply IH; [intros it H; apply Hsub; right; exact H|].
  unfold thirdPassStep. destruct (falsy (keyword item)) eqn:Ek; [exact Hb|].
  assert (Hin : In item table) by (apply Hsub; left; reflexivity).
  clear IH Hsub. revert best Hb.
  induction messageWords as [|mw mws IHm]; intros best Hb; simpl; [exact Hb|].
  apply IHm, fuzzy_sound; assumption.
Qed.

Lemma fourthPass_sound (table : list KeywordItem) (message : jsstring)
  (m : Match) :
  fourthPass toLowerCase message table = Some m -> sound table threshold m.
Proof.
  unfold fourthPass, orElse.
  destruct (if hasTerm emailTerms message then _ else None) as [m1|] eqn:E1.
  { intros [= <-]. destruct (hasTerm emailTerms message); [|discriminate].
    apply (firstWith_sound _ _ _ table table m1) in E1; auto. reflexivity. }
  destruct (if hasTerm phoneTerms message then _ else None) as [m2|] eqn:E2.
  { intros [= <-]. destruct (hasTerm phoneTerms message); [|discriminate].
    apply (firstWith_sound _ _ _ table table m2) in E2; auto. reflexivity. }
  destruct (hasTerm contactTerms message); [|discriminate].
  intros H. apply (firstWith_sound _ _ _ table table m) in H; auto. reflexivity.
Qed.

Lemma find_sound (keywordsData : list KeywordItem) (userMessage : jsstring)
  (m : Match) :
  findMatchingKeyword toLowerCase keywordsData userMessage threshold = Some m ->
  sound keywordsData threshold m.
Proof.
  unfold findMatchingKeyword.
  destruct (length keywordsData =? 0); [discriminate|].
  destruct (firstPass toLowerCase _ keywordsData) as [m1|] eqn:E1.
  { intros [= <-]. exact (firstPass_sound _ _ _ _ (fun _ H => H) E1). }
  set (words := splitWhitespace (normalize toLowerCase userMessage)).
  set (best2 := fold_left (secondPassStep toLowerCase threshold words)
                  keywordsData (None, 0%Q)).
  assert (H2 : bestSound keywordsData best2).
  { apply secondPass_sound; [auto|]. intros m0. discriminate. }
  set (best3 := match fst best2 with
                | None => fold_left (thirdPassStep toLowerCase words)
                            keywordsData best2
                | Some _ => best2
                end).
  assert (H3 : bestSound keywordsData best3).
  { unfold best3. destruct (fst best2); [exact H2|].
    apply thirdPass_sound; auto. }
  destruct (fst best3) as [m3|] eqn:E3.
  - intros [= <-]. apply H3, E3.
  - unfold orElse.
    destruct (fourthPass toLowerCase _ keywordsData) as [m4|] eqn:E4;
      [|discriminate].
    intros [= <-]. exact (fourthPass_sound _ _ _ E4).
Qed.

(** X14.  Whatever [findMatchingKeyword] returns was read from a row of the
    table whose keyword is not empty: the keyword and the answer of the
    match are the original keyword and the answer of that row.  Rows
    with an empty keyword, and text that is in no row, are never
    returned; an empty table gives no match. *)
Theorem match_comes_from_a_row (keywordsData : list KeywordItem)
  (userMessage : jsstring) :
  match findMatchingKeyword toLowerCase keywordsData userMessage threshold with
  | Some m => fromRow keywordsData m
  | None => True
  end
  /\ findMatchingKeyword toLowerCase [] userMessage threshold = None.
Proof.
  split; [|reflexivity].
  destruct (findMatchingKeyword toLowerCase keywordsData userMessage threshold)
    as [m|] eqn:E; [|exact I].
  exact (proj1 (find_sound _ _ _ E)).
Qed.

(** X15.  The score of a match is fixed by its kind: 1 for an exact match,
    0.9 for a partial one, 0.4 for a fuzzy, email or phone match, 0.3
    for a contact-term match; only a word match has a computed score,
    which is at least the threshold and at most 1. *)
Theorem score_follows_match_type (keywordsData : list KeywordItem)
  (userMessage : jsstring) :
  match findMatchingKeyword toLowerCase keywordsData userMessage threshold with
  | Some m => scoredAsItsKind threshold m
  | None => True
  end.
Proof.
  destruct (findMatchingKeyword toLowerCase keywordsData userMessage threshold)
    as [m|] eqn:E; [|exact I].
  exact (proj2 (find_sound _ _ _ E)).
Qed.

End Soundness.

End KeywordFacts.

(** ** KeywordTable: levenshteinDistance and calculateSimilarity *)

Module SimilarityFacts.
Import JS KeywordTable.

Lemma levRow_length_le (c2 : N) (str1 : jsstring) (prev : list nat) (left : nat) :
  length (levRow c2 str1 prev left) <= length str1.
Proof.
  revert prev left. induction str1 as [|c1 r1 IH]; intros prev left; simpl;
    [lia|].
  destruct prev as [|diag [|up rest]]; simpl; try lia.
  specialize (IH (up :: rest)
                (if N.eqb c2 c1 then diag
                 else Nat.min (diag + 1) (Nat.min (left + 1) (up + 1)))).
  lia.
Qed.

Lemma levRow_length (c2 : N) (str1 : jsstring) (prev : list nat) (left : nat) :
  length prev = S (length str1) ->
  length (levRow c2 str1 prev left) = length str1.
Proof.
  revert prev left. induction str1 as [|c1 r1 IH]; intros prev left H; simpl;
    [reflexivity|].
  destruct prev as [|diag [|up rest]]; simpl in H; try discriminate.
  simpl. f_equal. apply IH. simpl. lia.
Qed.

(** Where the code units agree, the entry is the one diagonally above. *)
Lemma levRow_diag (c2 : N) (str1 : jsstring) (prev : list nat) (left k : nat) :
  length prev = S (length str1) ->
  nth_error str1 k = Some c2 ->
  nth_error (levRow c2 str1 prev left) k = nth_error prev k.
Proof.
  revert prev left k. induction str1 as [|c1 r1 IH]; intros prev left k Hl Hk.
  - destruct k; discriminate.
  - destruct prev as [|diag [|up rest]]; simpl in Hl; try discriminate.
    destruct k as [|k]; simpl in *.
    + injection Hk as ->. rewrite N.eqb_refl. reflexivity.
    + apply IH; [simpl; lia | exact Hk].
Qed.

Lemma last_at (l : list nat) (n x d : nat) :
  length l = S n -> nth_error l n = Some x -> List.last l d = x.
Proof.
  revert n. induction l as [|y l IH]; intros n Hl Hn; [discriminate|].
  destruct l as [|z l].
  - destruct n; simpl in *; [congruence | lia].
  - destruct n as [|n]; [simpl in Hl; lia|].
    change (List.last (z :: l) d = x). apply (IH n); [simpl in *; lia | exact Hn].
Qed.

Lemma fold_self (todo done : jsstring) (row : list nat) :
  length row = S (length (done ++ todo)) ->
  nth_error row (length done) = Some 0 ->
  let final := snd (fold_left (levStep (done ++ todo)) todo (length done, row)) in
  length final = S (length (done ++ todo))
  /\ nth_error final (length (done ++ todo)) = Some 0.
Proof.
  revert done row. induction todo as [|c todo IH]; intros done row Hl H0.
  - simpl. rewrite app_nil_r in *. auto.
  - assert (E : done ++ c :: todo = (done ++ [c]) ++ todo)
      by (rewrite <- app_assoc; reflexivity).
    assert (Hlen : length (done ++ [c]) = S (length done))
      by (rewrite length_app; simpl; lia).
    set (row' := S (length done)
                 :: levRow c (done ++ c :: todo) row (S (length done))).
    change (fold_left (levStep (done ++ c :: todo)) (c :: todo)
              (length done, row))
      with (fold_left (levStep (done ++ c :: todo)) todo
              (S (length done), row')).
    rewrite <- Hlen. rewrite E.
    apply (IH (done ++ [c]) row').
    + unfold row'. simpl. rewrite <- E. f_equal. apply levRow_length. exact Hl.
    + rewrite Hlen. unfold row'. simpl.
      rewrite levRow_diag; [exact H0 | exact Hl|].
      rewrite nth_error_app2, Nat.sub_diag by lia. reflexivity.
Qed.

Lemma levenshtein_self (s : jsstring) : levenshteinDistance s s = 0.
Proof.
  unfold levenshteinDistance.
  destruct (fold_self s [] (seq 0 (S (length s)))) as [Hl H0].
  - rewrite length_seq. reflexivity.
  - reflexivity.
  - simpl in Hl, H0. exact (last_at _ _ _ _ Hl H0).
Qed.

(** Row [i] of the matrix, from column [j0] on, is within
    [max i j]. *)
Definition bounded (i j0 : nat) (row : list nat) : Prop :=
  forall k x, nth_error row k = Some x -> x <= Nat.max i (j0 + k).

Lemma levRow_bounded (c2 : N) (str1 : jsstring) (prev : list nat)
  (left i j0 : nat) :
  bounded i j0 prev -> left <= Nat.max (S i) j0 ->
  bounded (S i) (S j0) (levRow c2 str1 prev left).
Proof.
  revert prev left j0. induction str1 as [|c1 r1 IH]; intros prev left j0 Hb Hleft;
    [intros [|k] x; discriminate|].
  destruct prev as [|diag [|up rest]]; try (intros [|k] x; discriminate).
  simpl.
  set (v := if N.eqb c2 c1 then diag
            else Nat.min (diag + 1) (Nat.min (left + 1) (up + 1))).
  assert (Hd : diag <= Nat.max i (j0 + 0)) by (apply (Hb 0); reflexivity).
  assert (Hv : v <= Nat.max (S i) (S j0)).
  { unfold v. destruct (N.eqb c2 c1); lia. }
  intros [|k] x; simpl.
  - intros [= <-]. lia.
  - intros Hk.
    assert (Hb' : bounded i (S j0) (up :: rest)).
    { intros k' x' Hk'. specialize (Hb (S k') x' Hk'). lia. }
    specialize (IH (up :: rest) v (S j0) Hb' Hv k x Hk). lia.
Qed.

Lemma fold_bounded (str1 str2 : jsstring) (i : nat) (row : list nat) :
  bounded i 0 row -> length row <= S (length str1) ->
  let final := snd (fold_left (levStep str1) str2 (i, row)) in
  bounded (i + length str2) 0 final /\ length final <= S (length str1).
Proof.
  revert i row. induction str2 as [|c2 str2 IH]; intros i row Hb Hl; simpl.
  - rewrite Nat.add_0_r. auto.
  - unfold levStep at 2. simpl.
    replace (i + S (length str2)) with (S i + length str2) by lia.
    apply IH.
    + intros [|k] x; simpl.
      * intros [= <-]. lia.
      * intros Hk.
        assert (Hi : S i <= Nat.max (S i) 0) by lia.
        pose proof (levRow_bounded c2 str1 row (S i) i 0 Hb Hi k x Hk). lia.
    + simpl. pose proof (levRow_length_le c2 str1 row (S i)). lia.
Qed.

Lemma last_bounded (l : list nat) (i n : nat) :
  bounded i 0 l -> length l <= S n -> List.last l 0 <= Nat.max i n.
Proof.
  intros Hb Hl. destruct l as [|y l]; [simpl; lia|].
  assert (Hn : nth_error (y :: l) (length l) = Some (List.last (y :: l) 0)).
  { clear. revert y. induction l as [|z l IH]; intros y; [reflexivity|].
    change (nth_error (z :: l) (length l) = Some (List.last (z :: l) 0)).
    apply IH. }
  specialize (Hb _ _ Hn). simpl in Hl. lia.
Qed.

Lemma levenshtein_le (str1 str2 : jsstring) :
  levenshteinDistance str1 str2 <= Nat.max (length str2) (length str1).
Proof.
  unfold levenshteinDistance.
  destruct (fold_bounded str1 str2 0 (seq 0 (S (length str1)))) as [Hb Hl].
  - intros k x Hk. rewrite nth_error_seq in Hk.
    destruct (k <? S (length str1)); [injection Hk as <-; lia | discriminate].
  - rewrite length_seq. lia.
  - simpl in Hb. apply last_bounded; assumption.
Qed.

(** X16.  [calculateSimilarity] always lies between 0 and 1. *)
Theorem similarity_between_0_and_1 (str1 str2 : jsstring) :
  (0 <= calculateSimilarity str1 str2)%Q /\ (calculateSimilarity str1 str2 <= 1)%Q.
Proof.
  unfold calculateSimilarity.
  destruct (falsy str1 || falsy str2); [split; discriminate|].
  set (longer := if length str2 <? length str1 then str1 else str2).
  set (shorter := if length str2 <? length str1 then str2 else str1).
  destruct (length longer =? 0) eqn:E0; [split; discriminate|].
  apply Nat.eqb_neq in E0.
  assert (Hs : length shorter <= length longer).
  { unfold shorter, longer. destruct (length str2 <? length str1) eqn:E.
    - apply Nat.ltb_lt in E. lia.
    - apply Nat.ltb_ge in E. lia. }
  pose proof (levenshtein_le longer shorter) as Hd.
  assert (Hp : Z.pos (Pos.of_nat (length longer)) = Z.of_nat (length longer)).
  { destruct (length longer); [congruence | lia]. }
  unfold Qle. simpl. rewrite Hp. split; lia.
Qed.

(** X17.  A non-empty string is fully similar to itself, so that equal words
    always pass the fuzzy test of [findMatchingKeyword]. *)
Theorem similarity_of_equal_strings (s : jsstring) :
  s <> [] ->
  (calculateSimilarity s s == 1)%Q
  /\ Qle_bool (6 # 10) (calculateSimilarity s s) = true.
Proof.
  intros Hne.
  assert (E : (calculateSimilarity s s == 1)%Q).
  { unfold calculateSimilarity. destruct s as [|c s]; [congruence|].
    simpl falsy. simpl orb. rewrite Nat.ltb_irrefl.
    change (length (c :: s) =? 0) with false. cbv iota.
    rewrite levenshtein_self. unfold Qeq. simpl. lia. }
  split; [exact E|]. apply Qle_bool_iff. rewrite E. discriminate.
Qed.

Lemma similarity_witness :
  Qle_bool (6 # 10) (calculateSimilarity (lit "insurance") (lit "insurance"))
  = true.
Proof.
  apply (similarity_of_equal_strings (lit "insurance")). discriminate.
Defined.

End SimilarityFacts.

(** ** KeywordTable: findMultipleMatches and loadKeywordsData *)

Module SheetsFacts.
Import JS KeywordTable KeywordFacts.

(** *** findMultipleMatches *)

Section Multiple.

Variable toLowerCase : jsstring -> jsstring.

Definition overlap (words keywordWords : list jsstring) : nat :=
  length (List.filter
            (fun word =>
               existsb (fun keywordWord =>
                          includes word keywordWord || includes keywordWord word)
                 keywordWords)
            words).

Definition overlapScore (words keywordWords : list jsstring) : Q :=
  (Z.of_nat (overlap words keywordWords)
     # Pos.of_nat (Nat.max (length words) (length keywordWords)))%Q.

(** The body of the loop: what one row adds to [matches]. *)
Definition candidate (threshold : Q) (message : jsstring) (item : KeywordItem)
  : list Match :=
  if falsy (keyword item) then []
  else
    let sc := overlapScore (splitWhitespace message)
                (splitWhitespace (normalize toLowerCase (keyword item))) in
    if Qle_bool threshold sc
    then [ {| mKeyword := originalKeyword item; mAnswer := answer item;
              score := sc;
              matchType := if Qeq_bool sc 1 then exact else partial |} ]
    else [].

(** [.sort((a, b) => b.score - a.score)]: a stable sort by decreasing
    score. *)
Fixpoint insertMatch (x : Match) (sorted : list Match) : list Match :=
  match sorted with
  | [] => [x]
  | y :: rest =>
      if Qle_bool (score y) (score x) then x :: sorted
      else y :: insertMatch x rest
  end.

Definition sortMatches (l : list Match) : list Match :=
  fold_right insertMatch [] l.

Definition findMultipleMatches (keywordsData : list KeywordItem)
  (userMessage : jsstring) (threshold : Q) (limit : nat) : list Match :=
  if length keywordsData =? 0 then []
  else
    let message := normalize toLowerCase userMessage in
    firstn limit
      (sortMatches (flat_map (candidate threshold message) keywordsData)).

End Multiple.

Example top_matches :
  List.map (fun m => (mAnswer m, score m, matchType m))
    (findMultipleMatches asciiLower
       [row "opening hours" "9-5"; row "price" "1000"; row "hours" "daily"]
       (lit "Opening hours") (5 # 10) 5)
  = [(lit "9-5", (2 # 2)%Q, exact); (lit "daily", (1 # 2)%Q, partial)].
Proof. vm_compute. reflexivity. Qed.

(** Not increasing, from left to right. *)
Definition byDecreasingScore (l : list Match) : Prop :=
  Sorted (fun a b => (score b <= score a)%Q) l.

Lemma insertMatch_in (x y : Match) (sorted : list Match) :
  In y (insertMatch x sorted) <-> y = x \/ In y sorted.
Proof.
  induction sorted as [|z sorted IH]; simpl; [intuition|].
  destruct (Qle_bool (score z) (score x)); simpl; [intuition|].
  rewrite IH. intuition.
Qed.

Lemma sortMatches_in (y : Match) (l : list Match) :
  In y (sortMatches l) <-> In y l.
Proof.
  induction l as [|x l IH]; simpl; [reflexivity|].
  rewrite insertMatch_in, IH. intuition.
Qed.

Lemma insertMatch_sorted (x : Match) (sorted : list Match) :
  byDecreasingScore sorted -> byDecreasingScore (insertMatch x sorted).
Proof.
  unfold byDecreasingScore.
  induction sorted as [|y rest IH]; intros Hs; simpl.
  - repeat constructor.
  - destruct (Qle_bool (score y) (score x)) eqn:E.
    + constructor; [exact Hs|]. constructor. apply Qle_bool_iff, E.
    + inversion Hs as [|? ? Hrest Hhd]; subst.
      constructor; [apply IH, Hrest|].
      assert (Hxy : (score x <= score y)%Q).
      { apply Qlt_le_weak, Qnot_le_lt. intros H.
        apply Qle_bool_iff in H. congruence. }
      destruct rest as [|z rest]; simpl.
      * constructor. exact Hxy.
      * destruct (Qle_bool (score z) (score x)); constructor;
          [exact Hxy | inversion Hhd; assumption].
Qed.

Lemma sortMatches_sorted (l : list Match) : byDecreasingScore (sortMatches l).
Proof.
  induction l as [|x l IH]; simpl; [constructor | apply insertMatch_sorted, IH].
Qed.

Lemma firstn_sorted (n : nat) (l : list Match) :
  byDecreasingScore l -> byDecreasingScore (firstn n l).
Proof.
  unfold byDecreasingScore. revert n.
  induction l as [|x l IH]; intros [|n] Hs; simpl; try constructor.
  - inversion Hs; subst. apply IH. assumption.
  - inversion Hs as [|? ? _ Hhd]; subst.
    destruct l as [|y l]; destruct n; simpl; constructor.
    inversion Hhd. assumption.
Qed.

Lemma in_firstn {A} (x : A) (n : nat) (l : list A) :
  In x (firstn n l) -> In x l.
Proof.
  revert n. induction l as [|y l IH]; intros [|n]; simpl; try tauto.
  intros [-> | H]; [left; reflexivity | right; exact (IH n H)].
Qed.

Section MultipleFacts.

Variable toLowerCase : jsstring -> jsstring.

Lemma candidate_sound (threshold : Q) (message : jsstring)
  (item : KeywordItem) (m : Match) :
  In m (candidate toLowerCase threshold message item) ->
  (threshold <= score m)%Q
  /\ keyword item <> []
  /\ mKeyword m = originalKeyword item /\ mAnswer m = answer item.
Proof.
  unfold candidate. destruct (falsy (keyword item)) eqn:Ek; [intros []|].
  destruct (Qle_bool threshold _) eqn:E; [|intros []].
  intros [<- | []]. simpl. apply Qle_bool_iff in E. apply falsy_iff in Ek. auto.
Qed.

(** X18.  [findMultipleMatches] returns at most [limit] matches, by
    decreasing score; each of them has a score of at least the
    threshold and was read from a row of the table whose keyword is not
    empty. *)
Theorem multiple_matches_ranked (keywordsData : list KeywordItem)
  (userMessage : jsstring) (threshold : Q) (limit : nat) :
  let found :=
    findMultipleMatches toLowerCase keywordsData userMessage threshold limit in
  length found <= limit
  /\ byDecreasingScore found
  /\ Forall (fun m => (threshold <= score m)%Q /\ fromRow keywordsData m) found.
Proof.
  intros found. unfold found, findMultipleMatches.
  destruct (length keywordsData =? 0);
    [simpl; split; [lia | split; constructor]|].
  split; [rewrite length_firstn; lia|].
  split; [apply firstn_sorted, sortMatches_sorted|].
  apply List.Forall_forall. intros m Hm.
  apply in_firstn in Hm.
  apply (proj1 (sortMatches_in _ _)) in Hm.
  apply in_flat_map in Hm as (item & Hitem & Hc).
  apply candidate_sound in Hc as (Hth & Hk & Hkw & Ha).
  split; [exact Hth|]. exists item. auto.
Qed.

End MultipleFacts.

(** *** loadKeywordsData *)

(** The fields of the service that [loadKeywordsData] reads and
    writes. *)
Record Sheets := {
  connected : bool;                 (* [this.sheets && this.sheetsId] *)
  range : jsstring;
  keywordsData : list KeywordItem;
  sheetNames : list jsstring;
  lastUpdate : option Z
}.

(** [row[i] || '']. *)
Definition cell (cells : list jsstring) (i : nat) : jsstring := nth i cells [].

(** [rows.map((row, index) => ({id: offset + index + 1, ...}))], from
    [index] on. *)
Fixpoint rowsToItems (offset : nat) (sheetName : jsstring)
  (rows : list (list jsstring)) (index : nat) : list KeywordItem :=
  match rows with
  | [] => []
  | cells :: rest =>
      {| id := offset + index + 1; keyword := cell cells 0;
         answer := cell cells 1; originalKeyword := cell cells 0;
         sheet := sheetName |}
      :: rowsToItems offset sheetName rest (S index)
  end.

(** [this.range.split('!')[0] || 'Sheet1']. *)
Definition sheetOfRange (rng : jsstring) : jsstring :=
  match DocSearch.splitOnFrom 33%N rng [] with
  | (_ :: _) as name :: _ => name
  | _ => lit "Sheet1"
  end.

Section Loading.

(** What [getSheetNames] returns (it returns [[]] when it fails), and
    how [spreadsheets.values.get] ends for a given range. *)
Variable names : list jsstring.
Variable valuesGet : jsstring -> Result (list (list jsstring)).

(** The loop over the sheets: a sheet that cannot be read is skipped. *)
Definition addSheet (allKeywordsData : list KeywordItem) (sheetName : jsstring)
  : list KeywordItem :=
  match valuesGet (sheetName ++ lit "!B:C") with
  | Returned rows =>
      allKeywordsData
      ++ rowsToItems (length allKeywordsData) sheetName rows 0
  | Thrown _ => allKeywordsData
  end.

Definition loadKeywordsData (now : Z) (svc : Sheets) : Sheets :=
  if negb (connected svc) then svc
  else
    if negb (falsy (range svc)) && negb (eqb (range svc) (lit "ALL_SHEETS"))
    then
      match valuesGet (range svc) with
      | Returned rows =>
          {| connected := connected svc; range := range svc;
             keywordsData := rowsToItems 0 (sheetOfRange (range svc)) rows 0;
             sheetNames := names; lastUpdate := Some now |}
      | Thrown _ =>
          {| connected := connected svc; range := range svc;
             keywordsData := []; sheetNames := names;
             lastUpdate := lastUpdate svc |}
      end
    else
      {| connected := connected svc; range := range svc;
         keywordsData := fold_left addSheet names [];
         sheetNames := names; lastUpdate := Some now |}.

Lemma rowsToItems_ids (offset : nat) (sheetName : jsstring)
  (rows : list (list jsstring)) (index : nat) :
  List.map id (rowsToItems offset sheetName rows index)
  = seq (offset + index + 1) (length rows).
Proof.
  revert index. induction rows as [|cells rows IH]; intros index; simpl;
    [reflexivity|].
  rewrite IH. do 2 f_equal. lia.
Qed.

Lemma rowsToItems_length (offset : nat) (sheetName : jsstring)
  (rows : list (list jsstring)) (index : nat) :
  length (rowsToItems offset sheetName rows index) = length rows.
Proof.
  revert index. induction rows as [|cells rows IH]; intros index; simpl;
    [reflexivity | rewrite IH; reflexivity].
Qed.

Definition numbered (items : list KeywordItem) : Prop :=
  List.map id items = seq 1 (length items).

Lemma addSheet_numbered (items : list KeywordItem) (sheetName : jsstring) :
  numbered items -> numbered (addSheet items sheetName).
Proof.
  unfold numbered, addSheet. intros H.
  destruct (valuesGet _) as [rows|]; [|exact H].
  rewrite map_app, length_app, seq_app, H, rowsToItems_ids, rowsToItems_length.
  do 2 f_equal. lia.
Qed.

Lemma addSheets_numbered (sheets : list jsstring) (items : list KeywordItem) :
  numbered items -> numbered (fold_left addSheet sheets items).
Proof.
  revert items. induction sheets as [|sh sheets IH]; intros items H; simpl;
    [exact H | apply IH, addSheet_numbered, H].
Qed.

(** X19.  After [loadKeywordsData] on a connected service the rows are
    numbered 1, 2, 3, ... without gap, whether they come from one range
    or from all the sheets, and whichever sheets could not be read; and
    each row keeps its keyword as [originalKeyword]. *)
Theorem loaded_rows_are_numbered (now : Z) (svc : Sheets) :
  connected svc = true ->
  numbered (keywordsData (loadKeywordsData now svc))
  /\ Forall (fun item => originalKeyword item = keyword item)
       (keywordsData (loadKeywordsData now svc)).
Proof.
  intros Hc. unfold loadKeywordsData. rewrite Hc. simpl.
  assert (Horig : forall offset sheetName rows index,
            Forall (fun item => originalKeyword item = keyword item)
              (rowsToItems offset sheetName rows index)).
  { intros offset sheetName rows. induction rows as [|cells rows IH];
      intros index; simpl; constructor; [reflexivity | apply IH]. }
  destruct (negb (falsy (range svc)) && _).
  - destruct (valuesGet (range svc)) as [rows|]; simpl.
    + split; [|apply Horig]. unfold numbered.
      rewrite rowsToItems_ids, rowsToItems_length. reflexivity.
    + split; [reflexivity | constructor].
  - simpl. split; [apply addSheets_numbered; reflexivity|].
    assert (Hfold : forall sheets items,
              Forall (fun item => originalKeyword item = keyword item) items ->
              Forall (fun item => originalKeyword item = keyword item)
                (fold_left addSheet sheets items)).
    { induction sheets as [|sh sheets IH]; intros items Hi; simpl; [exact Hi|].
      apply IH. unfold addSheet. destruct (valuesGet _); [|exact Hi].
      apply Forall_app. split; [exact Hi | apply Horig]. }
    apply Hfold. constructor.
Qed.

End Loading.

Definition allSheets : Sheets :=
  {| connected := true; range := lit "ALL_SHEETS"; keywordsData := [];
     sheetNames := []; lastUpdate := None |}.

Definition twoOfThree (rng : jsstring) : Result (list (list jsstring)) :=
  if eqb rng (lit "FAQ!B:C")
  then Returned [[lit "price"; lit "1000"]; [lit "hours"]]
  else if eqb rng (lit "Contact!B:C")
       then Returned [[lit "email"; lit "info@example.com"]]
       else Thrown (err "Unable to parse range").

Lemma loaded_rows_witness :
  List.map id (keywordsData (loadKeywordsData
                               [lit "FAQ"; lit "Draft"; lit "Contact"]
                               twoOfThree 5000 allSheets))
  = [1; 2; 3].
Proof.
  rewrite (proj1 (loaded_rows_are_numbered
                    [lit "FAQ"; lit "Draft"; lit "Contact"] twoOfThree 5000
                    allSheets eq_refl)).
  reflexivity.
Defined.

End SheetsFacts.

(** ** ResponseOrchestrator: searches and answer formatting *)

Module OrchestratorFacts.
Import JS Orchestrator TrimFacts.

Section Searches.

Variable formatDocsAnswer : jsstring -> jsstring.
Variable DEFAULT_RESPONSE : option jsstring.
Variable isProduction : bool.
Variable isInitialized : bool.
Variable primarySource : DataSource.
Variable findBestAnswerWithAI : DataSource -> option AiMatch.
Variable laterSteps : option jsstring.

(** X20.  For one message, [findBestAnswerWithAI] is asked at most once per
    source, and not at all before the service is initialized.  On an
    initialized service Google Sheets is always asked, except when
    Google Docs is the primary source and its candidate passes the
    threshold: the method then returns that answer, or ends in its
    [catch] when the answer is not a string and cannot be printed. *)
Theorem each_source_searched_once :
  let reply :=
    processMessageDirect formatDocsAnswer DEFAULT_RESPONSE isProduction
      isInitialized primarySource findBestAnswerWithAI laterSteps in
  NoDup (searched reply)
  /\ (isInitialized = false <-> path reply = NotInitialized)
  /\ (path reply = NotInitialized -> searched reply = [])
  /\ (In sheets (searched reply)
      \/ path reply = NotInitialized
      \/ primarySource = docs
         /\ confident (findBestAnswerWithAI docs) 60 = true
         /\ searched reply = [docs]
         /\ (path reply = DocsAI
             \/ path reply = Failed /\ isProduction = false
                /\ forall a, answerOf (findBestAnswerWithAI docs) <> JString a)).
Proof.
  unfold processMessageDirect, step3, step4, laterReply, respond, failed.
  assert (Hne : sheets <> docs) by discriminate.
  assert (N0 : NoDup (@nil DataSource)) by apply NoDup_nil_2.
  assert (N1 : NoDup [docs]) by apply NoDup_singleton.
  assert (N2 : NoDup [docs; sheets]).
  { apply NoDup_cons. split; [|apply NoDup_singleton].
    apply not_elem_of_cons. split; [discriminate | apply not_elem_of_nil]. }
  assert (N3 : NoDup [sheets; docs]).
  { apply NoDup_cons. split; [|apply NoDup_singleton].
    apply not_elem_of_cons. split; [discriminate | apply not_elem_of_nil]. }
  assert (N4 : NoDup [sheets]) by apply NoDup_singleton.
  assert (Hshow : forall v,
            showMessageProcessing isProduction (formatDocsJson formatDocsAnswer v)
            = false ->
            isProduction = false /\ forall a, v <> JString a).
  { intros v. destruct v; simpl; intros H; try discriminate H;
      (split; [exact H | intros a; discriminate]). }
  destruct isInitialized, primarySource,
    (confident (findBestAnswerWithAI docs) 60),
    (confident (findBestAnswerWithAI sheets) 70), laterSteps,
    (answerOf (findBestAnswerWithAI sheets));
    try destruct (showMessageProcessing isProduction
                    (formatDocsJson formatDocsAnswer
                       (answerOf (findBestAnswerWithAI docs)))) eqn:Es;
    simpl;
    (split; [assumption|]);
    (split; [split; [discriminate || reflexivity | discriminate || reflexivity]|]);
    (split; [discriminate || reflexivity|]);
    try (left; simpl; tauto); try (right; left; reflexivity);
    right; right;
    (split; [reflexivity|]); (split; [reflexivity|]); (split; [reflexivity|]);
    try (left; reflexivity);
    right; (split; [reflexivity|]); exact (Hshow _ Es).
Qed.

End Searches.

(** *** formatSheetsAnswer and formatDocsAnswer *)

Definition asterisk : N := 42%N.

(** [/\*+/g] and [/\n{3,}/g]. *)
Definition asterisks : Links.Pattern := [Links.atLeast (N.eqb asterisk) 1].
Definition lineBreaks : Links.Pattern := [Links.atLeast (N.eqb 10%N) 3].

Definition removeAsterisks (s : jsstring) : jsstring :=
  Links.replaceAll asterisks (fun _ => []) s.

Definition formatSheetsAnswer (answer : jsstring) : jsstring :=
  if falsy answer then answer
  else
    let formatted := trim answer in
    let formatted := Links.formatClickableLinks formatted in
    removeAsterisks formatted.

Section DocsAnswer.

(** [applySimpleTemplate] is taken as it comes. *)
Variable applySimpleTemplate : jsstring -> jsstring.

Definition formatDocsAnswer (answer : jsstring) : jsstring :=
  if falsy answer then answer
  else
    let formatted := trim answer in
    let formatted := Links.formatClickableLinks formatted in
    let formatted := applySimpleTemplate formatted in
    let formatted :=
      Links.replaceAll lineBreaks (fun _ => [10; 10]%N) formatted in
    let formatted := removeAsterisks formatted in
    trim formatted.

End DocsAnswer.

Example sheets_answer :
  formatSheetsAnswer (lit " **Call** 02-123-4567 * ")
  = lit "Call [02-123-4567](tel:02-123-4567) ".
Proof. vm_compute. reflexivity. Qed.

Lemma asterisk_matches (s : jsstring) :
  exists n, Links.matchHere asterisks (asterisk :: s) = Some (S n).
Proof.
  unfold asterisks. simpl.
  exists (Links.run (N.eqb asterisk) None s + 0). reflexivity.
Qed.

Lemma rewritten_without_asterisk (s out : jsstring) :
  Links.Rewritten asterisks (fun _ => []) s out -> ~ In asterisk out.
Proof.
  induction 1 as [|c s out Hno _ IH|c s n out _ _ IH].
  - intros [].
  - intros [-> | Hin]; [|exact (IH Hin)].
    destruct (asterisk_matches s) as [n Hn]. exact (Hno n Hn).
  - exact IH.
Qed.

Lemma removeAsterisks_clean (s : jsstring) : ~ In asterisk (removeAsterisks s).
Proof.
  apply (rewritten_without_asterisk s).
  exact (Links.replaceFrom_rewritten asterisks (fun _ => []) s 0).
Qed.

Lemma in_trimStart (c : N) (s : jsstring) : In c (trimStart s) -> In c s.
Proof.
  induction s as [|x s IH]; simpl; [tauto|].
  destruct (isWhiteSpace x); [intros H; right; exact (IH H) | simpl; tauto].
Qed.

Lemma in_trim (c : N) (s : jsstring) : In c (trim s) -> In c s.
Proof.
  unfold trim, trimEnd. intros H. apply in_rev in H.
  apply in_trimStart in H. apply in_rev in H. apply in_trimStart, H.
Qed.

(** X21.  An answer formatted for Google Sheets or for Google Docs holds no
    asterisk, whatever the template puts in; and a formatted Docs answer
    neither starts nor ends with white space. *)
Theorem formatted_answers_have_no_asterisk
  (applySimpleTemplate : jsstring -> jsstring) (answer : jsstring) :
  ~ In asterisk (formatSheetsAnswer answer)
  /\ ~ In asterisk (formatDocsAnswer applySimpleTemplate answer)
  /\ cleanHead (formatDocsAnswer applySimpleTemplate answer)
  /\ cleanLast (formatDocsAnswer applySimpleTemplate answer).
Proof.
  unfold formatSheetsAnswer, formatDocsAnswer.
  destruct answer as [|c answer]; simpl falsy; cbv iota.
  - repeat split; try (intros []); intros x; discriminate.
  - split; [apply removeAsterisks_clean|].
    split; [intros H; apply in_trim in H; exact (removeAsterisks_clean _ H)|].
    apply trim_clean.
Qed.

(** *** calculateStringSimilarity and calculateKeywordRelevance *)

(** The loop: the positions, up to the shorter length, at which the two
    strings hold the same code unit. *)
Fixpoint alignedMatches (str1 str2 : jsstring) : nat :=
  match str1, str2 with
  | x :: r1, y :: r2 => (if N.eqb x y then 1 else 0) + alignedMatches r1 r2
  | _, _ => 0
  end.

Definition calculateStringSimilarity (str1 str2 : jsstring) : Q :=
  let maxLen := Nat.max (length str1) (length str2) in
  if maxLen =? 0 then 1%Q
  else (Z.of_nat (alignedMatches str1 str2) # Pos.of_nat maxLen)%Q.

Section Relevance.

Variable toLowerCase : jsstring -> jsstring.

(** The loop of [calculateKeywordRelevance], with [maxSimilarity]. *)
Fixpoint relevanceLoop (matchedLower : jsstring)
  (messageKeywords : list jsstring) (maxSimilarity : Q) : Q :=
  match messageKeywords with
  | [] => maxSimilarity
  | keyword :: rest =>
      let keywordLower := toLowerCase keyword in
      if includes matchedLower keywordLower || includes keywordLower matchedLower
      then 1%Q
      else
        let similarity := calculateStringSimilarity matchedLower keywordLower in
        relevanceLoop matchedLower rest
          (if Qlt_bool maxSimilarity similarity then similarity
           else maxSimilarity)
  end.

Definition calculateKeywordRelevance (matchedKeyword : jsstring)
  (messageKeywords : list jsstring) : Q :=
  if length messageKeywords =? 0 then (5 # 10)%Q
  else relevanceLoop (toLowerCase matchedKeyword) messageKeywords 0%Q.

End Relevance.

Lemma alignedMatches_sym (a b : jsstring) :
  alignedMatches a b = alignedMatches b a.
Proof.
  revert b. induction a as [|x a IH]; intros [|y b]; simpl; try reflexivity.
  rewrite (N.eqb_sym x y), IH. reflexivity.
Qed.

Lemma alignedMatches_le (a b : jsstring) :
  alignedMatches a b <= Nat.min (length a) (length b).
Proof.
  revert b. induction a as [|x a IH]; intros [|y b]; simpl; try lia.
  specialize (IH b). destruct (N.eqb x y); lia.
Qed.

Lemma alignedMatches_self (a : jsstring) : alignedMatches a a = length a.
Proof.
  induction a as [|x a IH]; simpl; [reflexivity|].
  rewrite N.eqb_refl, IH. reflexivity.
Qed.

Lemma stringSimilarity_range (a b : jsstring) :
  (0 <= calculateStringSimilarity a b)%Q /\ (calculateStringSimilarity a b <= 1)%Q.
Proof.
  unfold calculateStringSimilarity.
  destruct (Nat.max (length a) (length b) =? 0) eqn:E; [split; discriminate|].
  apply Nat.eqb_neq in E. pose proof (alignedMatches_le a b) as H.
  assert (Hp : Z.pos (Pos.of_nat (Nat.max (length a) (length b)))
               = Z.of_nat (Nat.max (length a) (length b))).
  { destruct (Nat.max (length a) (length b)); [congruence | lia]. }
  unfold Qle. simpl. rewrite Hp. split; lia.
Qed.

(** X22.  The position-by-position similarity does not depend on the order of
    its arguments, lies between 0 and 1, and is 1 for equal strings. *)
Theorem string_similarity_symmetric_and_bounded (str1 str2 : jsstring) :
  calculateStringSimilarity str1 str2 = calculateStringSimilarity str2 str1
  /\ (0 <= calculateStringSimilarity str1 str2)%Q
  /\ (calculateStringSimilarity str1 str2 <= 1)%Q
  /\ (calculateStringSimilarity str1 str1 == 1)%Q.
Proof.
  split.
  { unfold calculateStringSimilarity.
    rewrite (Nat.max_comm (length str2)), (alignedMatches_sym str2).
    reflexivity. }
  split; [apply stringSimilarity_range|]. split; [apply stringSimilarity_range|].
  unfold calculateStringSimilarity. rewrite Nat.max_id, alignedMatches_self.
  destruct str1 as [|c s]; [reflexivity|].
  change (length (c :: s) =? 0) with false. cbv iota.
  unfold Qeq. simpl. lia.
Qed.

Section RelevanceFacts.

Variable toLowerCase : jsstring -> jsstring.

(** A message keyword in a substring relation with the matched one. *)
Definition related (matchedKeyword keyword : jsstring) : Prop :=
  includes (toLowerCase matchedKeyword) (toLowerCase keyword) = true
  \/ includes (toLowerCase keyword) (toLowerCase matchedKeyword) = true.

Lemma relevanceLoop_related (matchedKeyword : jsstring)
  (messageKeywords : list jsstring) (maxSimilarity : Q) :
  Exists (related matchedKeyword) messageKeywords ->
  relevanceLoop toLowerCase (toLowerCase matchedKeyword) messageKeywords
    maxSimilarity = 1%Q.
Proof.
  intros H. revert maxSimilarity.
  induction messageKeywords as [|k rest IH]; intros maxSimilarity;
    [inversion H|].
  simpl.
  destruct (includes _ _ || includes _ _) eqn:E; [reflexivity|].
  apply IH. inversion H as [? ? Hk | ? ? Hr]; subst; [|exact Hr].
  exfalso. apply orb_false_iff in E as [E1 E2].
  destruct Hk as [Hk | Hk]; congruence.
Qed.

Lemma relevanceLoop_range (matchedLower : jsstring)
  (messageKeywords : list jsstring) (maxSimilarity : Q) :
  (0 <= maxSimilarity)%Q -> (maxSimilarity <= 1)%Q ->
  (0 <= relevanceLoop toLowerCase matchedLower messageKeywords maxSimilarity)%Q
  /\ (relevanceLoop toLowerCase matchedLower messageKeywords maxSimilarity <= 1)%Q.
Proof.
  revert maxSimilarity.
  induction messageKeywords as [|k rest IH]; intros maxSimilarity H0 H1; simpl;
    [auto|].
  destruct (includes _ _ || includes _ _); [split; discriminate|].
  destruct (Qlt_bool maxSimilarity _); apply IH; try assumption;
    apply stringSimilarity_range.
Qed.

(** X23.  The relevance of a matched keyword is 0.5 when the message has no
    keywords, 1 as soon as one of the message keywords contains the
    matched keyword or is contained in it, wherever it stands in the
    list, and between 0 and 1 in all cases. *)
Theorem keyword_relevance_bounds (matchedKeyword : jsstring)
  (messageKeywords : list jsstring) :
  calculateKeywordRelevance toLowerCase matchedKeyword [] = (5 # 10)%Q
  /\ (Exists (related matchedKeyword) messageKeywords ->
      calculateKeywordRelevance toLowerCase matchedKeyword messageKeywords
      = 1%Q)
  /\ (0 <= calculateKeywordRelevance toLowerCase matchedKeyword
             messageKeywords)%Q
  /\ (calculateKeywordRelevance toLowerCase matchedKeyword messageKeywords
      <= 1)%Q.
Proof.
  split; [reflexivity|]. unfold calculateKeywordRelevance.
  destruct messageKeywords as [|k rest].
  - split; [intros H; inversion H|]. split; discriminate.
  - change (length (k :: rest) =? 0) with false. cbv iota.
    split; [apply relevanceLoop_related|].
    apply relevanceLoop_range; discriminate.
Qed.

End RelevanceFacts.

Lemma keyword_relevance_witness :
  calculateKeywordRelevance asciiLower (lit "Opening Hours")
    [lit "zebra"; lit "HOURS"]
  = 1%Q.
Proof.
  apply (proj1 (proj2 (keyword_relevance_bounds asciiLower (lit "Opening Hours")
                         [lit "zebra"; lit "HOURS"]))).
  apply Exists_cons_tl, Exists_cons_hd. left. reflexivity.
Defined.

End OrchestratorFacts.

(** ** GenerativeResponder: how [generateResponse] can end *)

Module GeminiFacts.
Import JS Gemini TrimFacts.

(** The time spent waiting between the attempts, in milliseconds. *)
Fixpoint totalWait (effects : list Effect) : nat :=
  match effects with
  | [] => 0
  | Wait ms :: rest => ms + totalWait rest
  | CallModel _ :: rest => totalWait rest
  end.

(** X24.  [generateResponse] never returns [undefined]: it returns a trimmed
    text, or throws either the quota-exceeded error or an error, not a
    quota error, thrown by one of the first three attempts.  Whatever
    happens, it waits at most [3 * retryDelay], 6 seconds, in all. *)
Theorem generate_returns_text_or_throws (tryModel : nat -> Result jsstring) :
  let '(result, effects) := generateResponse tryModel in
  match result with
  | Returned None => False
  | Returned (Some text) => trim text = text
  | Thrown e =>
      e = quotaExceeded
      \/ exists k, 1 <= k <= 3 /\ tryModel k = Thrown e /\ isQuotaError e = false
  end
  /\ totalWait effects <= 3 * retryDelay.
Proof.
  unfold generateResponse, maxRetries. simpl. unfold retryDelay.
  destruct (tryModel 1) as [t1|e1] eqn:E1.
  { split; [apply trim_idempotent | simpl; lia]. }
  destruct (isQuotaError e1) eqn:Q1.
  2:{ split; [right; exists 1; repeat split; auto; lia | simpl; lia]. }
  destruct (tryModel 2) as [t2|e2] eqn:E2.
  { split; [apply trim_idempotent | simpl; lia]. }
  destruct (isQuotaError e2) eqn:Q2.
  2:{ split; [right; exists 2; repeat split; auto; lia | simpl; lia]. }
  destruct (tryModel 3) as [t3|e3] eqn:E3.
  { split; [apply trim_idempotent | simpl; lia]. }
  destruct (isQuotaError e3) eqn:Q3.
  - split; [left; reflexivity | simpl; lia].
  - split; [right; exists 3; repeat split; auto; lia | simpl; lia].
Qed.

End GeminiFacts.

(** ** Link formatting only inserts *)

Module LinkFacts.
Import JS Links.

Lemma sublist_wrapLink (scheme : string) (m : jsstring) :
  sublist m (wrapLink scheme m).
Proof.
  unfold wrapLink. apply sublist_inserts_l, sublist_inserts_r. reflexivity.
Qed.

Lemma rewritten_sublist (pat : Pattern) (scheme : string) (s out : jsstring) :
  Rewritten pat (wrapLink scheme) s out -> sublist s out.
Proof.
  induction 1 as [|c s out _ _ IH|c s n out _ _ IH].
  - constructor.
  - apply sublist_skip, IH.
  - rewrite <- (firstn_skipn (S n) (c :: s)) at 1.
    apply sublist_app; [apply sublist_wrapLink | exact IH].
Qed.

Lemma guardedReplace_sublist (guard : jsstring) (pat : Pattern)
  (scheme : string) (s : jsstring) :
  sublist s (guardedReplace guard pat scheme s).
Proof.
  unfold guardedReplace. destruct (negb (includes s guard)); [|reflexivity].
  apply (rewritten_sublist pat scheme).
  exact (replaceFrom_rewritten pat (wrapLink scheme) s 0).
Qed.

(** X25.  [formatClickableLinks] only inserts link syntax: every code unit of
    the text is still there afterwards, in the same order.  Nothing is
    deleted or replaced. *)
Theorem link_formatting_only_inserts (text : jsstring) :
  sublist text (formatClickableLinks text)
  /\ length text <= length (formatClickableLinks text).
Proof.
  assert (H : sublist text (formatClickableLinks text)).
  { unfold formatClickableLinks. destruct (falsy text); [reflexivity|].
    cbv zeta.
    etransitivity; [|apply guardedReplace_sublist].
    etransitivity; [|apply guardedReplace_sublist].
    etransitivity; [|apply guardedReplace_sublist].
    apply guardedReplace_sublist. }
  split; [exact H | apply sublist_length, H].
Qed.

End LinkFacts.

(** ** AutoRefreshService: the refresh timer

    [setInterval] and [clearInterval] act on the list of the timers that
    are set, each with its id and its period. *)

Module AutoRefresh.

Record Refresher := {
  refreshInterval : Z;
  isRunning : bool;
  intervalId : option nat;
  timers : list (nat * Z);
  nextTimer : nat;               (* the id the next [setInterval] returns *)
  refreshes : nat                (* calls of [refreshData] so far *)
}.

(** The state the constructor leaves. *)
Definition init : Refresher :=
  {| refreshInterval := 1 * 60 * 1000; isRunning := false; intervalId := None;
     timers := []; nextTimer := 0; refreshes := 0 |}.

Definition start (st : Refresher) : Refresher :=
  if isRunning st then st
  else
    {| refreshInterval := refreshInterval st; isRunning := true;
       intervalId := Some (nextTimer st);
       timers := timers st ++ [(nextTimer st, refreshInterval st)];
       nextTimer := S (nextTimer st);
       refreshes := S (refreshes st) |}.

Definition clearInterval (id : nat) (l : list (nat * Z)) : list (nat * Z) :=
  List.filter (fun t => negb (fst t =? id)) l.

Definition stop (st : Refresher) : Refresher :=
  if negb (isRunning st) then st
  else
    match intervalId st with
    | Some id =>
        {| refreshInterval := refreshInterval st; isRunning := false;
           intervalId := None; timers := clearInterval id (timers st);
           nextTimer := nextTimer st; refreshes := refreshes st |}
    | None =>
        {| refreshInterval := refreshInterval st; isRunning := false;
           intervalId := None; timers := timers st;
           nextTimer := nextTimer st; refreshes := refreshes st |}
    end.

Definition setRefreshInterval (interval : Z) (st : Refresher) : Refresher :=
  {| refreshInterval := interval; isRunning := isRunning st;
     intervalId := intervalId st; timers := timers st;
     nextTimer := nextTimer st; refreshes := refreshes st |}.

Definition updateInterval (interval : Z) (st : Refresher) : Refresher :=
  let interval := if (interval <? 60000)%Z then 60000%Z else interval in
  let st1 := setRefreshInterval interval st in
  if isRunning st1 then start (stop st1) else st1.

(** A timer fires: its callback calls [refreshData]. *)
Definition fire (id : nat) (st : Refresher) : Refresher :=
  if existsb (fun t => fst t =? id) (timers st)
  then {| refreshInterval := refreshInterval st; isRunning := isRunning st;
          intervalId := intervalId st; timers := timers st;
          nextTimer := nextTimer st; refreshes := S (refreshes st) |}
  else st.

Inductive Call :=
| Start
| Stop
| UpdateInterval (interval : Z)
| Fire (id : nat).

Definition step (st : Refresher) (c : Call) : Refresher :=
  match c with
  | Start => start st
  | Stop => stop st
  | UpdateInterval interval => updateInterval interval st
  | Fire id => fire id st
  end.

Definition run (calls : list Call) : Refresher := fold_left step calls init.

Example restart_with_new_period :
  let st := run [Start; UpdateInterval 1000; UpdateInterval 90000; Fire 2] in
  timers st = [(2, 90000%Z)] /\ refreshes st = 4.
Proof. split; reflexivity. Qed.

(** The timer that is set, if any, is the one in [intervalId], with the
    current period; the service runs exactly when there is one. *)
Definition consistent (st : Refresher) : Prop :=
  (60000 <= refreshInterval st)%Z
  /\ match intervalId st with
     | Some id =>
         isRunning st = true /\ timers st = [(id, refreshInterval st)]
         /\ id < nextTimer st
     | None => isRunning st = false /\ timers st = []
     end.

Lemma consistent_start (st : Refresher) : consistent st -> consistent (start st).
Proof.
  intros H. pose proof H as (Hi & Hm). unfold start.
  destruct (intervalId st) as [id|] eqn:E.
  - destruct Hm as (Hr & _). rewrite Hr. exact H.
  - destruct Hm as (Hr & Ht). rewrite Hr. unfold consistent. simpl.
    rewrite Ht. simpl. repeat split; [exact Hi | lia].
Qed.

Lemma consistent_stop (st : Refresher) : consistent st -> consistent (stop st).
Proof.
  intros H. pose proof H as (Hi & Hm). unfold stop.
  destruct (intervalId st) as [id|] eqn:E.
  - destruct Hm as (Hr & Ht & _). rewrite Hr. simpl. unfold consistent. simpl.
    rewrite Ht. unfold clearInterval. simpl. rewrite Nat.eqb_refl. simpl.
    repeat split. exact Hi.
  - destruct Hm as (Hr & Ht). rewrite Hr. simpl. exact H.
Qed.

Lemma consistent_updateInterval (interval : Z) (st : Refresher) :
  consistent st -> consistent (updateInterval interval st).
Proof.
  intros (Hi & Hm). unfold updateInterval.
  set (i := if (interval <? 60000)%Z then 60000%Z else interval).
  assert (Hge : (60000 <= i)%Z).
  { unfold i. destruct (interval <? 60000)%Z eqn:E; [lia|].
    apply Z.ltb_ge in E. exact E. }
  simpl. destruct (intervalId st) as [id|] eqn:E.
  - destruct Hm as (Hr & Ht & Hlt). rewrite Hr.
    unfold stop, start, setRefreshInterval. simpl. rewrite Hr, E. simpl.
    unfold consistent. simpl. rewrite Ht. unfold clearInterval. simpl.
    rewrite Nat.eqb_refl. simpl. repeat split; [exact Hge | lia].
  - destruct Hm as (Hr & Ht). rewrite Hr.
    unfold consistent, setRefreshInterval. simpl. rewrite E.
    repeat split; assumption.
Qed.

Lemma consistent_fire (id : nat) (st : Refresher) :
  consistent st -> consistent (fire id st).
Proof.
  intros H. unfold fire. destruct (existsb _ _); exact H.
Qed.

Lemma consistent_run (calls : list Call) : consistent (run calls).
Proof.
  unfold run.
  assert (H : forall st, consistent st -> consistent (fold_left step calls st)).
  { induction calls as [|c calls IH]; intros st Hst; simpl; [exact Hst|].
    apply IH. destruct c; simpl;
      [apply consistent_start | apply consistent_stop
       | apply consistent_updateInterval | apply consistent_fire]; exact Hst. }
  apply H. unfold consistent, init. simpl. split; [lia | auto].
Qed.

(** X26.  Whatever the sequence of [start], [stop] and [updateInterval] calls:
    at most one refresh timer is set; the service is running exactly
    when one is; its period is the current [refreshInterval]; and that
    interval is never below one minute. *)
Theorem one_refresh_timer (calls : list Call) :
  let st := run calls in
  (60000 <= refreshInterval st)%Z
  /\ length (timers st) <= 1
  /\ Forall (fun t => snd t = refreshInterval st) (timers st)
  /\ (isRunning st = true <-> timers st <> []).
Proof.
  intros st. destruct (consistent_run calls) as (Hi & Hm). fold st in Hi, Hm.
  split; [exact Hi|].
  destruct (intervalId st) as [id|].
  - destruct Hm as (Hr & Ht & _). rewrite Hr, Ht. simpl.
    repeat split; auto; try discriminate; repeat constructor.
  - destruct Hm as (Hr & Ht). rewrite Hr, Ht. simpl.
    repeat split; auto; try discriminate; try congruence; constructor.
Qed.

End AutoRefresh.

(** ** TextAnalyzer: NLPService.calculateSimilarity

    Tokenizing and stemming are done by libraries; [preprocessText] is
    left abstract. *)

Module Nlp.
Import JS.

Section Jaccard.

Variable preprocessText : jsstring -> list jsstring.

Definition calculateSimilarity (text1 text2 : jsstring) : Q :=
  if falsy text1 || falsy text2 then 0%Q
  else
    let tokens1 := preprocessText text1 in
    let tokens2 := preprocessText text2 in
    if (length tokens1 =? 0) || (length tokens2 =? 0) then 0%Q
    else
      let set1 : gset jsstring := list_to_set tokens1 in
      let set2 : gset jsstring := list_to_set tokens2 in
      let intersection : gset jsstring := filter (fun x => x ∈ set2) set1 in
      let union : gset jsstring := set1 ∪ set2 in
      (Z.of_nat (size intersection) # Pos.of_nat (size union))%Q.

Lemma intersection_comm (a b : gset jsstring) :
  filter (fun x => x ∈ b) a = filter (fun x => x ∈ a) b.
Proof. apply set_eq. intros x. rewrite !elem_of_filter. tauto. Qed.

Lemma intersection_le_union (a b : gset jsstring) :
  size (filter (fun x => x ∈ b) a) <= size (a ∪ b).
Proof.
  apply subseteq_size. intros x Hx. apply elem_of_filter in Hx as [_ Hx].
  apply elem_of_union. left. exact Hx.
Qed.

(** X27.  The Jaccard similarity of two texts does not depend on their order
    and lies between 0 and 1; a text with at least one token has
    similarity 1 with itself. *)
Theorem jaccard_symmetric_and_bounded (text1 text2 : jsstring) :
  calculateSimilarity text1 text2 = calculateSimilarity text2 text1
  /\ (0 <= calculateSimilarity text1 text2)%Q
  /\ (calculateSimilarity text1 text2 <= 1)%Q
  /\ (text1 <> [] -> preprocessText text1 <> [] ->
      (calculateSimilarity text1 text1 == 1)%Q).
Proof.
  split.
  { unfold calculateSimilarity.
    rewrite (orb_comm (falsy text2)), (orb_comm (length (preprocessText text2) =? 0)).
    destruct (falsy text1 || falsy text2); [reflexivity|].
    destruct ((length _ =? 0) || _); [reflexivity|].
    rewrite intersection_comm.
    rewrite (union_comm_L (list_to_set (preprocessText text2))). reflexivity. }
  assert (Hrange : forall (a b : gset jsstring),
            (0 <= Z.of_nat (size (filter (fun x => x ∈ b) a))
                  # Pos.of_nat (size (a ∪ b)))%Q
            /\ (Z.of_nat (size (filter (fun x => x ∈ b) a))
                  # Pos.of_nat (size (a ∪ b)) <= 1)%Q).
  { intros a b. pose proof (intersection_le_union a b) as Hle.
    unfold Qle. simpl. split; [lia|].
    destruct (size (a ∪ b)) as [|n] eqn:E; [simpl; lia|].
    rewrite <- E.
    assert (Hp : Z.pos (Pos.of_nat (size (a ∪ b))) = Z.of_nat (size (a ∪ b)))
      by (rewrite E; lia).
    rewrite Hp. lia. }
  split; [|split].
  - unfold calculateSimilarity.
    destruct (falsy text1 || falsy text2); [discriminate|].
    destruct ((length _ =? 0) || _); [discriminate | apply Hrange].
  - unfold calculateSimilarity.
    destruct (falsy text1 || falsy text2); [discriminate|].
    destruct ((length _ =? 0) || _); [discriminate | apply Hrange].
  - intros Ht Htok. unfold calculateSimilarity.
    rewrite orb_diag. destruct text1 as [|c t]; [congruence|].
    simpl falsy. cbv iota. rewrite orb_diag.
    destruct (preprocessText (c :: t)) as [|tok toks] eqn:E; [congruence|].
    change (length (tok :: toks) =? 0) with false. cbv iota.
    set (s := list_to_set (tok :: toks) : gset jsstring).
    assert (Hf : filter (fun x => x ∈ s) s = s).
    { apply set_eq. intros x. rewrite elem_of_filter. tauto. }
    rewrite Hf, union_idemp_L.
    assert (Hpos : size s <> 0).
    { apply size_non_empty_iff. intros Hemp.
      assert (Hin : tok ∈ s) by (unfold s; set_solver).
      rewrite Hemp in Hin. set_solver. }
    unfold Qeq. simpl.
    destruct (size s) as [|n]; [congruence | lia].
Qed.

End Jaccard.

(** Tokens on white space, as a stand-in for the tokenizer. *)
Lemma jaccard_witness :
  (calculateSimilarity splitWhitespace (lit "opening hours")
     (lit "opening hours") == 1)%Q.
Proof.
  apply (jaccard_symmetric_and_bounded splitWhitespace (lit "opening hours")
           (lit "opening hours")); discriminate.
Defined.

End Nlp.

(** ** KeywordTable: the threshold of [findMatchingKeyword] *)

Module ThresholdFacts.
Import JS KeywordTable.

Section Threshold.

Variable toLowerCase : jsstring -> jsstring.

Lemma secondPass_stays_some (t : Q) (words : list jsstring)
  (items : list KeywordItem) (best : Best) :
  fst best <> None ->
  fst (fold_left (secondPassStep toLowerCase t words) items best) <> None.
Proof.
  revert best. induction items as [|item items IH]; intros best Hb; simpl;
    [exact Hb|].
  apply IH. unfold secondPassStep.
  destruct (falsy (keyword item)); [exact Hb|].
  destruct (Qle_bool t _ && Qlt_bool (snd best) _); [discriminate | exact Hb].
Qed.

(** If the second pass finds nothing at [t], it finds nothing at any
    [t'] above [t]. *)
Lemma secondPass_none (t t' : Q) (words : list jsstring)
  (items : list KeywordItem) :
  (t <= t')%Q ->
  fst (fold_left (secondPassStep toLowerCase t words) items (None, 0%Q)) = None ->
  fold_left (secondPassStep toLowerCase t words) items (None, 0%Q) = (None, 0%Q)
  /\ fold_left (secondPassStep toLowerCase t' words) items (None, 0%Q)
     = (None, 0%Q).
Proof.
  intros Hle. induction items as [|item items IH]; simpl; [auto|].
  assert (Hstep : forall u,
            secondPassStep toLowerCase u words (None, 0%Q) item
            = if falsy (keyword item) then (None, 0%Q)
              else
                let sc := wordScore words
                            (splitWhitespace
                               (normalize toLowerCase (keyword item))) in
                if Qle_bool u sc && Qlt_bool 0 sc
                then (Some (hit item sc word_match), sc)
                else (None, 0%Q)) by reflexivity.
  rewrite (Hstep t), (Hstep t'). clear Hstep.
  destruct (falsy (keyword item)); [exact IH|]. cbv zeta.
  set (sc := wordScore words
               (splitWhitespace (normalize toLowerCase (keyword item)))).
  destruct (Qle_bool t sc && Qlt_bool 0 sc) eqn:E.
  - intros Hnone. exfalso.
    refine (secondPass_stays_some t words items
              (Some (hit item sc word_match), sc) _ Hnone).
    simpl. discriminate.
  - assert (E' : Qle_bool t' sc && Qlt_bool 0 sc = false).
    { destruct (Qle_bool t' sc) eqn:Et'; [|reflexivity].
      apply Qle_bool_iff in Et'.
      assert (Ht : Qle_bool t sc = true)
        by (apply Qle_bool_iff; apply Qle_trans with t'; assumption).
      rewrite Ht in E. exact E. }
    rewrite E'. exact IH.
Qed.

(** X28.  A stricter threshold never finds more: when
    [findMatchingKeyword] finds nothing with a threshold, it finds
    nothing with any higher one. *)
Theorem stricter_threshold_finds_no_more (keywordsData : list KeywordItem)
  (userMessage : jsstring) (t t' : Q) :
  (t <= t')%Q ->
  findMatchingKeyword toLowerCase keywordsData userMessage t = None ->
  findMatchingKeyword toLowerCase keywordsData userMessage t' = None.
Proof.
  intros Hle. unfold findMatchingKeyword.
  destruct (length keywordsData =? 0); [reflexivity|].
  destruct (firstPass toLowerCase _ keywordsData); [discriminate|].
  set (words := splitWhitespace (normalize toLowerCase userMessage)).
  destruct (fst (fold_left (secondPassStep toLowerCase t words) keywordsData
                   (None, 0%Q))) as [m|] eqn:E2.
  { cbv iota. rewrite E2. discriminate. }
  destruct (secondPass_none t t' words keywordsData Hle E2) as [H2 H2'].
  rewrite H2, H2'. simpl. intros H. exact H.
Qed.

End Threshold.

Lemma stricter_threshold_witness :
  findMatchingKeyword asciiLower [row "opening hours today" "9-5"]
    (lit "zebra crossing") (9 # 10)
  = None.
Proof.
  apply (stricter_threshold_finds_no_more asciiLower
           [row "opening hours today" "9-5"] (lit "zebra crossing")
           (1 # 10) (9 # 10)).
  - vm_compute. discriminate.
  - vm_compute. reflexivity.
Defined.

End ThresholdFacts.

(** ** cleanJsonResponse (GeminiService and ChatbotService) *)

Module JsonCleaning.
Import JS Links TrimFacts.

Definition backtick : N := 96%N.
Definition openBrace : N := 123%N.
Definition closeBrace : N := 125%N.

(** [/```json\s*/g] and [/```\s*/g]. *)
Definition fenceJson : Pattern := literal "```json" ++ [atLeast isWhiteSpace 0].
Definition fence : Pattern := literal "```" ++ [atLeast isWhiteSpace 0].

(** [s.indexOf(c)] and [s.lastIndexOf(c)], [None] for -1. *)
Fixpoint indexOf (c : N) (s : jsstring) : option nat :=
  match s with
  | [] => None
  | x :: s' => if N.eqb x c then Some 0 else option_map S (indexOf c s')
  end.

Fixpoint lastIndexOf (c : N) (s : jsstring) : option nat :=
  match s with
  | [] => None
  | x :: s' =>
      match lastIndexOf c s' with
      | Some k => Some (S k)
      | None => if N.eqb x c then Some 0 else None
      end
  end.

(** [s.substring(a, b)] for [a <= b]. *)
Definition substring (a b : nat) (s : jsstring) : jsstring :=
  firstn (b - a) (skipn a s).

Definition cleanJsonResponse (response : jsstring) : jsstring :=
  if falsy response then []
  else
    let cleaned :=
      replaceAll fence (fun _ => [])
        (replaceAll fenceJson (fun _ => []) response) in
    let cleaned := trim cleaned in
    match indexOf openBrace cleaned, lastIndexOf closeBrace cleaned with
    | Some jsonStart, Some jsonEnd =>
        if jsonStart <? jsonEnd
        then substring jsonStart (jsonEnd + 1) cleaned
        else cleaned
    | _, _ => cleaned
    end.

Example clean_chatty_answer :
  cleanJsonResponse
    (lit "Sure! ```json {a: 1} ``` Hope it helps")
  = lit "{a: 1}".
Proof. vm_compute. reflexivity. Qed.

Lemma indexOf_at (c : N) (s : jsstring) (i : nat) :
  indexOf c s = Some i -> nth_error s i = Some c.
Proof.
  revert i. induction s as [|x s IH]; intros i; simpl; [discriminate|].
  destruct (N.eqb x c) eqn:E.
  - intros [= <-]. apply N.eqb_eq in E. simpl. congruence.
  - destruct (indexOf c s) as [k|]; simpl; [|discriminate].
    intros [= <-]. simpl. apply IH. reflexivity.
Qed.

Lemma indexOf_first (c : N) (s : jsstring) (k : nat) :
  nth_error s k = Some c -> exists i, indexOf c s = Some i /\ i <= k.
Proof.
  revert k. induction s as [|x s IH]; intros k; [destruct k; discriminate|].
  simpl. destruct (N.eqb x c) eqn:E; [exists 0; split; [reflexivity | lia]|].
  destruct k as [|k]; simpl.
  - intros [= ->]. rewrite N.eqb_refl in E. discriminate.
  - intros H. destruct (IH k H) as (i & -> & Hi). exists (S i). simpl.
    split; [reflexivity | lia].
Qed.

Lemma lastIndexOf_at (c : N) (s : jsstring) (j : nat) :
  lastIndexOf c s = Some j -> nth_error s j = Some c.
Proof.
  revert j. induction s as [|x s IH]; intros j; simpl; [discriminate|].
  destruct (lastIndexOf c s) as [k|].
  - intros [= <-]. simpl. apply IH. reflexivity.
  - destruct (N.eqb x c) eqn:E; [|discriminate].
    intros [= <-]. apply N.eqb_eq in E. simpl. congruence.
Qed.

Lemma lastIndexOf_last (c : N) (s : jsstring) (k : nat) :
  nth_error s k = Some c -> exists j, lastIndexOf c s = Some j /\ k <= j.
Proof.
  revert k. induction s as [|x s IH]; intros k; [destruct k; discriminate|].
  simpl. destruct k as [|k]; simpl.
  - intros [= ->]. destruct (lastIndexOf c s) as [j|].
    + exists (S j). split; [reflexivity | lia].
    + rewrite N.eqb_refl. exists 0. split; [reflexivity | lia].
  - intros H. destruct (IH k H) as (j & -> & Hj). exists (S j).
    split; [reflexivity | lia].
Qed.

Lemma head_skipn (s : jsstring) (i : nat) : head (skipn i s) = nth_error s i.
Proof.
  revert i. induction s as [|x s IH]; intros [|i]; simpl; try reflexivity.
  apply IH.
Qed.

Lemma last_firstn (t : jsstring) (d : nat) (x : N) :
  nth_error t d = Some x -> last (firstn (S d) t) = Some x.
Proof.
  revert t. induction d as [|d IH]; intros [|y t]; simpl; try discriminate.
  - intros [= ->]. destruct t; reflexivity.
  - intros H. specialize (IH t H). destruct t as [|z t]; [destruct d; discriminate|].
    exact IH.
Qed.

Lemma nth_error_skipn (s : jsstring) (i d : nat) :
  nth_error (skipn i s) d = nth_error s (i + d).
Proof.
  revert i. induction s as [|x s IH]; intros [|i]; simpl; try reflexivity.
  - destruct d; reflexivity.
  - apply IH.
Qed.

Lemma substring_ends (s : jsstring) (a b : nat) :
  a < b ->
  nth_error s a = Some openBrace -> nth_error s b = Some closeBrace ->
  head (substring a (b + 1) s) = Some openBrace
  /\ last (substring a (b + 1) s) = Some closeBrace.
Proof.
  intros Hab Ha Hb. unfold substring.
  replace (b + 1 - a) with (S (b - a)) by lia. split.
  - rewrite <- Ha, <- head_skipn. destruct (skipn a s); reflexivity.
  - apply last_firstn. rewrite nth_error_skipn.
    replace (a + (b - a)) with b by lia. exact Hb.
Qed.

(** X29.  Whenever the cleaned response holds an opening brace before a
    closing one, it starts with an opening brace and ends with a closing
    one: the text around the outermost braces has been cut away. *)
Theorem cleaned_json_is_cut_at_braces (response : jsstring) (i j : nat) :
  i < j ->
  nth_error (cleanJsonResponse response) i = Some openBrace ->
  nth_error (cleanJsonResponse response) j = Some closeBrace ->
  head (cleanJsonResponse response) = Some openBrace
  /\ last (cleanJsonResponse response) = Some closeBrace.
Proof.
  intros Hij. unfold cleanJsonResponse.
  destruct (falsy response); [destruct i; discriminate|].
  set (cleaned := trim _).
  destruct (indexOf openBrace cleaned) as [a|] eqn:Ea.
  - destruct (lastIndexOf closeBrace cleaned) as [b|] eqn:Eb.
    + destruct (a <? b) eqn:Eab.
      * intros _ _. apply Nat.ltb_lt in Eab.
        apply substring_ends; [exact Eab | apply indexOf_at, Ea
                               | apply lastIndexOf_at, Eb].
      * intros Hi Hj. exfalso. apply Nat.ltb_ge in Eab.
        destruct (indexOf_first _ _ _ Hi) as (a' & Ha' & Hle).
        destruct (lastIndexOf_last _ _ _ Hj) as (b' & Hb' & Hge).
        rewrite Ea in Ha'. rewrite Eb in Hb'.
        injection Ha' as <-. injection Hb' as <-. lia.
    + intros _ Hj. exfalso.
      destruct (lastIndexOf_last _ _ _ Hj) as (b' & Hb' & _). congruence.
  - intros Hi _. exfalso.
    destruct (indexOf_first _ _ _ Hi) as (a' & Ha' & _). congruence.
Qed.

Lemma cut_at_braces_witness :
  head (cleanJsonResponse (lit "Sure! ```json {a: 1} ``` Hope it helps"))
  = Some openBrace.
Proof.
  refine (proj1 (cleaned_json_is_cut_at_braces
                   (lit "Sure! ```json {a: 1} ``` Hope it helps") 0 5 _ _ _)).
  - lia.
  - vm_compute. reflexivity.
  - vm_compute. reflexivity.
Defined.

Lemma replaceFrom_skip (pat : Pattern) (wrap : jsstring -> jsstring)
  (s : jsstring) (n : nat) :
  replaceFrom pat wrap n s = replaceFrom pat wrap 0 (skipn n s).
Proof.
  revert n. induction s as [|c s IH]; intros [|n]; try reflexivity.
  exact (IH n).
Qed.

Lemma replace_at_match (pat : Pattern) (wrap : jsstring -> jsstring)
  (c : N) (s : jsstring) (n : nat) :
  matchHere pat (c :: s) = Some (S n) ->
  replaceFrom pat wrap 0 (c :: s)
  = wrap (firstn (S n) (c :: s)) ++ replaceFrom pat wrap 0 (skipn n s).
Proof.
  intros H. cbn [replaceFrom]. rewrite H, replaceFrom_skip. reflexivity.
Qed.

(** A pattern whose first item must match one unit of a class matches
    nowhere in a text that has no unit of that class. *)
Lemma replace_without_first (p : N -> bool) (rest : Pattern)
  (wrap : jsstring -> jsstring) (s t : jsstring) :
  (forall c, In c s -> p c = false) ->
  replaceFrom (once p :: rest) wrap 0 (s ++ t)
  = s ++ replaceFrom (once p :: rest) wrap 0 t.
Proof.
  induction s as [|c s IH]; intros Hs; [reflexivity|].
  assert (Hc : p c = false) by (apply Hs; left; reflexivity).
  change ((c :: s) ++ t) with (c :: (s ++ t)).
  cbn [replaceFrom].
  assert (Hm : matchHere (once p :: rest) (c :: s ++ t) = None).
  { cbn. rewrite Hc. reflexivity. }
  rewrite Hm, IH; [reflexivity|]. intros x H. apply Hs. right. exact H.
Qed.

Lemma replace_without_backtick (rest : Pattern) (wrap : jsstring -> jsstring)
  (s t : jsstring) :
  ~ In backtick s ->
  replaceFrom (once (N.eqb backtick) :: rest) wrap 0 (s ++ t)
  = s ++ replaceFrom (once (N.eqb backtick) :: rest) wrap 0 t.
Proof.
  intros Hs. apply replace_without_first. intros c Hc.
  apply N.eqb_neq. intros E. apply Hs. rewrite E. exact Hc.
Qed.

Lemma fenceJson_head : fenceJson = once (N.eqb backtick) :: List.tl fenceJson.
Proof. reflexivity. Qed.

Lemma fence_head : fence = once (N.eqb backtick) :: List.tl fence.
Proof. reflexivity. Qed.

Lemma lastIndexOf_snoc (c : N) (s : jsstring) :
  lastIndexOf c (s ++ [c]) = Some (length s).
Proof.
  induction s as [|x s IH]; simpl; [rewrite N.eqb_refl; reflexivity|].
  rewrite IH. reflexivity.
Qed.

Lemma trimEnd_snoc_space (s : jsstring) (c : N) :
  isWhiteSpace c = true -> trimEnd (s ++ [c]) = trimEnd s.
Proof.
  intros H. unfold trimEnd. rewrite rev_app_distr. simpl. rewrite H.
  reflexivity.
Qed.

(** The last step of [cleanJsonResponse]: the cut at the braces. *)
Definition atBraces (cleaned : jsstring) : jsstring :=
  match indexOf openBrace cleaned, lastIndexOf closeBrace cleaned with
  | Some jsonStart, Some jsonEnd =>
      if jsonStart <? jsonEnd
      then substring jsonStart (jsonEnd + 1) cleaned
      else cleaned
  | _, _ => cleaned
  end.

Lemma clean_nonempty (c : N) (r : jsstring) :
  cleanJsonResponse (c :: r)
  = atBraces (trim (replaceAll fence (fun _ => [])
                      (replaceAll fenceJson (fun _ => []) (c :: r)))).
Proof. reflexivity. Qed.

Section RoundTrip.

Variable body : jsstring.
Hypothesis body_plain : ~ In backtick body.

Let object : jsstring := openBrace :: body ++ [closeBrace].

Lemma object_plain : ~ In backtick object.
Proof.
  unfold object. intros [H | H]; [discriminate H|].
  apply in_app_or in H as [H | [H | []]]; [exact (body_plain H) | discriminate H].
Qed.

Lemma object_trimmed : trim object = object.
Proof.
  apply trim_fixed.
  - intros c [= <-]. reflexivity.
  - intros c. unfold object.
    change (openBrace :: body ++ [closeBrace])
      with ((openBrace :: body) ++ [closeBrace]).
    rewrite last_snoc. intros [= <-]. reflexivity.
Qed.

Lemma object_cut : atBraces object = object.
Proof.
  assert (Hl : lastIndexOf closeBrace object = Some (S (length body))).
  { unfold object.
    change (openBrace :: body ++ [closeBrace])
      with ((openBrace :: body) ++ [closeBrace]).
    apply lastIndexOf_snoc. }
  unfold atBraces. rewrite Hl.
  assert (Hi : indexOf openBrace object = Some 0) by reflexivity.
  rewrite Hi.
  change (0 <? S (length body)) with true. cbv iota.
  unfold substring. rewrite Nat.sub_0_r.
  change (skipn 0 object) with object.
  apply firstn_all2. unfold object. simpl. rewrite length_app. simpl. lia.
Qed.

Lemma object_without_fence (pat : Pattern) :
  replaceFrom (once (N.eqb backtick) :: pat) (fun _ => []) 0 object = object.
Proof.
  rewrite <- (app_nil_r object) at 1.
  rewrite (replace_without_backtick _ _ object [] object_plain).
  apply app_nil_r.
Qed.

Lemma clean_object : cleanJsonResponse object = object.
Proof.
  change (cleanJsonResponse (openBrace :: body ++ [closeBrace]) = object).
  rewrite clean_nonempty.
  change (openBrace :: body ++ [closeBrace]) with object.
  unfold replaceAll. rewrite fenceJson_head, fence_head.
  rewrite !object_without_fence, object_trimmed. apply object_cut.
Qed.

Lemma clean_fenced_object :
  cleanJsonResponse (lit "```json" ++ [10%N] ++ object ++ [10%N] ++ lit "```")
  = object.
Proof.
  change (lit "```json" ++ [10%N] ++ object ++ [10%N] ++ lit "```")
    with (96%N :: [96; 96; 106; 115; 111; 110; 10]%N
                  ++ object ++ [10; 96; 96; 96]%N).
  rewrite clean_nonempty. unfold replaceAll.
  assert (Hm : matchHere fenceJson
                 (96%N :: [96; 96; 106; 115; 111; 110; 10]%N
                           ++ object ++ [10; 96; 96; 96]%N)
               = Some 8) by reflexivity.
  rewrite (replace_at_match fenceJson (fun _ => []) _ _ 7 Hm).
  change (skipn 7 ([96; 96; 106; 115; 111; 110; 10]%N
                     ++ object ++ [10; 96; 96; 96]%N))
    with (object ++ [10; 96; 96; 96]%N).
  rewrite app_nil_l.
  rewrite fenceJson_head.
  rewrite (replace_without_backtick _ _ object _ object_plain).
  rewrite <- fenceJson_head.
  replace (replaceFrom fenceJson (fun _ => []) 0 [10; 96; 96; 96]%N)
    with [10; 96; 96; 96]%N by (vm_compute; reflexivity).
  rewrite fence_head.
  rewrite (replace_without_backtick _ _ object _ object_plain).
  rewrite <- fence_head.
  replace (replaceFrom fence (fun _ => []) 0 [10; 96; 96; 96]%N)
    with [10%N] by (vm_compute; reflexivity).
  assert (Ht : trim (object ++ [10%N]) = object).
  { unfold trim. rewrite (trimStart_fixed (object ++ [10%N]));
      [|intros c [= <-]; reflexivity].
    rewrite trimEnd_snoc_space by reflexivity.
    rewrite <- object_trimmed at 2. unfold trim.
    rewrite (trimStart_fixed object); [reflexivity|].
    intros c [= <-]. reflexivity. }
  rewrite Ht. apply object_cut.
Qed.

End RoundTrip.

(** X30.  A JSON object whose text holds no backtick comes back as it is,
    whether the model sent it bare or inside a [```json] code fence. *)
Theorem fenced_object_is_recovered (body : jsstring) :
  ~ In backtick body ->
  let object := openBrace :: body ++ [closeBrace] in
  cleanJsonResponse object = object
  /\ cleanJsonResponse
       (lit "```json" ++ [10%N] ++ object ++ [10%N] ++ lit "```")
     = object.
Proof.
  intros H object. split;
    [apply clean_object | apply clean_fenced_object]; exact H.
Qed.

Lemma fenced_object_witness :
  cleanJsonResponse
    (lit "```json" ++ [10%N] ++ lit "{keyword: price, confidence: 80}"
     ++ [10%N] ++ lit "```")
  = lit "{keyword: price, confidence: 80}".
Proof.
  refine (proj2 (fenced_object_is_recovered
                   (lit "keyword: price, confidence: 80") _)).
  intros H. vm_compute in H. intuition discriminate.
Defined.

End JsonCleaning.
